(** * Postgres schema compilation: the field tree walker

    A shallow embedding of [traverseFields]
    (packages/drizzle/src/postgres/schema/traverseFields.ts), the recursive
    walker that turns a field tree into columns, indexes, child tables and
    relation descriptors, together with the properties its specification
    states about it.

    The walker mutates objects it receives by reference (the adapter, the
    column and index sets of the table under construction, the relation
    registries).  The embedding threads them as one explicit [State], which
    records whether the root-scoped relation registry is the Map of the
    table under construction or another one; a [throw] is an [outcome]
    that carries no state. *)

From stdpp Require Import base option list strings gmap.
From Stdlib Require Import Ascii String.

Local Open Scope string_scope.

(** ** The field tree *)

Inductive FieldType :=
| FT_array | FT_blocks | FT_checkbox | FT_code | FT_collapsible | FT_date
| FT_email | FT_group | FT_json | FT_number | FT_point | FT_radio
| FT_relationship | FT_richText | FT_row | FT_select | FT_tab | FT_tabs
| FT_text | FT_textarea | FT_upload
| FT_join | FT_ui.

Global Instance FieldType_eq_dec : EqDecision FieldType.
Proof. solve_decision. Defined.

(** [relationTo] is one collection slug or an array of slugs. *)
Inductive RelationTo :=
| RelTo (slug : string)
| RelToMany (slugs : list string).

(** A select or radio option: a bare value or a [{label, value}] object. *)
Inductive OptionT :=
| OptionValue (value : string)
| OptionObject (label value : string).

(** The properties of a field the walker reads.  A property that the walker
    tests with ['p' in field] is an [option]. *)
Record FieldProps := {
  f_type : FieldType;
  f_name : option string;
  f_virtual : bool;
  f_localized : bool;
  f_unique : bool;
  f_index : bool;
  f_required : bool;
  f_hasMany : option bool;
  f_relationTo : option RelationTo;
  f_condition : bool;              (* field.admin?.condition is set *)
  f_defaultValue : option string;
  f_options : list OptionT
}.

#[warnings="-register-all"]
Inductive Field :=
| MkField (props : FieldProps) (fields : list Field) (blocks : list Block)
          (tabs : list Field)
with Block :=
| MkBlock (slug : string) (fields : list Field).

Definition f_props (f : Field) : FieldProps :=
  let 'MkField p _ _ _ := f in p.
Definition f_fields (f : Field) : list Field :=
  let 'MkField _ fs _ _ := f in fs.
Definition f_blocks (f : Field) : list Block :=
  let 'MkField _ _ bs _ := f in bs.
Definition f_tabs (f : Field) : list Field :=
  let 'MkField _ _ _ ts := f in ts.
Definition b_slug (b : Block) : string := let 'MkBlock s _ := b in s.
Definition b_fields (b : Block) : list Field := let 'MkBlock _ fs := b in fs.

Coercion f_props : Field >-> FieldProps.

Definition with_type (t : FieldType) (p : FieldProps) : FieldProps :=
  {| f_type := t; f_name := f_name p; f_virtual := f_virtual p;
     f_localized := f_localized p; f_unique := f_unique p;
     f_index := f_index p; f_required := f_required p;
     f_hasMany := f_hasMany p; f_relationTo := f_relationTo p;
     f_condition := f_condition p; f_defaultValue := f_defaultValue p;
     f_options := f_options p |}.

(** [{ ...tab, type: 'tab' }] *)
Definition asTab (t : Field) : Field :=
  let 'MkField p fs bs ts := t in MkField (with_type FT_tab p) fs bs ts.

(** [field.hasMany === true], also false when the property is absent. *)
Definition hasManyTrue (p : FieldProps) : bool :=
  match f_hasMany p with Some true => true | _ => false end.

(** [field.hasMany] as a condition. *)
Definition hasManyTruthy (p : FieldProps) : bool := hasManyTrue p.

(** ['relationTo' in field && Array.isArray(field.relationTo)] *)
Definition relationToIsArray (p : FieldProps) : bool :=
  match f_relationTo p with Some (RelToMany _) => true | _ => false end.

(** ** Columns, indexes and tables *)

Inductive IDType := integer_id | numeric_id | uuid_id | varchar_id.

Inductive ColumnType :=
| PgBoolean | PgGeometry | PgInteger | PgJsonb | PgNumeric
| PgText | PgTimestamp | PgUUID | PgVarchar
| PgEnum (enumName : string).

Inductive OnDelete := cascade | set_null.

(** A column builder: its constructor, its database name and the modifiers
    chained on it.  [col_references] holds the table whose [id] the column
    points to; the walker reads that name from [tableNameMap], where it may
    be missing. *)
Record Column := {
  col_type : ColumnType;
  col_name : string;
  col_notNull : bool;
  col_default : option string;
  col_references : option (option string * OnDelete)
}.

Definition column (t : ColumnType) (name : string) : Column :=
  {| col_type := t; col_name := name; col_notNull := false;
     col_default := None; col_references := None |}.

Definition notNull (c : Column) : Column :=
  {| col_type := col_type c; col_name := col_name c; col_notNull := true;
     col_default := col_default c; col_references := col_references c |}.

Definition references (table : option string) (od : OnDelete) (c : Column)
  : Column :=
  {| col_type := col_type c; col_name := col_name c;
     col_notNull := col_notNull c; col_default := col_default c;
     col_references := Some (table, od) |}.

Definition boolean := column PgBoolean.
Definition integer := column PgInteger.
Definition jsonb := column PgJsonb.
Definition numeric := column PgNumeric.
Definition text := column PgText.
Definition timestamp := column PgTimestamp.
Definition uuid := column PgUUID.
Definition varchar := column PgVarchar.

(** Modelled from the spec: [geometryColumn] (./geometryColumn.js is not
    among the sources), the Column Mapper's column for a point field. *)
Definition geometryColumn := column PgGeometry.

(** Modelled from the spec: [parentIDColumnMap] (./parentIDColumnMap.js is
    not among the sources), the table from an id-column type
    (integer/uuid/numeric/varchar) to the column constructor that agrees
    with it. *)
Definition parentIDColumnMap (t : IDType) : string -> Column :=
  match t with
  | integer_id => integer
  | numeric_id => numeric
  | uuid_id => uuid
  | varchar_id => varchar
  end.

(** The argument of [createIndex]: the field name, with ['_locale'] beside
    it for a localized field, the index name and the unique flag. *)
Record IndexSpec := {
  idx_on : list string;
  idx_name : string;
  idx_unique : bool
}.

Definition createIndex (name : list string) (indexName : string)
  (unique : bool) : IndexSpec :=
  {| idx_on := name; idx_name := indexName; idx_unique := unique |}.

(** An entry of a [BaseExtraConfig]. *)
Inductive ExtraConfig :=
| index_on (name : string) (cols : list string)
| unique_index_on (name : string) (cols : list string)
| foreignKey (name : string) (cols : list string) (foreignTable : string)
             (od : OnDelete).

Inductive RelationType := one | many.

Record RelationDescriptor := {
  rel_type : RelationType;
  rel_localized : bool;
  rel_target : option string
}.

(** A [RelationMap] is a JS [Map]: its keys are not coerced to strings, so a
    missing field name is the key [None]. *)
Abbreviation RelationMap := (gmap (option string) RelationDescriptor).

Inductive Tri := no | yes | indexed.

(** The walker's [Result]; ['index' | boolean] is [Tri]. *)
Record Result := {
  hasLocalizedField : bool;
  hasLocalizedManyNumberField : bool;
  hasLocalizedManyTextField : bool;
  hasLocalizedRelationshipField : bool;
  hasManyNumberField : Tri;
  hasManyTextField : Tri
}.

Definition noFlags : Result :=
  {| hasLocalizedField := false; hasLocalizedManyNumberField := false;
     hasLocalizedManyTextField := false;
     hasLocalizedRelationshipField := false;
     hasManyNumberField := no; hasManyTextField := no |}.

Definition truthy (t : Tri) : bool :=
  match t with no => false | _ => true end.

(** A registered table: its columns, extra configuration and indexes, and
    what building it returned. *)
Record Table := {
  tbl_columns : gmap string Column;
  tbl_extra : gmap string ExtraConfig;
  tbl_indexes : gmap string IndexSpec;
  tbl_flags : Result;
  tbl_relationsToBuild : RelationMap
}.

(** What the callback given to [relations(...)] captures. *)
Record RelationsDecl := {
  rd_table : string;
  rd_parent : string * string * string;   (* key, parent table, relationName *)
  rd_locales : option string;
  rd_sub : RelationMap
}.

(** ** The adapter and the objects shared through a pass *)

(** The adapter: the registries the walker writes ([tables], [enums],
    [relations], [fieldConstraints], [extensions.postgis]) and the
    configuration it reads. *)
Record Adapter := {
  tables : gmap string Table;
  enums : gmap string (list string);
  relations : gmap string RelationsDecl;
  fieldConstraints : gmap string (gmap string string);
  postgis : bool;                            (* adapter.extensions.postgis *)
  idType : string;
  localesSuffix : string;
  localization : bool;       (* adapter.payload.config.localization is set *)
  collections : gmap string (list Field);
                     (* adapter.payload.collections[slug].config.fields *)
  tableNameMap : gmap string string
}.

Definition set_tables (f : gmap string Table -> gmap string Table)
  (a : Adapter) : Adapter :=
  {| tables := f (tables a); enums := enums a; relations := relations a;
     fieldConstraints := fieldConstraints a; postgis := postgis a;
     idType := idType a; localesSuffix := localesSuffix a;
     localization := localization a; collections := collections a;
     tableNameMap := tableNameMap a |}.

Definition set_enums (f : gmap string (list string) -> gmap string (list string))
  (a : Adapter) : Adapter :=
  {| tables := tables a; enums := f (enums a); relations := relations a;
     fieldConstraints := fieldConstraints a; postgis := postgis a;
     idType := idType a; localesSuffix := localesSuffix a;
     localization := localization a; collections := collections a;
     tableNameMap := tableNameMap a |}.

Definition set_relations
  (f : gmap string RelationsDecl -> gmap string RelationsDecl)
  (a : Adapter) : Adapter :=
  {| tables := tables a; enums := enums a; relations := f (relations a);
     fieldConstraints := fieldConstraints a; postgis := postgis a;
     idType := idType a; localesSuffix := localesSuffix a;
     localization := localization a; collections := collections a;
     tableNameMap := tableNameMap a |}.

Definition set_fieldConstraints
  (f : gmap string (gmap string string) -> gmap string (gmap string string))
  (a : Adapter) : Adapter :=
  {| tables := tables a; enums := enums a; relations := relations a;
     fieldConstraints := f (fieldConstraints a); postgis := postgis a;
     idType := idType a; localesSuffix := localesSuffix a;
     localization := localization a; collections := collections a;
     tableNameMap := tableNameMap a |}.

Definition set_postgis (b : bool) (a : Adapter) : Adapter :=
  {| tables := tables a; enums := enums a; relations := relations a;
     fieldConstraints := fieldConstraints a; postgis := b;
     idType := idType a; localesSuffix := localesSuffix a;
     localization := localization a; collections := collections a;
     tableNameMap := tableNameMap a |}.

(** Everything a call of the walker can mutate: the adapter, the column and
    index sets of the table under construction and of its locale sibling,
    the relation registry of that table, and the three root-scoped
    registries.  [relationsToBuild] and [rootRelationsToBuild] are two
    references to Maps, and a caller can pass one Map for both: [ownRoot] is
    the root-scoped registry when it is a Map of its own, and [None] when
    the Map of [relationsToBuild] plays both roles, so that a write through
    either reference is seen through the other. *)
Record State := {
  adapter : Adapter;
  columns : gmap string Column;
  indexes : gmap string IndexSpec;
  localesColumns : gmap string Column;
  localesIndexes : gmap string IndexSpec;
  relationships : gset string;
  relationsToBuild : RelationMap;
  ownRoot : option RelationMap;
  uniqueRelationships : gset string
}.

(** The Map behind the reference [rootRelationsToBuild]. *)
Definition rootRelationsToBuild (s : State) : RelationMap :=
  match ownRoot s with
  | Some root => root
  | None => relationsToBuild s
  end.

Definition set_adapter (f : Adapter -> Adapter) (s : State) : State :=
  {| adapter := f (adapter s); columns := columns s; indexes := indexes s;
     localesColumns := localesColumns s; localesIndexes := localesIndexes s;
     relationships := relationships s;
     relationsToBuild := relationsToBuild s;
     ownRoot := ownRoot s;
     uniqueRelationships := uniqueRelationships s |}.

Definition set_columns (f : gmap string Column -> gmap string Column)
  (s : State) : State :=
  {| adapter := adapter s; columns := f (columns s); indexes := indexes s;
     localesColumns := localesColumns s; localesIndexes := localesIndexes s;
     relationships := relationships s;
     relationsToBuild := relationsToBuild s;
     ownRoot := ownRoot s;
     uniqueRelationships := uniqueRelationships s |}.

Definition set_indexes (f : gmap string IndexSpec -> gmap string IndexSpec)
  (s : State) : State :=
  {| adapter := adapter s; columns := columns s; indexes := f (indexes s);
     localesColumns := localesColumns s; localesIndexes := localesIndexes s;
     relationships := relationships s;
     relationsToBuild := relationsToBuild s;
     ownRoot := ownRoot s;
     uniqueRelationships := uniqueRelationships s |}.

Definition set_localesColumns (f : gmap string Column -> gmap string Column)
  (s : State) : State :=
  {| adapter := adapter s; columns := columns s; indexes := indexes s;
     localesColumns := f (localesColumns s);
     localesIndexes := localesIndexes s;
     relationships := relationships s;
     relationsToBuild := relationsToBuild s;
     ownRoot := ownRoot s;
     uniqueRelationships := uniqueRelationships s |}.

Definition set_localesIndexes
  (f : gmap string IndexSpec -> gmap string IndexSpec) (s : State) : State :=
  {| adapter := adapter s; columns := columns s; indexes := indexes s;
     localesColumns := localesColumns s;
     localesIndexes := f (localesIndexes s);
     relationships := relationships s;
     relationsToBuild := relationsToBuild s;
     ownRoot := ownRoot s;
     uniqueRelationships := uniqueRelationships s |}.

Definition set_relationships (f : gset string -> gset string) (s : State)
  : State :=
  {| adapter := adapter s; columns := columns s; indexes := indexes s;
     localesColumns := localesColumns s; localesIndexes := localesIndexes s;
     relationships := f (relationships s);
     relationsToBuild := relationsToBuild s;
     ownRoot := ownRoot s;
     uniqueRelationships := uniqueRelationships s |}.

Definition set_relationsToBuild (f : RelationMap -> RelationMap) (s : State)
  : State :=
  {| adapter := adapter s; columns := columns s; indexes := indexes s;
     localesColumns := localesColumns s; localesIndexes := localesIndexes s;
     relationships := relationships s;
     relationsToBuild := f (relationsToBuild s);
     ownRoot := ownRoot s;
     uniqueRelationships := uniqueRelationships s |}.

(** [rootRelationsToBuild.set(...)]: on the root-scoped Map, which is the
    Map of [relationsToBuild] when one Map plays both roles. *)
Definition set_rootRelationsToBuild (f : RelationMap -> RelationMap)
  (s : State) : State :=
  match ownRoot s with
  | Some root =>
      {| adapter := adapter s; columns := columns s; indexes := indexes s;
         localesColumns := localesColumns s;
         localesIndexes := localesIndexes s;
         relationships := relationships s;
         relationsToBuild := relationsToBuild s;
         ownRoot := Some (f root);
         uniqueRelationships := uniqueRelationships s |}
  | None => set_relationsToBuild f s
  end.

Definition set_uniqueRelationships (f : gset string -> gset string)
  (s : State) : State :=
  {| adapter := adapter s; columns := columns s; indexes := indexes s;
     localesColumns := localesColumns s; localesIndexes := localesIndexes s;
     relationships := relationships s;
     relationsToBuild := relationsToBuild s;
     ownRoot := ownRoot s;
     uniqueRelationships := f (uniqueRelationships s) |}.

(** [targetTable] and [targetIndexes] are references to the base objects or
    to the locale sibling's. *)
Inductive Target := base_table | locales_table.

Definition targetTable (t : Target) (s : State) : gmap string Column :=
  match t with base_table => columns s | locales_table => localesColumns s end.

Definition set_targetTable (t : Target)
  (f : gmap string Column -> gmap string Column) : State -> State :=
  match t with
  | base_table => set_columns f
  | locales_table => set_localesColumns f
  end.

Definition targetIndexes (t : Target) (s : State) : gmap string IndexSpec :=
  match t with base_table => indexes s | locales_table => localesIndexes s end.

Definition set_targetIndexes (t : Target)
  (f : gmap string IndexSpec -> gmap string IndexSpec) : State -> State :=
  match t with
  | base_table => set_indexes f
  | locales_table => set_localesIndexes f
  end.

(** ** Errors and outcomes *)

(** [InvalidConfiguration] is payload's error of that name: the walker
    throws it itself, and so does the block validator it calls.
    [TypeError] is thrown by the runtime on a call or property access on
    [undefined], and [Raised] is an error of another class, thrown by the
    naming service. *)
Inductive Error (E : Type) :=
| InvalidConfiguration (message : string)
| TypeError (message : string)
| Raised (e : E).
Arguments InvalidConfiguration {E} message.
Arguments TypeError {E} message.
Arguments Raised {E} e.

Inductive outcome (E A : Type) :=
| Ok (a : A)
| Throw (e : Error E)
| OutOfFuel.
Arguments Ok {E A} a.
Arguments Throw {E A} e.
Arguments OutOfFuel {E A}.

Definition bind {E A B} (m : outcome E A) (k : A -> outcome E B)
  : outcome E B :=
  match m with
  | Ok a => k a
  | Throw e => Throw e
  | OutOfFuel => OutOfFuel
  end.

Notation "x <- m ;; k" := (bind m (fun x => k))
  (at level 100, m at next level, right associativity,
   format "'[v' x  <-  m  ;;  '/' k ']'").
(** [list.forEach(callback)] with an accumulator for what the callback
    mutates. *)
Fixpoint forEach {E A S} (cb : A -> S -> outcome E S) (l : list A) (s : S)
  : outcome E S :=
  match l with
  | [] => Ok s
  | x :: l' => s' <- cb x s ;; forEach cb l' s'
  end.

(** A collaborator that may throw. *)
Definition lift {E A} (r : E + A) : outcome E A :=
  match r with inl e => Throw (Raised e) | inr a => Ok a end.

(** ** Strings *)

(** A template literal or a property key renders [undefined] as text. *)
Definition str (o : option string) : string := default "undefined" o.

(** [prefix || ''] *)
Definition orEmpty (o : option string) : string := default EmptyString o.

(** [s.replace('.', '_')]: a string pattern replaces the first match only. *)
Fixpoint replaceFirstDot (s : string) : string :=
  match s with
  | EmptyString => EmptyString
  | String c s' =>
      if Ascii.eqb c "."%char then String "_"%char s'
      else String c (replaceFirstDot s')
  end.

(** [name[0] === '_' ? '_' : ''] *)
Definition leadingUnderscore (name : string) : string :=
  match name with
  | String c _ => if Ascii.eqb c "_"%char then "_" else EmptyString
  | EmptyString => EmptyString
  end.

(** ** Collaborators

    The walker's imports whose modules are not among the sources.  They are
    taken as parameters: the naming service ([createTableName],
    [buildIndexName], [toSnakeCase]) as pure functions of the path they
    name, as its specification requires, and [createTableName], called with
    [throwValidationError], as one that may throw. *)

Inductive NameConfig :=
| config_field (f : Field)
| config_block (b : Block).

Inductive NameTarget := dbName | enumName.

Class Collaborators := {
  (** what the naming service throws *)
  E : Type;
  (** [process.env.NODE_ENV] *)
  NODE_ENV : option string;
  toSnakeCase : string -> string;
  fieldAffectsData : Field -> bool;
  fieldIsVirtual : Field -> bool;
  (** config, parentTableName, prefix, target, throwValidationError,
      versionsCustomName *)
  createTableName :
    NameConfig -> string -> string -> NameTarget -> bool -> bool -> E + string;
  buildIndexName : string -> string;
  withDefault : Column -> Field -> Column;
  idToUUID : list Field -> list Field;
  hasLocalesTable : list Field -> bool;
  (** block, localized, rootTableName, table, tableLocales; [Some message]
      when it throws, and what it throws is an [InvalidConfiguration], the
      class the specification gives a block reused with another structure *)
  validateExistingBlockIsIdentical :
    Block -> bool -> string -> Table -> option Table -> option string
}.

(** [optionIsObject(option) ? option.value : option] *)
Definition optionValue (option : OptionT) : string :=
  match option with OptionObject _ value => value | OptionValue v => v end.

(** ** Arguments of the walker *)

Record Args := {
  columnPrefix : option string;
  disableNotNull : bool;
  disableRelsTableUnique : bool;
  disableUnique : bool;
  fieldPrefix : option string;
  forceLocalized : bool;
  newTableName : string;
  parentTableName : string;
  rootTableIDColType : IDType;
  rootTableName : string;
  versions : bool;
  withinLocalizedArrayOrBlock : bool
}.

(** Arguments of [buildTable] that are not objects of the [State]. *)
Record BuildArgs := {
  baseColumns : gmap string Column;
  baseExtraConfig : gmap string ExtraConfig;
  bt_disableNotNull : bool;
  bt_disableRelsTableUnique : bool;
  bt_disableUnique : bool;
  bt_fields : list Field;
  bt_rootTableIDColType : option IDType;
  bt_rootTableName : string;
  tableName : string;
  bt_versions : bool;
  bt_withinLocalizedArrayOrBlock : bool
}.

(** ** Aggregate flags *)

Definition set_hasLocalizedField (b : bool) (r : Result) : Result :=
  {| hasLocalizedField := b;
     hasLocalizedManyNumberField := hasLocalizedManyNumberField r;
     hasLocalizedManyTextField := hasLocalizedManyTextField r;
     hasLocalizedRelationshipField := hasLocalizedRelationshipField r;
     hasManyNumberField := hasManyNumberField r;
     hasManyTextField := hasManyTextField r |}.

Definition set_hasLocalizedManyNumberField (b : bool) (r : Result) : Result :=
  {| hasLocalizedField := hasLocalizedField r;
     hasLocalizedManyNumberField := b;
     hasLocalizedManyTextField := hasLocalizedManyTextField r;
     hasLocalizedRelationshipField := hasLocalizedRelationshipField r;
     hasManyNumberField := hasManyNumberField r;
     hasManyTextField := hasManyTextField r |}.

Definition set_hasLocalizedManyTextField (b : bool) (r : Result) : Result :=
  {| hasLocalizedField := hasLocalizedField r;
     hasLocalizedManyNumberField := hasLocalizedManyNumberField r;
     hasLocalizedManyTextField := b;
     hasLocalizedRelationshipField := hasLocalizedRelationshipField r;
     hasManyNumberField := hasManyNumberField r;
     hasManyTextField := hasManyTextField r |}.

Definition set_hasLocalizedRelationshipField (b : bool) (r : Result)
  : Result :=
  {| hasLocalizedField := hasLocalizedField r;
     hasLocalizedManyNumberField := hasLocalizedManyNumberField r;
     hasLocalizedManyTextField := hasLocalizedManyTextField r;
     hasLocalizedRelationshipField := b;
     hasManyNumberField := hasManyNumberField r;
     hasManyTextField := hasManyTextField r |}.

Definition set_hasManyNumberField (t : Tri) (r : Result) : Result :=
  {| hasLocalizedField := hasLocalizedField r;
     hasLocalizedManyNumberField := hasLocalizedManyNumberField r;
     hasLocalizedManyTextField := hasLocalizedManyTextField r;
     hasLocalizedRelationshipField := hasLocalizedRelationshipField r;
     hasManyNumberField := t;
     hasManyTextField := hasManyTextField r |}.

Definition set_hasManyTextField (t : Tri) (r : Result) : Result :=
  {| hasLocalizedField := hasLocalizedField r;
     hasLocalizedManyNumberField := hasLocalizedManyNumberField r;
     hasLocalizedManyTextField := hasLocalizedManyTextField r;
     hasLocalizedRelationshipField := hasLocalizedRelationshipField r;
     hasManyNumberField := hasManyNumberField r;
     hasManyTextField := t |}.

Definition when {A} (c : bool) (f : A -> A) (x : A) : A :=
  if c then f x else x.

(** How the array and blocks cases fold the flags [buildTable] returns. *)
Definition mergeTri (sub cur : Tri) : Tri :=
  if truthy sub then
    if negb (truthy cur) || (if sub is indexed then true else false)
    then sub else cur
  else cur.

Definition mergeBuilt (sub r : Result) : Result :=
  let r := when (hasLocalizedManyNumberField sub)
             (set_hasLocalizedManyNumberField true) r in
  let r := when (hasLocalizedRelationshipField sub)
             (set_hasLocalizedRelationshipField true) r in
  let r := when (hasLocalizedManyTextField sub)
             (set_hasLocalizedManyTextField true) r in
  let r := set_hasManyTextField
             (mergeTri (hasManyTextField sub) (hasManyTextField r)) r in
  set_hasManyNumberField
    (mergeTri (hasManyNumberField sub) (hasManyNumberField r)) r.

(** How the row, collapsible, group, tab and tabs cases fold the flags of the
    recursive call: every flag set below becomes [true] here. *)
Definition mergeWalked (sub r : Result) : Result :=
  let r := when (hasLocalizedField sub) (set_hasLocalizedField true) r in
  let r := when (hasLocalizedRelationshipField sub)
             (set_hasLocalizedRelationshipField true) r in
  let r := when (truthy (hasManyTextField sub)) (set_hasManyTextField yes) r in
  let r := when (hasLocalizedManyTextField sub)
             (set_hasLocalizedManyTextField true) r in
  let r := when (truthy (hasManyNumberField sub))
             (set_hasManyNumberField yes) r in
  when (hasLocalizedManyNumberField sub)
    (set_hasLocalizedManyNumberField true) r.

(** ** The walker *)

Section Walker.

Context `{C : Collaborators}.

(** The recursive call, for open recursion. *)
Definition Walk : Type :=
  Args -> list Field -> State -> outcome E (Result * State).

(** [parentIDColType]: 'integer' unless [columns.id] is a uuid, numeric or
    varchar builder. *)
Definition parentIDColTypeOf (cols : gmap string Column) : IDType :=
  match col_type <$> cols !! "id" with
  | Some PgUUID => uuid_id
  | Some PgNumeric => numeric_id
  | Some PgVarchar => varchar_id
  | _ => integer_id
  end.

(** [relatedCollectionCustomID?.type]: the type of the [id] field a
    collection declares, if it declares one. *)
Definition customIDType (fs : list Field) : option FieldType :=
  f_type <$> (f_props <$>
    List.find (fun f : Field =>
      fieldAffectsData f &&
      (if f_name f is Some n then String.eqb n "id" else false)) fs).

(** lines 817-826: the id type of a collection with the given fields: the
    adapter's, unless the collection declares a custom [id] field of type
    number or text. *)
Definition idColTypeOf (ad : Adapter) (fs : list Field) : IDType :=
  let colType :=
    if String.eqb (idType ad) "uuid" then uuid_id else integer_id in
  let colType :=
    if customIDType fs is Some FT_number then numeric_id else colType in
  if customIDType fs is Some FT_text then varchar_id else colType.

Definition register (name : string) (t : Table) (ts : gmap string Table)
  : gmap string Table :=
  match ts !! name with
  | Some _ => ts
  | None => <[name := t]> ts
  end.

(** Modelled from the spec: the arguments of the pass [buildTable]
    (./build.js is not among the sources) runs over the fields of a table:
    no prefixes, the table's own name, and the switches it was given. *)
Definition passArgs (b : BuildArgs) (st : State) : Args :=
  {| columnPrefix := None;
     disableNotNull := bt_disableNotNull b;
     disableRelsTableUnique := bt_disableRelsTableUnique b;
     disableUnique := bt_disableUnique b;
     fieldPrefix := None;
     forceLocalized := false;
     newTableName := tableName b;
     parentTableName := tableName b;
     rootTableIDColType :=
       default (idColTypeOf (adapter st) (bt_fields b))
         (bt_rootTableIDColType b);
     rootTableName := bt_rootTableName b;
     versions := bt_versions b;
     withinLocalizedArrayOrBlock := bt_withinLocalizedArrayOrBlock b |}.

(** Modelled from the spec: the state that pass starts from: column, index
    and relation sets of its own, which start from [baseColumns] and the id
    column, and the adapter and the root-scoped registries of the caller.
    The relation registry of the new table is a Map of its own, so the
    root-scoped registry is another Map for this pass. *)
Definition passState (b : BuildArgs) (st : State) : State :=
  {| adapter := adapter st;
     columns :=
       <["id" :=
           notNull (parentIDColumnMap
                      (idColTypeOf (adapter st) (bt_fields b)) "id")]>
         (baseColumns b);
     indexes := ∅;
     localesColumns := ∅;
     localesIndexes := ∅;
     relationships := relationships st;
     relationsToBuild := ∅;
     ownRoot := Some (rootRelationsToBuild st);
     uniqueRelationships := uniqueRelationships st |}.

(** Modelled from the spec: the table built from what the pass over the
    fields left. *)
Definition builtTable (b : BuildArgs) (r : Result) (st' : State) : Table :=
  {| tbl_columns := columns st';
     tbl_extra := baseExtraConfig b;
     tbl_indexes := indexes st';
     tbl_flags := r;
     tbl_relationsToBuild := relationsToBuild st' |}.

(** Modelled from the spec: its locale sibling: the localized columns, a
    locale discriminator, and a foreign key back to the owning table with
    cascading delete, one row per parent and locale. *)
Definition builtLocales (b : BuildArgs) (st st' : State) : Table :=
  let idCol := idColTypeOf (adapter st) (bt_fields b) in
  let localesName := tableName b ++ localesSuffix (adapter st') in
  {| tbl_columns :=
       <["_parentID" := notNull (parentIDColumnMap idCol "_parent_id")]>
       (<["_locale" := notNull (column (PgEnum "enum__locales") "_locale")]>
       (<["id" := notNull (integer "id")]> (localesColumns st')));
     tbl_extra :=
       {[ "_localeParent" :=
            unique_index_on (localesName ++ "_locale_parent_id_unique")
              ["_locale"; "_parentID"];
          "_parentIdFk" :=
            foreignKey (localesName ++ "_parent_id_fk") ["_parentID"]
              (tableName b) cascade ]};
     tbl_indexes := localesIndexes st';
     tbl_flags := noFlags;
     tbl_relationsToBuild := ∅ |}.

(** Modelled from the spec: the registry after the table, and its locale
    sibling when a field of the pass was localized, are registered. *)
Definition registerBuilt (b : BuildArgs) (st : State) (r : Result)
  (st' : State) (ts : gmap string Table) : gmap string Table :=
  register (tableName b) (builtTable b r st')
    (when (hasLocalizedField r)
       (register (tableName b ++ localesSuffix (adapter st'))
          (builtLocales b st st')) ts).

(** Modelled from the spec: [buildTable] (./build.js is not among the
    sources), the Table Builder.  It is idempotent per name: when the name
    is already in the adapter's table registry it returns what building
    that table returned, without walking again.  Otherwise it walks the
    fields over fresh column, index and relation sets that start from
    [baseColumns] and the id column, registers the table, and registers its
    locale sibling when a field of the walk was localized.  The root-scoped
    registries are shared with the caller: what the pass wrote to them is
    in the caller's. *)
Definition buildTable (walk : Walk) (b : BuildArgs) (st : State)
  : outcome E (Result * RelationMap * State) :=
  match tables (adapter st) !! tableName b with
  | Some t => Ok (tbl_flags t, tbl_relationsToBuild t, st)
  | None =>
      rs <- walk (passArgs b st) (bt_fields b) (passState b st) ;;
      let '(r, st') := rs in
      Ok (r, relationsToBuild st',
          set_rootRelationsToBuild (fun _ => rootRelationsToBuild st')
            {| adapter := set_tables (registerBuilt b st r st') (adapter st');
               columns := columns st;
               indexes := indexes st;
               localesColumns := localesColumns st;
               localesIndexes := localesIndexes st;
               relationships := relationships st';
               relationsToBuild := relationsToBuild st;
               ownRoot := ownRoot st;
               uniqueRelationships := uniqueRelationships st' |})
  end.

(** The names and the target computed at the top of the callback. *)
Record Names := {
  columnName : option string;
  fieldName : option string;
  target : Target
}.

Definition isLocalizedHere (a : Args) (field : Field) (st : State) : bool :=
  (f_localized field && localization (adapter st))
  || withinLocalizedArrayOrBlock a || forceLocalized a.

(** The [_locale] column and index added to a child table's base columns. *)
Definition withLocale (localeKey localeCol idxKey idxName : string)
  (localized : bool) (st : State)
  (base : gmap string Column * gmap string ExtraConfig)
  : outcome E (gmap string Column * gmap string ExtraConfig) :=
  if localized then
    match enums (adapter st) !! "enum__locales" with
    | None => Throw (TypeError "adapter.enums.enum__locales is not a function")
    | Some _ =>
        Ok (<[localeKey := notNull (column (PgEnum "enum__locales") localeCol)]>
              (fst base),
            <[idxKey := index_on idxName [localeCol]]> (snd base))
    end
  else Ok base.

(** lines 147-157: a localized field goes to the locale sibling. *)
Definition routesToLocales (a : Args) (field : Field) (st : State) : bool :=
  localization (adapter st)
  && (f_localized field || forceLocalized a)
  && negb (bool_decide (f_type field = FT_array))
  && negb (bool_decide (f_type field = FT_blocks))
  && negb (hasManyTrue field).

(** The condition of lines 159-164. *)
Definition needsIndex (field : Field) : bool :=
  (f_unique field || f_index field
   || bool_decide (f_type field ∈ [FT_relationship; FT_upload]))
  && negb (bool_decide (f_type field ∈ [FT_array; FT_blocks; FT_group]))
  && negb (hasManyTrue field)
  && negb (relationToIsArray field).

(** lines 165-180 *)
Definition addIndex (a : Args) (field : Field) (name cn fn : string)
  (tgt : Target) (st : State) : State :=
  let unique := negb (disableUnique a) && f_unique field in
  let st :=
    when unique
      (set_adapter (set_fieldConstraints (fun fc =>
         let fc := if fc !! rootTableName a is None
                   then <[rootTableName a := ∅]> fc else fc in
         alter <[cn ++ "_idx" := orEmpty (fieldPrefix a) ++ name]>
           (rootTableName a) fc))) st in
  let indexName := buildIndexName (newTableName a ++ "_" ++ cn) in
  set_targetIndexes tgt
    <[indexName :=
        createIndex (if f_localized field then [fn; "_locale"] else [fn])
          indexName unique]> st.

(** lines 140-143 *)
Definition columnNameOf (a : Args) (name : string) : string :=
  orEmpty (columnPrefix a) ++ leadingUnderscore name ++ toSnakeCase name.

Definition fieldNameOf (a : Args) (name : string) : string :=
  orEmpty (replaceFirstDot <$> fieldPrefix a) ++ name.

Definition targetOf (a : Args) (field : Field) (st : State) : Target :=
  if routesToLocales a field st then locales_table else base_table.

Definition namesOf (a : Args) (field : Field) (name : string) (st : State)
  : Names :=
  {| columnName := Some (columnNameOf a name);
     fieldName := Some (fieldNameOf a name);
     target := targetOf a field st |}.

(** lines 133-182: names, routing and index of a data-affecting field. *)
Definition prepare (a : Args) (field : Field) (rs : Result * State)
  : outcome E (Names * (Result * State)) :=
  let '(r, st) := rs in
  if fieldAffectsData field then
    match f_name field with
    | None => Throw (TypeError "Cannot read properties of undefined")
    | Some name =>
        let n := namesOf a field name st in
        let r := when (routesToLocales a field st) (set_hasLocalizedField true) r in
        let st :=
          when (needsIndex field)
            (addIndex a field name (columnNameOf a name) (fieldNameOf a name)
               (target n)) st in
        Ok (n, (r, st))
    end
  else
    Ok ({| columnName := None; fieldName := None; target := base_table |},
        (r, st)).

(** [targetTable[fieldName] = column] *)
Definition setColumn (n : Names) (c : Column) : State -> State :=
  set_targetTable (target n) <[str (fieldName n) := c]>.

Definition disableNotNullFromHere (a : Args) (field : Field) : bool :=
  f_condition field || disableNotNull a.

(** The arguments a recursive call inside the same table receives.  The
    walker does not pass [disableRelsTableUnique] on. *)
Definition sameTable (b : bool) (a : Args) : Args :=
  {| columnPrefix := columnPrefix a; disableNotNull := b;
     disableRelsTableUnique := false;
     disableUnique := disableUnique a; fieldPrefix := fieldPrefix a;
     forceLocalized := forceLocalized a; newTableName := newTableName a;
     parentTableName := parentTableName a;
     rootTableIDColType := rootTableIDColType a;
     rootTableName := rootTableName a; versions := versions a;
     withinLocalizedArrayOrBlock := withinLocalizedArrayOrBlock a |}.

(** lines 610-632: the arguments of the recursion into a named group or
    tab. *)
Definition intoGroup (a : Args) (field : Field) (n : Names) : Args :=
  {| columnPrefix := Some (str (columnName n) ++ "_");
     disableNotNull := disableNotNullFromHere a field;
     disableRelsTableUnique := false;
     disableUnique := disableUnique a;
     fieldPrefix := Some (str (fieldName n) ++ ".");
     forceLocalized := f_localized field;
     newTableName := parentTableName a ++ "_" ++ str (columnName n);
     parentTableName := parentTableName a;
     rootTableIDColType := rootTableIDColType a;
     rootTableName := rootTableName a; versions := versions a;
     withinLocalizedArrayOrBlock :=
       withinLocalizedArrayOrBlock a || f_localized field |}.

(** A recursive call and the merge of its flags. *)
Definition recurse (walk : Walk) (a' : Args) (fs : list Field)
  (rs : Result * State) : outcome E (Result * State) :=
  let '(r, st) := rs in
  sub <- walk a' fs st ;;
  Ok (mergeWalked (fst sub) r, snd sub).

(** lines 197-211: the base columns and the base indexes of an array's
    table. *)
Definition arrayBase (a : Args) (pid : IDType) (arrayTableName : string)
  : gmap string Column * gmap string ExtraConfig :=
  ({[ "_order" := notNull (integer "_order");
      "_parentID" := notNull (parentIDColumnMap pid "_parent_id") ]},
   {[ "_orderIdx" := index_on (arrayTableName ++ "_order_idx") ["_order"];
      "_parentIDFk" :=
        foreignKey (arrayTableName ++ "_parent_id_fk") ["_parentID"]
          (parentTableName a) cascade;
      "_parentIDIdx" :=
        index_on (arrayTableName ++ "_parent_id_idx") ["_parentID"] ]}).

(** lines 231-247: what the array case hands to [buildTable]. *)
Definition arrayTable (a : Args) (field : Field) (arrayTableName : string)
  (base : gmap string Column * gmap string ExtraConfig) (isLocalized : bool)
  : BuildArgs :=
  {| baseColumns := fst base;
     baseExtraConfig := snd base;
     bt_disableNotNull := disableNotNullFromHere a field;
     bt_disableRelsTableUnique := true;
     bt_disableUnique := disableUnique a;
     bt_fields :=
       if disableUnique a then idToUUID (f_fields field)
       else f_fields field;
     bt_rootTableIDColType := Some (rootTableIDColType a);
     bt_rootTableName := rootTableName a;
     tableName := arrayTableName;
     bt_versions := versions a;
     bt_withinLocalizedArrayOrBlock := isLocalized |}.

(** [case 'array'], lines 185-317 *)
Definition arrayCase (walk : Walk) (a : Args) (pid : IDType) (field : Field)
  (n : Names) (rs : Result * State) : outcome E (Result * State) :=
  let '(r, st) := rs in
  arrayTableName <-
    lift (createTableName (config_field field) (newTableName a)
            (newTableName a ++ "_") dbName true (versions a)) ;;
  let isLocalized := isLocalizedHere a field st in
  base <-
    withLocale "_locale" "_locale" "_localeIdx"
      (arrayTableName ++ "_locale_idx") isLocalized st
      (arrayBase a pid arrayTableName) ;;
  built <-
    buildTable walk (arrayTable a field arrayTableName base isLocalized) st ;;
  let '(sub, subRelationsToBuild, st) := built in
  let r := mergeBuilt sub r in
  let st :=
    set_relationsToBuild
      <[fieldName n :=
          {| rel_type := many; rel_localized := false;
             rel_target := Some arrayTableName |}]> st in
  let st :=
    set_adapter (set_relations
      <["relations_" ++ arrayTableName :=
          {| rd_table := arrayTableName;
             rd_parent := ("_parentID", parentTableName a, str (fieldName n));
             rd_locales :=
               if hasLocalesTable (f_fields field)
               then Some (arrayTableName ++ localesSuffix (adapter st))
               else None;
             rd_sub := subRelationsToBuild |}]>) st in
  Ok (r, st).

(** lines 322-329: the name of a block's table, from the root table name
    and the block. *)
Definition blockTableNameOf (a : Args) (block : Block) : E + string :=
  createTableName (config_block block) (rootTableName a)
    (rootTableName a ++ "_blocks_") dbName true (versions a).

(** lines 456-461: the relation from the root table to a block's table. *)
Definition blockRelation (blockTableName : string) : RelationDescriptor :=
  {| rel_type := many; rel_localized := false;
     rel_target := Some blockTableName |}.

(** lines 331-348: the base columns and the base indexes of a block's
    table. *)
Definition blockBase (a : Args) (blockTableName : string)
  : gmap string Column * gmap string ExtraConfig :=
  ({[ "_order" := notNull (integer "_order");
      "_parentID" :=
        notNull (parentIDColumnMap (rootTableIDColType a) "_parent_id");
      "_path" := notNull (text "_path") ]},
   {[ "_orderIdx" := index_on (blockTableName ++ "_order_idx") ["_order"];
      "_parentIdFk" :=
        foreignKey (blockTableName ++ "_parent_id_fk") ["_parentID"]
          (rootTableName a) cascade;
      "_parentIDIdx" :=
        index_on (blockTableName ++ "_parent_id_idx") ["_parentID"];
      "_pathIdx" := index_on (blockTableName ++ "_path_idx") ["_path"] ]}).

(** lines 360-376: what the blocks case hands to [buildTable] for a
    block. *)
Definition blockTable (a : Args) (field : Field) (block : Block)
  (blockTableName : string)
  (base : gmap string Column * gmap string ExtraConfig) (isLocalized : bool)
  : BuildArgs :=
  {| baseColumns := fst base;
     baseExtraConfig := snd base;
     bt_disableNotNull := disableNotNullFromHere a field;
     bt_disableRelsTableUnique := true;
     bt_disableUnique := disableUnique a;
     bt_fields :=
       if disableUnique a then idToUUID (b_fields block)
       else b_fields block;
     bt_rootTableIDColType := Some (rootTableIDColType a);
     bt_rootTableName := rootTableName a;
     tableName := blockTableName;
     bt_versions := versions a;
     bt_withinLocalizedArrayOrBlock := isLocalized |}.

(** The callback of [field.blocks.forEach], lines 321-462. *)
Definition blockStep (walk : Walk) (a : Args) (field : Field) (block : Block)
  (rs : Result * State) : outcome E (Result * State) :=
  let '(r, st) := rs in
  blockTableName <- lift (blockTableNameOf a block) ;;
  rs <-
    match tables (adapter st) !! blockTableName with
    | None =>
        let isLocalized := isLocalizedHere a field st in
        base <-
          withLocale "_locale" "_locale" "_localeIdx"
            (blockTableName ++ "_locale_idx") isLocalized st
            (blockBase a blockTableName) ;;
        built <-
          buildTable walk
            (blockTable a field block blockTableName base isLocalized) st ;;
        let '(sub, subRelationsToBuild, st) := built in
        Ok (mergeBuilt sub r,
            set_adapter (set_relations
              <["relations_" ++ blockTableName :=
                  {| rd_table := blockTableName;
                     rd_parent :=
                       ("_parentID", rootTableName a,
                        "_blocks_" ++ b_slug block);
                     rd_locales :=
                       if hasLocalesTable (b_fields block)
                       then Some (blockTableName ++ localesSuffix (adapter st))
                       else None;
                     rd_sub := subRelationsToBuild |}]>) st)
    | Some table =>
        if negb (bool_decide (NODE_ENV = Some "production"))
           && negb (versions a)
        then
          match
            validateExistingBlockIsIdentical block (f_localized field)
              (rootTableName a) table
              (tables (adapter st)
                 !! (blockTableName ++ localesSuffix (adapter st)))
          with
          | Some message => Throw (InvalidConfiguration message)
          | None => Ok (r, st)
          end
        else Ok (r, st)
    end ;;
  let '(r, st) := rs in
  Ok (r,
      set_rootRelationsToBuild
        <[Some ("_blocks_" ++ b_slug block) := blockRelation blockTableName]>
        st).

(** [case 'blocks'] *)
Definition blocksCase (walk : Walk) (a : Args) (field : Field)
  (rs : Result * State) : outcome E (Result * State) :=
  forEach (blockStep walk a field) (f_blocks field) rs.

(** [case 'group'] and [case 'tab'], lines 546-653 *)
Definition groupCase (walk : Walk) (a : Args) (field : Field) (n : Names)
  (rs : Result * State) : outcome E (Result * State) :=
  match f_name field with
  | None => recurse walk (sameTable (disableNotNull a) a) (f_fields field) rs
  | Some _ => recurse walk (intoGroup a field n) (f_fields field) rs
  end.

(** The flags of a multi-valued number or text field, lines 664-677. *)
Definition manyFlags (a : Args) (field : Field) (st : State)
  (setLocalized : bool -> Result -> Result) (get : Result -> Tri)
  (set : Tri -> Result -> Result) (r : Result) : Result :=
  let r := when (isLocalizedHere a field st) (setLocalized true) r in
  if f_index field then set indexed r
  else if negb (truthy (get r)) then set yes r
  else r.

(** [case 'number'], lines 662-688 *)
Definition numberCase (a : Args) (field : Field) (n : Names)
  (rs : Result * State) : outcome E (Result * State) :=
  let '(r, st) := rs in
  if hasManyTruthy field then
    let r :=
      manyFlags a field st set_hasLocalizedManyNumberField hasManyNumberField
        set_hasManyNumberField r in
    if f_unique field then
      Throw (InvalidConfiguration
               "Unique is not supported in Postgres for hasMany number fields.")
    else Ok (r, st)
  else
    Ok (r, setColumn n (withDefault (numeric (str (columnName n))) field) st).

(** [case 'text'], lines 911-937 *)
Definition textCase (a : Args) (field : Field) (n : Names)
  (rs : Result * State) : outcome E (Result * State) :=
  let '(r, st) := rs in
  if hasManyTruthy field then
    let r :=
      manyFlags a field st set_hasLocalizedManyTextField hasManyTextField
        set_hasManyTextField r in
    if f_unique field then
      Throw (InvalidConfiguration
               "Unique is not supported in Postgres for hasMany text fields.")
    else Ok (r, st)
  else
    Ok (r, setColumn n (withDefault (varchar (str (columnName n))) field) st).

(** [case 'radio'] and [case 'select'], lines 697-794 *)
Definition selectCase (walk : Walk) (a : Args) (pid : IDType) (field : Field)
  (n : Names) (rs : Result * State) : outcome E (Result * State) :=
  let '(r, st) := rs in
  enum <-
    lift (createTableName (config_field field) (newTableName a)
            ("enum_" ++ newTableName a ++ "_") enumName true false) ;;
  let st :=
    set_adapter (set_enums
      <[enum := List.map optionValue (f_options field)]>) st in
  if bool_decide (f_type field = FT_select) && hasManyTruthy field then
    selectTableName <-
      lift (createTableName (config_field field) (newTableName a)
              (newTableName a ++ "_") dbName true (versions a)) ;;
    base <-
      withLocale "locale" "locale" "localeIdx"
        (selectTableName ++ "_locale_idx") (isLocalizedHere a field st) st
        ({[ "order" := notNull (integer "order");
            "parent" := notNull (parentIDColumnMap pid "parent_id");
            "value" := column (PgEnum enum) "value" ]},
         {[ "orderIdx" := index_on (selectTableName ++ "_order_idx") ["order"];
            "parentFk" :=
              foreignKey (selectTableName ++ "_parent_fk") ["parent"]
                (parentTableName a) cascade;
            "parentIdx" :=
              index_on (selectTableName ++ "_parent_idx") ["parent"] ]}) ;;
    let extra :=
      when (f_index field)
        <["value" := index_on (selectTableName ++ "_value_idx") ["value"]]>
        (snd base) in
    built <-
      buildTable walk
        {| baseColumns := fst base;
           baseExtraConfig := extra;
           bt_disableNotNull := disableNotNull a;
           bt_disableRelsTableUnique := false;
           bt_disableUnique := disableUnique a;
           bt_fields := [];
           bt_rootTableIDColType := None;
           bt_rootTableName := rootTableName a;
           tableName := selectTableName;
           bt_versions := versions a;
           bt_withinLocalizedArrayOrBlock := false |} st ;;
    let st := snd built in
    let st :=
      set_relationsToBuild
        <[fieldName n :=
            {| rel_type := many; rel_localized := false;
               rel_target := Some selectTableName |}]> st in
    Ok (r,
        set_adapter (set_relations
          <["relations_" ++ selectTableName :=
              {| rd_table := selectTableName;
                 rd_parent := ("parent", parentTableName a, str (fieldName n));
                 rd_locales := None;
                 rd_sub := ∅ |}]>) st)
  else
    Ok (r,
        setColumn n
          (withDefault (column (PgEnum enum) (str (columnName n))) field) st).

(** [relationships.add(relation)], and [uniqueRelationships.add(relation)]
    when the field is unique and nothing disables it. *)
Definition addRelationship (a : Args) (field : Field) (relation : string)
  (st : State) : State :=
  let st := set_relationships (union {[relation]}) st in
  when (f_unique field && negb (disableUnique a)
        && negb (disableRelsTableUnique a))
    (set_uniqueRelationships (union {[relation]})) st.

(** lines 848-853, reached by the two multi-valued branches only. *)
Definition relationshipTail (a : Args) (field : Field) (rs : Result * State)
  : Result * State :=
  let '(r, st) := rs in
  (when ((f_localized field && localization (adapter st))
         || withinLocalizedArrayOrBlock a)
     (set_hasLocalizedRelationshipField true) r, st).

(** [case 'relationship'] and [case 'upload'], lines 796-855.  The type of
    such a field makes [relationTo] mandatory. *)
Definition relationshipCase (a : Args) (field : Field) (n : Names)
  (rs : Result * State) : outcome E (Result * State) :=
  let '(r, st) := rs in
  match f_relationTo field with
  | None => Throw (TypeError "Cannot read properties of undefined")
  | Some (RelToMany slugs) =>
      Ok (relationshipTail a field
            (r, fold_left (fun st relation => addRelationship a field relation st)
                  slugs st))
  | Some (RelTo slug) =>
      if hasManyTruthy field then
        Ok (relationshipTail a field (r, addRelationship a field slug st))
      else
        match collections (adapter st) !! slug with
        | None => Throw (TypeError "Cannot read properties of undefined")
        | Some relationshipConfig =>
            let tableName := tableNameMap (adapter st) !! toSnakeCase slug in
            let colType := idColTypeOf (adapter st) relationshipConfig in
            let st :=
              setColumn n
                (references tableName set_null
                   (parentIDColumnMap colType (str (columnName n) ++ "_id")))
                st in
            let st :=
              set_relationsToBuild
                <[fieldName n :=
                    {| rel_type := one;
                       rel_localized :=
                         localization (adapter st)
                         && (f_localized field || forceLocalized a);
                       rel_target := tableName |}]> st in
            let st :=
              when (negb (disableNotNull a) && f_required field
                    && negb (f_condition field))
                (set_targetTable (target n) (alter notNull (str (fieldName n))))
                st in
            Ok (r, st)
        end
  end.

(** The [switch] over [field.type], lines 184-941. *)
Definition dispatch (walk : Walk) (a : Args) (pid : IDType) (field : Field)
  (n : Names) (rs : Result * State) : outcome E (Result * State) :=
  let col c := Ok (fst rs, setColumn n (withDefault c field) (snd rs)) in
  match f_type field with
  | FT_array => arrayCase walk a pid field n rs
  | FT_blocks => blocksCase walk a field rs
  | FT_checkbox => col (boolean (str (columnName n)))
  | FT_code | FT_email | FT_textarea => col (varchar (str (columnName n)))
  | FT_collapsible | FT_row =>
      recurse walk (sameTable (disableNotNullFromHere a field) a)
        (f_fields field) rs
  | FT_date => col (timestamp (str (columnName n)))
  | FT_group | FT_tab => groupCase walk a field n rs
  | FT_json | FT_richText => col (jsonb (str (columnName n)))
  | FT_number => numberCase a field n rs
  | FT_point =>
      Ok (fst rs,
          set_adapter (set_postgis true)
            (setColumn n
               (withDefault (geometryColumn (str (columnName n))) field)
               (snd rs)))
  | FT_radio | FT_select => selectCase walk a pid field n rs
  | FT_relationship | FT_upload => relationshipCase a field n rs
  | FT_tabs =>
      recurse walk (sameTable (disableNotNullFromHere a field) a)
        (List.map asTab (f_tabs field)) rs
  | FT_text => textCase a field n rs
  | FT_join | FT_ui => Ok rs
  end.

(** lines 943-953: a required column is made non-nullable. *)
Definition requireColumn (a : Args) (field : Field) (n : Names) (st : State)
  : State :=
  when (negb (disableNotNull a)
        && bool_decide (is_Some (targetTable (target n) st !! str (fieldName n)))
        && f_required field
        && negb (f_condition field))
    (set_targetTable (target n) (alter notNull (str (fieldName n)))) st.

Definition isNamedId (field : Field) : bool :=
  if f_name field is Some name then String.eqb name "id" else false.

(** The callback of [fields.forEach], lines 125-954. *)
Definition traverseField (walk : Walk) (a : Args) (pid : IDType)
  (field : Field) (rs : Result * State) : outcome E (Result * State) :=
  if isNamedId field then Ok rs
  else if fieldIsVirtual field then Ok rs
  else
    p <- prepare a field rs ;;
    rs <- dispatch walk a pid field (fst p) (snd p) ;;
    Ok (fst rs, requireColumn a field (fst p) (snd rs)).

(** [traverseFields].  The recursion is bounded by [fuel], which counts
    nested calls. *)
Fixpoint traverseFields (fuel : nat) (a : Args) (fields : list Field)
  (st : State) : outcome E (Result * State) :=
  match fuel with
  | 0 => OutOfFuel
  | S fuel' =>
      forEach
        (traverseField (traverseFields fuel') a
           (parentIDColTypeOf (columns st)))
        fields (noFlags, st)
  end.

End Walker.

(** ** A concrete set of collaborators

    Default behaviour of the absent helpers, used to run the walker on
    concrete field trees. *)

Module Reference.

Definition isUpper (c : ascii) : bool :=
  let n := nat_of_ascii c in (65 <=? n)%nat && (n <=? 90)%nat.

Definition lower (c : ascii) : ascii :=
  if isUpper c then ascii_of_nat (nat_of_ascii c + 32) else c.

(** Words are split at capitals, spaces and dashes and joined with [_]. *)
Fixpoint snake (s : string) : string :=
  match s with
  | EmptyString => EmptyString
  | String c s' =>
      if isUpper c then String "_"%char (String (lower c) (snake s'))
      else if Ascii.eqb c " "%char || Ascii.eqb c "-"%char
      then String "_"%char (snake s')
      else String c (snake s')
  end.

Definition configName (c : NameConfig) : string :=
  match c with
  | config_field f => str (f_name f)
  | config_block b => b_slug b
  end.

Definition tableNameFor (c : NameConfig) (parentTableName prefix : string)
  (target : NameTarget) (throwValidationError versionsCustomName : bool)
  : string + string :=
  let result := prefix ++ snake (configName c) in
  if throwValidationError && (63 <? String.length result)%nat
  then inl ("Exceeded max identifier length for table or enum name: " ++ result)
  else inr result.

Definition blockMatches (block : Block) (localized : bool)
  (rootTableName : string) (table : Table) (tableLocales : option Table)
  : option string :=
  if forallb (fun f : Field =>
       match f_name f with
       | Some n =>
           bool_decide (is_Some (tbl_columns table !! n))
           || bool_decide (is_Some (tableLocales ≫= (fun t => tbl_columns t !! n)))
       | None => true
       end) (b_fields block)
  then None
  else Some ("Block " ++ b_slug block ++ " does not match the table built for it").

Definition collaborators (env : option string) : Collaborators :=
  {| E := string;
     NODE_ENV := env;
     toSnakeCase := snake;
     fieldAffectsData := fun f =>
       bool_decide (is_Some (f_name f))
       && negb (bool_decide (f_type f = FT_ui));
     fieldIsVirtual := fun f => f_virtual f;
     createTableName := tableNameFor;
     buildIndexName := fun name => name ++ "_idx";
     withDefault := fun c f =>
       match f_defaultValue f with
       | Some v =>
           {| col_type := col_type c; col_name := col_name c;
              col_notNull := col_notNull c; col_default := Some v;
              col_references := col_references c |}
       | None => c
       end;
     idToUUID := fun fs => fs;
     hasLocalesTable := existsb (fun f : Field => f_localized f);
     validateExistingBlockIsIdentical := blockMatches |}.

Definition development : Collaborators := collaborators (Some "development").
Definition production : Collaborators := collaborators (Some "production").

(** A field with the given type and name and nothing else set. *)
Definition props (t : FieldType) (name : string) : FieldProps :=
  {| f_type := t; f_name := Some name; f_virtual := false;
     f_localized := false; f_unique := false; f_index := false;
     f_required := false; f_hasMany := None; f_relationTo := None;
     f_condition := false; f_defaultValue := None; f_options := [] |}.

Definition leaf (t : FieldType) (name : string) : Field :=
  MkField (props t name) [] [] [].

Definition emptyAdapter (loc : bool) : Adapter :=
  {| tables := ∅; enums := if loc then {[ "enum__locales" := ["en"; "de"] ]} else ∅;
     relations := ∅; fieldConstraints := ∅;
     postgis := false; idType := "serial"; localesSuffix := "_locales";
     localization := loc; collections := ∅; tableNameMap := ∅ |}.

Definition emptyState (ad : Adapter) : State :=
  {| adapter := ad; columns := {[ "id" := notNull (integer "id") ]};
     indexes := ∅; localesColumns := ∅; localesIndexes := ∅;
     relationships := ∅; relationsToBuild := ∅; ownRoot := None;
     uniqueRelationships := ∅ |}.

Definition rootArgs (name : string) : Args :=
  {| columnPrefix := None; disableNotNull := false;
     disableRelsTableUnique := false; disableUnique := false;
     fieldPrefix := None; forceLocalized := false; newTableName := name;
     parentTableName := name; rootTableIDColType := integer_id;
     rootTableName := name; versions := false;
     withinLocalizedArrayOrBlock := false |}.

End Reference.

(** ** Field trees and states used as concrete inputs *)

Module Examples.

Import Reference.

Definition with_versions (a : Args) : Args :=
  {| columnPrefix := columnPrefix a; disableNotNull := true;
     disableRelsTableUnique := disableRelsTableUnique a;
     disableUnique := true; fieldPrefix := fieldPrefix a;
     forceLocalized := forceLocalized a; newTableName := newTableName a;
     parentTableName := parentTableName a;
     rootTableIDColType := rootTableIDColType a;
     rootTableName := rootTableName a; versions := true;
     withinLocalizedArrayOrBlock := withinLocalizedArrayOrBlock a |}.

Definition with_hasMany (f : FieldProps) : FieldProps :=
  {| f_type := f_type f; f_name := f_name f; f_virtual := f_virtual f;
     f_localized := f_localized f; f_unique := f_unique f;
     f_index := f_index f; f_required := f_required f;
     f_hasMany := Some true; f_relationTo := f_relationTo f;
     f_condition := f_condition f; f_defaultValue := f_defaultValue f;
     f_options := f_options f |}.

Definition with_unique (f : FieldProps) : FieldProps :=
  {| f_type := f_type f; f_name := f_name f; f_virtual := f_virtual f;
     f_localized := f_localized f; f_unique := true;
     f_index := f_index f; f_required := f_required f;
     f_hasMany := f_hasMany f; f_relationTo := f_relationTo f;
     f_condition := f_condition f; f_defaultValue := f_defaultValue f;
     f_options := f_options f |}.

Definition with_virtual (f : FieldProps) : FieldProps :=
  {| f_type := f_type f; f_name := f_name f; f_virtual := true;
     f_localized := f_localized f; f_unique := f_unique f;
     f_index := f_index f; f_required := f_required f;
     f_hasMany := f_hasMany f; f_relationTo := f_relationTo f;
     f_condition := f_condition f; f_defaultValue := f_defaultValue f;
     f_options := f_options f |}.


Definition with_relationTo (slug : string) (f : FieldProps) : FieldProps :=
  {| f_type := f_type f; f_name := f_name f; f_virtual := f_virtual f;
     f_localized := f_localized f; f_unique := f_unique f;
     f_index := f_index f; f_required := f_required f;
     f_hasMany := f_hasMany f; f_relationTo := Some (RelTo slug);
     f_condition := f_condition f; f_defaultValue := f_defaultValue f;
     f_options := f_options f |}.

Definition only (p : FieldProps) : Field := MkField p [] [] [].

(** [{ name: 'title', type: 'text' }] *)
Definition title : Field := leaf FT_text "title".


(** [{ name: 'id', type: 'number', hasMany: true, unique: true }] *)
Definition customId : Field :=
  only (with_unique (with_hasMany (props FT_number "id"))).

(** [{ name: 'scores', type: 'number', hasMany: true, unique: true,
       virtual: true }] *)
Definition scores : Field :=
  only (with_virtual (with_unique (with_hasMany (props FT_number "scores")))).

(** A block shape [hero] with one text field, and a blocks field using it. *)
Definition hero : Block := MkBlock "hero" [title].
Definition layout : Field := MkField (props FT_blocks "layout") [] [hero] [].

(** A table registered under the name of the [hero] block of [pages], built
    from a different shape: it has a [heading] column and no [title]. *)
Definition otherHero : Table :=
  {| tbl_columns :=
       {[ "id" := notNull (integer "id");
          "_order" := notNull (integer "_order");
          "_parentID" := notNull (integer "_parent_id");
          "_path" := notNull (text "_path");
          "heading" := varchar "heading" ]};
     tbl_extra := ∅; tbl_indexes := ∅; tbl_flags := noFlags;
     tbl_relationsToBuild := ∅ |}.


Definition pages : Args := rootArgs "pages".
Definition fresh : State := emptyState (emptyAdapter false).
Definition freshLocalized : State := emptyState (emptyAdapter true).


(** [{ name: 'bio', type: 'group',
       fields: [{ name: 'age', type: 'number' }] }] *)
Definition age : Field := leaf FT_number "age".
Definition bio : Field := MkField (props FT_group "bio") [age] [] [].

(** A collection [authors] that declares a text [id], a relationship to it,
    and an array that contains the relationship. *)
Definition author : Field :=
  only (with_relationTo "authors" (props FT_relationship "author")).
Definition items : Field := MkField (props FT_array "items") [author] [] [].

Definition withAuthors : State :=
  emptyState
    {| tables := ∅; enums := ∅; relations := ∅; fieldConstraints := ∅;
       postgis := false; idType := "serial"; localesSuffix := "_locales";
       localization := false;
       collections := {[ "authors" := [leaf FT_text "id"; leaf FT_text "name"] ]};
       tableNameMap := {[ "authors" := "authors" ]} |}.

(** A block [section] whose fields hold a blocks field that uses [hero], and
    a blocks field that uses [section]. *)
Definition content : Field := MkField (props FT_blocks "content") [] [hero] [].
Definition section : Block := MkBlock "section" [content].
Definition sections : Field :=
  MkField (props FT_blocks "sections") [] [section] [].

(** The flags and state an outcome returned. *)
Definition returned {E} (o : outcome E (Result * State)) : Result * State :=
  match o with Ok rs => rs | _ => (noFlags, fresh) end.

Definition afterLayout : Result * State :=
  returned (blockStep (C := development) (traverseFields 1) pages layout hero
              (noFlags, fresh)).

Definition afterLayoutAgain : Result * State :=
  returned (blockStep (C := development) (traverseFields 1) pages layout hero
              afterLayout).

(** A pass over [sections] alone: [hero] is used below [section] only. *)
Definition afterNested : Result * State :=
  returned (traverseFields (C := development) 3 pages [sections] fresh).

(** What the blocks case hands to [buildTable] for [section] in [sections]
    from [fresh], and the arguments and the state of the pass over the
    fields of [section]. *)
Definition sectionTable : BuildArgs :=
  blockTable (C := development) pages sections section "pages_blocks_section"
    (blockBase pages "pages_blocks_section") false.
Definition inSection : Args := passArgs (C := development) sectionTable fresh.
Definition sectionStart : State :=
  passState (C := development) sectionTable fresh.

Definition afterContent : Result * State :=
  returned (blockStep (C := development) (traverseFields 1) inSection content
              hero (noFlags, sectionStart)).

(** A blocks field named [id] that uses [hero]. *)
Definition idBlocks : Field := MkField (props FT_blocks "id") [] [hero] [].

(** Another block with the slug [section], which holds no blocks field, and
    a blocks field that uses it. *)
Definition plainSection : Block := MkBlock "section" [title].
Definition teasers : Field :=
  MkField (props FT_blocks "teasers") [] [plainSection] [].

Definition afterTeasers : Result * State :=
  returned (traverseFields (C := production) 3 pages [teasers; sections]
              fresh).

(** A relationship to [authors] whose name is the key of the relation of
    [hero]. *)
Definition shadow : Field :=
  only (with_relationTo "authors" (props FT_relationship "_blocks_hero")).

Definition afterShadow : Result * State :=
  returned (traverseFields (C := development) 2 pages [layout; shadow]
              withAuthors).

(** The table [afterLayout] holds for [hero]. *)
Definition heroTable : Table :=
  default otherHero (tables (adapter (snd afterLayout)) !! "pages_blocks_hero").

(** An adapter with the id type [idType] and one collection [authors] with
    the fields [fs]. *)
Definition withCollection (idType : string) (fs : list Field) : State :=
  emptyState
    {| tables := ∅; enums := ∅; relations := ∅; fieldConstraints := ∅;
       postgis := false; idType := idType; localesSuffix := "_locales";
       localization := false;
       collections := {[ "authors" := fs ]};
       tableNameMap := {[ "authors" := "authors" ]} |}.

(** [authors] with a number [id] after another field, with an [id] of
    another type, and without an [id] field. *)
Definition numbered : list Field := [leaf FT_text "name"; leaf FT_number "id"].
Definition dated : list Field := [leaf FT_date "id"].
Definition anonymous : list Field := [leaf FT_text "name"].

Definition with_required (f : FieldProps) : FieldProps :=
  {| f_type := f_type f; f_name := f_name f; f_virtual := f_virtual f;
     f_localized := f_localized f; f_unique := f_unique f;
     f_index := f_index f; f_required := true;
     f_hasMany := f_hasMany f; f_relationTo := f_relationTo f;
     f_condition := f_condition f; f_defaultValue := f_defaultValue f;
     f_options := f_options f |}.

Definition with_index (f : FieldProps) : FieldProps :=
  {| f_type := f_type f; f_name := f_name f; f_virtual := f_virtual f;
     f_localized := f_localized f; f_unique := f_unique f;
     f_index := true; f_required := f_required f;
     f_hasMany := f_hasMany f; f_relationTo := f_relationTo f;
     f_condition := f_condition f; f_defaultValue := f_defaultValue f;
     f_options := f_options f |}.

Definition with_condition (f : FieldProps) : FieldProps :=
  {| f_type := f_type f; f_name := f_name f; f_virtual := f_virtual f;
     f_localized := f_localized f; f_unique := f_unique f;
     f_index := f_index f; f_required := f_required f;
     f_hasMany := f_hasMany f; f_relationTo := f_relationTo f;
     f_condition := true; f_defaultValue := f_defaultValue f;
     f_options := f_options f |}.

Definition with_options (options : list OptionT) (f : FieldProps)
  : FieldProps :=
  {| f_type := f_type f; f_name := f_name f; f_virtual := f_virtual f;
     f_localized := f_localized f; f_unique := f_unique f;
     f_index := f_index f; f_required := f_required f;
     f_hasMany := f_hasMany f; f_relationTo := f_relationTo f;
     f_condition := f_condition f; f_defaultValue := f_defaultValue f;
     f_options := options |}.

(** A field without a name: a row, a collapsible, or an unnamed group. *)
Definition unnamed (t : FieldType) : FieldProps :=
  {| f_type := t; f_name := None; f_virtual := false;
     f_localized := false; f_unique := false; f_index := false;
     f_required := false; f_hasMany := None; f_relationTo := None;
     f_condition := false; f_defaultValue := None; f_options := [] |}.

(** [{ name: 'title', type: 'text', required: true }] *)
Definition requiredTitle : Field := only (with_required (props FT_text "title")).

(** [{ name: 'email', type: 'email', unique: true }] *)
Definition uniqueEmail : Field := only (with_unique (props FT_email "email")).

(** [{ name: 'location', type: 'point' }] *)
Definition location : Field := leaf FT_point "location".

(** [{ name: 'labels', type: 'text', hasMany: true }], and the same with
    [index: true]. *)
Definition labels : Field := only (with_hasMany (props FT_text "labels")).
Definition indexedLabels : Field :=
  only (with_index (with_hasMany (props FT_text "labels"))).

(** [{ name: 'coAuthors', type: 'relationship', relationTo: 'authors',
       hasMany: true, unique: true }] *)
Definition coAuthors : Field :=
  only (with_unique (with_hasMany
          (with_relationTo "authors" (props FT_relationship "coAuthors")))).

(** [{ name: 'status', type: 'select',
       options: ['draft', { label: 'Published', value: 'published' }] }],
    and the same with [hasMany: true]. *)
Definition status : Field :=
  only (with_options [OptionValue "draft"; OptionObject "Published" "published"]
          (props FT_select "status")).
Definition statuses : Field :=
  only (with_hasMany
          (with_options
             [OptionValue "draft"; OptionObject "Published" "published"]
             (props FT_select "statuses"))).

(** An array whose name makes the table name longer than 63 characters. *)
Definition longArray : Field :=
  MkField
    (props FT_array
       "abcdefghijklmnopqrstuvwxyzabcdefghijklmnopqrstuvwxyzabcdefghijkl")
    [title] [] [].

(** A row and an unnamed group with a display condition around a required
    [title]; a row around [indexedLabels]; a row around [coAuthors]. *)
Definition guardedRow : Field :=
  MkField (with_condition (unnamed FT_row)) [requiredTitle; age] [] [].
Definition guardedGroup : Field :=
  MkField (with_condition (unnamed FT_group)) [requiredTitle; age] [] [].
Definition labelsRow : Field := MkField (unnamed FT_row) [indexedLabels] [] [].
Definition coAuthorsRow : Field := MkField (unnamed FT_row) [coAuthors] [] [].

(** The arguments of a pass inside a localized array or block, of a pass
    below a localized group, and of the pass over the fields of an array or
    block. *)
Definition withinLocalized : Args :=
  {| columnPrefix := None; disableNotNull := false;
     disableRelsTableUnique := false; disableUnique := false;
     fieldPrefix := None; forceLocalized := false; newTableName := "pages";
     parentTableName := "pages"; rootTableIDColType := integer_id;
     rootTableName := "pages"; versions := false;
     withinLocalizedArrayOrBlock := true |}.
Definition forced : Args :=
  {| columnPrefix := None; disableNotNull := false;
     disableRelsTableUnique := false; disableUnique := false;
     fieldPrefix := None; forceLocalized := true; newTableName := "pages";
     parentTableName := "pages"; rootTableIDColType := integer_id;
     rootTableName := "pages"; versions := false;
     withinLocalizedArrayOrBlock := false |}.
Definition noRelsUnique : Args :=
  {| columnPrefix := None; disableNotNull := false;
     disableRelsTableUnique := true; disableUnique := false;
     fieldPrefix := None; forceLocalized := false; newTableName := "pages";
     parentTableName := "pages"; rootTableIDColType := integer_id;
     rootTableName := "pages"; versions := false;
     withinLocalizedArrayOrBlock := false |}.

(** A state whose relationship sets hold [media], and one whose adapter has
    postgis switched on. *)
Definition withMedia : State :=
  set_uniqueRelationships (union {[ "media" ]})
    (set_relationships (union {[ "media" ]}) withAuthors).
Definition withPostgis : State :=
  set_adapter (set_postgis true) freshLocalized.

Definition afterCoAuthors : Result * State :=
  returned (traverseFields (C := development) 1 pages [coAuthors] withMedia).
Definition afterVersions : Result * State :=
  returned (traverseFields (C := development) 1 (with_versions pages)
              [uniqueEmail; coAuthors] withAuthors).
Definition afterPostgis : Result * State :=
  returned (traverseFields (C := development) 1 pages [title] withPostgis).
Definition afterLabels : Result * State :=
  returned (traverseFields (C := development) 1 pages [labels] fresh).
Definition afterLabelsTitle : Result * State :=
  returned (traverseFields (C := development) 1 pages [labels; title] fresh).
Definition afterLabelsRow : Result * State :=
  returned (traverseField (C := development) (traverseFields 1) pages
              integer_id labelsRow (noFlags, fresh)).
Definition afterItems : Result * State :=
  returned (traverseField (C := development) (traverseFields 1) pages
              integer_id items (noFlags, withAuthors)).
Definition afterCoAuthorsRow : Result * State :=
  returned (traverseField (C := development) (traverseFields 1) noRelsUnique
              integer_id coAuthorsRow (noFlags, withAuthors)).
Definition afterTitle : Result * State :=
  returned (traverseFields (C := development) 1 pages [title] fresh).
Definition afterAge : Result * State :=
  returned (traverseFields (C := development) 1 pages [age] (snd afterTitle)).
Definition afterStatuses : Result * State :=
  returned (traverseField (C := development) (traverseFields 1) pages
              integer_id statuses (noFlags, fresh)).

End Examples.

(** The nesting depth of a field: one more than the deepest field among its
    [fields], its tabs and the fields of its blocks. *)
Fixpoint depth (f : Field) : nat :=
  match f with
  | MkField _ fs bs ts =>
      S (Nat.max
           (Nat.max (list_max (List.map depth fs))
              (list_max
                 (List.map (fun b =>
                    match b with
                    | MkBlock _ bfs => list_max (List.map depth bfs)
                    end) bs)))
           (list_max (List.map depth ts)))
  end.

Definition depths (fs : list Field) : nat := list_max (List.map depth fs).

(** ** Field trees as the walker sees them *)

Section Tree.

Context `{C : Collaborators}.





(** The callback does not return early on the field. *)
Definition visited (field : Field) : bool :=
  negb (isNamedId field) && negb (fieldIsVirtual field).


(** A relationship or upload field with one target and one value. *)
Definition singleRelationship (field : Field) (slug : string) : Prop :=
  f_type field ∈ [FT_relationship; FT_upload]
  /\ f_relationTo field = Some (RelTo slug)
  /\ hasManyTrue field = false.


(** [grows st st']: every table registered in [st] is registered in [st']
    unchanged. *)
Definition grows (st st' : State) : Prop :=
  tables (adapter st) ⊆ tables (adapter st').

(** A recursive call under which the registry only grows. *)
Definition steady (walk : Walk) : Prop :=
  forall a fs st r st', walk a fs st = Ok (r, st') -> grows st st'.

(** The paths among the names the callback computes for a field; the state
    decides the target only. *)
Definition pathsOf (a : Args) (field : Field) : Names :=
  match f_name field with
  | Some name =>
      if fieldAffectsData field
      then {| columnName := Some (columnNameOf a name);
              fieldName := Some (fieldNameOf a name);
              target := base_table |}
      else {| columnName := None; fieldName := None; target := base_table |}
  | None => {| columnName := None; fieldName := None; target := base_table |}
  end.

(** The recursive call of a row, a collapsible, a tabs field, a group or a
    tab: its arguments and its fields.  It stays inside the table. *)
Definition inner (a : Args) (g : Field) (n : Names)
  : option (Args * list Field) :=
  match f_type g with
  | FT_collapsible | FT_row =>
      Some (sameTable (disableNotNullFromHere a g) a, f_fields g)
  | FT_tabs =>
      Some (sameTable (disableNotNullFromHere a g) a,
            List.map asTab (f_tabs g))
  | FT_group | FT_tab =>
      Some (match f_name g with
            | None => sameTable (disableNotNull a) a
            | Some _ => intoGroup a g n
            end, f_fields g)
  | _ => None
  end.

(** [flat a fs a' f]: the field [f] is in a list the walker goes through
    with the arguments [a'] inside the table of the pass over [fs] with the
    arguments [a], below rows, collapsibles, tabs, groups and tabs only. *)
Inductive flat : Args -> list Field -> Args -> Field -> Prop :=
| flat_here a fs f : In f fs -> flat a fs a f
| flat_inner a fs g a1 fs1 a' f :
    In g fs -> inner a g (pathsOf a g) = Some (a1, fs1) ->
    flat a1 fs1 a' f -> flat a fs a' f.

(** No field of the table has the key of a block relation as its field
    name. *)
Definition namesSafe (a : Args) (fs : list Field) : Prop :=
  forall a' f name slug,
    flat a fs a' f -> f_name f = Some name ->
    fieldNameOf a' name <> "_blocks_" ++ slug.

(** What a write to [relationsToBuild] can do to a block relation in
    [rootRelationsToBuild]: nothing when the two are two Maps, and nothing
    when no field name is the key of a block relation. *)
Definition rootSafe (a : Args) (fs : list Field) (st : State) : Prop :=
  is_Some (ownRoot st) \/ namesSafe a fs.

(** The root-scoped registry maps the key of the blocks with the slug
    [slug] to the relation to the table of a block with that slug. *)
Definition blockEntry (a : Args) (slug : string) (st : State) : Prop :=
  exists block name,
    b_slug block = slug /\ blockTableNameOf a block = inr name
    /\ rootRelationsToBuild st !! Some ("_blocks_" ++ slug)
       = Some (blockRelation name).

(** The key the callback writes in [relationsToBuild] is no block key, or
    the root-scoped registry is another Map. *)
Definition keySafe (n : Names) (st : State) : Prop :=
  is_Some (ownRoot st)
  \/ forall slug, fieldName n <> Some ("_blocks_" ++ slug).

(** A table is registered under the name of the block's table. *)
Definition tabled (a : Args) (block : Block) (st : State) : Prop :=
  exists name,
    blockTableNameOf a block = inr name
    /\ is_Some (tables (adapter st) !! name).

(** From [st] to [st'] the root-scoped registry stays a Map of its own if
    it was one, and keeps its block relations. *)
Definition keepsRoot (a : Args) (st st' : State) : Prop :=
  (is_Some (ownRoot st) -> is_Some (ownRoot st'))
  /\ forall slug, blockEntry a slug st -> blockEntry a slug st'.

(** A recursive call that keeps them. *)
Definition rooted (walk : Walk) : Prop :=
  forall a fs st r st',
    walk a fs st = Ok (r, st') -> rootSafe a fs st -> keepsRoot a st st'.

(** [opens walk a pid field n rs a1 fs1 st1]: on [field], after the names
    [n] were computed and from the flags and state [rs], the [switch] calls
    the walker on the fields [fs1] with the arguments [a1] in the state
    [st1]: for a row, a collapsible, a tabs field, a group or a tab inside
    the table; for an array, and for a block once the blocks before it went
    through, through [buildTable] when the table is not registered yet. *)
Inductive opens (walk : Walk) (a : Args) (pid : IDType) (field : Field)
  (n : Names) (rs : Result * State) : Args -> list Field -> State -> Prop :=
| opens_inner a1 fs1 :
    inner a field n = Some (a1, fs1) ->
    opens walk a pid field n rs a1 fs1 (snd rs)
| opens_array name base :
    f_type field = FT_array ->
    createTableName (config_field field) (newTableName a)
      (newTableName a ++ "_") dbName true (versions a) = inr name ->
    withLocale "_locale" "_locale" "_localeIdx" (name ++ "_locale_idx")
      (isLocalizedHere a field (snd rs)) (snd rs) (arrayBase a pid name)
    = Ok base ->
    tables (adapter (snd rs)) !! name = None ->
    let b :=
      arrayTable a field name base (isLocalizedHere a field (snd rs)) in
    opens walk a pid field n rs
      (passArgs b (snd rs)) (bt_fields b) (passState b (snd rs))
| opens_block bs1 block bs2 r1 st1 name base :
    f_type field = FT_blocks ->
    f_blocks field = (bs1 ++ block :: bs2)%list ->
    forEach (blockStep walk a field) bs1 rs = Ok (r1, st1) ->
    blockTableNameOf a block = inr name ->
    tables (adapter st1) !! name = None ->
    withLocale "_locale" "_locale" "_localeIdx" (name ++ "_locale_idx")
      (isLocalizedHere a field st1) st1 (blockBase a name)
    = Ok base ->
    let b :=
      blockTable a field block name base (isLocalizedHere a field st1) in
    opens walk a pid field n rs
      (passArgs b st1) (bt_fields b) (passState b st1).

(** [reaches k a fs st a' fs' st']: the pass [traverseFields k a fs st]
    comes to the pass over [fs'] with the arguments [a'] in the state
    [st']: it is that pass, or the callback on a field of [fs] that is not
    skipped, after the fields before it went through, opens a pass that
    comes to it. *)
Inductive reaches
  : nat -> Args -> list Field -> State -> Args -> list Field -> State -> Prop :=
| reaches_here k a fs st : reaches k a fs st a fs st
| reaches_below k a fs st pre field post r1 st1 n rs2 a1 fs1 st2 a' fs' st' :
    fs = (pre ++ field :: post)%list ->
    forEach
      (traverseField (traverseFields k) a (parentIDColTypeOf (columns st)))
      pre (noFlags, st) = Ok (r1, st1) ->
    visited field = true ->
    prepare a field (r1, st1) = Ok (n, rs2) ->
    opens (traverseFields k) a (parentIDColTypeOf (columns st)) field n rs2
      a1 fs1 st2 ->
    reaches k a1 fs1 st2 a' fs' st' ->
    reaches (S k) a fs st a' fs' st'.

(** The column constructor the [switch] uses for a scalar field that is not
    multi-valued. *)
Definition scalarColumn (t : FieldType) (columnName : string)
  : option Column :=
  match t with
  | FT_checkbox => Some (boolean columnName)
  | FT_code | FT_email | FT_textarea | FT_text => Some (varchar columnName)
  | FT_date => Some (timestamp columnName)
  | FT_json | FT_richText => Some (jsonb columnName)
  | FT_number => Some (numeric columnName)
  | FT_point => Some (geometryColumn columnName)
  | _ => None
  end.

(** A visited, named scalar field that is not multi-valued. *)
Definition plainColumn (c : Field) : bool :=
  visited c && fieldAffectsData c && bool_decide (is_Some (f_name c))
  && negb (hasManyTrue c)
  && bool_decide (is_Some (scalarColumn (f_type c) EmptyString)).

(** lines 945-951, for a column that exists. *)
Definition requiredHere (a : Args) (c : Field) : bool :=
  negb (disableNotNull a) && f_required c && negb (f_condition c).

(** [idToUUID] is needed only in a pass that disables unique; there it must
    not deepen the tree for the fuel to be bounded by the depth. *)
Definition boundedPass (a : Args) : Prop :=
  disableUnique a = false
  \/ forall fs, depths (idToUUID fs) <= depths fs.

(** A recursive call that has fuel for every tree of depth at most [d]. *)
Definition fuelled (d : nat) (walk : Walk) : Prop :=
  forall a fs st,
    boundedPass a -> depths fs <= d -> walk a fs st <> OutOfFuel.

(** [walk'] agrees with [walk] wherever [walk] had enough fuel. *)
Definition extends (walk walk' : Walk) : Prop :=
  forall a fs st, walk a fs st <> OutOfFuel -> walk' a fs st = walk a fs st.





(** A multi-valued text or number field. *)
Definition manyScalar (field : Field) : bool :=
  bool_decide (f_type field ∈ [FT_number; FT_text]) && hasManyTrue field.

(** The targets of a relationship or upload field that goes to the
    consolidated relationships table: the slugs of a polymorphic
    [relationTo], or the one slug of a multi-valued field. *)
Definition manyTargets (field : Field) : option (list string) :=
  match f_relationTo field with
  | Some (RelToMany slugs) => Some slugs
  | Some (RelTo slug) => if hasManyTrue field then Some [slug] else None
  | None => None
  end.

(** What a pass keeps of the registries it shares with its caller, in a pass
    whose [disableUnique] is [du]: the relationship sets and the enum names
    only grow, unique relationships stay among the relationships, the
    postgis switch is not turned off, and when unique is disabled no unique
    relationship, field constraint or unique index is added. *)
Definition kept (du : bool) (st st' : State) : Prop :=
  relationships st ⊆ relationships st'
  /\ uniqueRelationships st ⊆ uniqueRelationships st'
  /\ (uniqueRelationships st ⊆ relationships st ->
      uniqueRelationships st' ⊆ relationships st')
  /\ (postgis (adapter st) = true -> postgis (adapter st') = true)
  /\ dom (enums (adapter st)) ⊆ dom (enums (adapter st'))
  /\ (du = true ->
      uniqueRelationships st' = uniqueRelationships st
      /\ fieldConstraints (adapter st') = fieldConstraints (adapter st)
      /\ forall tgt k i,
           targetIndexes tgt st' !! k = Some i ->
           targetIndexes tgt st !! k = Some i \/ idx_unique i = false).

(** A recursive call that keeps them. *)
Definition keeps (walk : Walk) : Prop :=
  forall a fs st r st',
    walk a fs st = Ok (r, st') -> kept (disableUnique a) st st'.

(** Every flag set in [r] is set in [r']. *)
Definition atLeast (r r' : Result) : Prop :=
  (hasLocalizedField r = true -> hasLocalizedField r' = true)
  /\ (hasLocalizedManyNumberField r = true ->
      hasLocalizedManyNumberField r' = true)
  /\ (hasLocalizedManyTextField r = true ->
      hasLocalizedManyTextField r' = true)
  /\ (hasLocalizedRelationshipField r = true ->
      hasLocalizedRelationshipField r' = true)
  /\ (truthy (hasManyNumberField r) = true ->
      truthy (hasManyNumberField r') = true)
  /\ (truthy (hasManyTextField r) = true ->
      truthy (hasManyTextField r') = true).

(** Two outcomes that end in the same state, or throw the same error. *)
Definition sameState (o1 o2 : outcome E (Result * State)) : Prop :=
  match o1, o2 with
  | Ok rs1, Ok rs2 => snd rs1 = snd rs2
  | Throw e1, Throw e2 => e1 = e2
  | OutOfFuel, OutOfFuel => True
  | _, _ => False
  end.

End Tree.

(** * Properties *)

Section Properties.

Context `{C : Collaborators}.

Implicit Types (walk : Walk) (a : Args) (field g : Field) (st : State)
  (r : Result) (rs : Result * State) (pid : IDType) (du : bool)
  (block : Block) (fs sub : list Field) (m : string) (n : Names).

(** ** The loop *)

Lemma bind_Ok {A B} (m : outcome E A) (k : A -> outcome E B) (b : B) :
  bind m k = Ok b -> exists x, m = Ok x /\ k x = Ok b.
Proof. destruct m; simpl; intros; [eauto | done | done]. Qed.


Lemma forEach_app {A S} (cb : A -> S -> outcome E S) (l1 l2 : list A) (s : S) :
  forEach cb (l1 ++ l2) s = bind (forEach cb l1 s) (forEach cb l2).
Proof.
  revert s; induction l1 as [|x l1 IH]; intros s; simpl; [done|].
  destruct (cb x s); simpl; auto.
Qed.

Lemma forEach_skip {A S} (cb : A -> S -> outcome E S) l1 x l2 (s : S) :
  (forall s', cb x s' = Ok s') ->
  forEach cb (l1 ++ x :: l2) s = forEach cb (l1 ++ l2) s.
Proof.
  intros Hx. rewrite !forEach_app. destruct (forEach cb l1 s); simpl; auto.
  by rewrite Hx.
Qed.

(** A callback that throws after a prefix went through aborts the loop. *)
Lemma forEach_abort {A S} (cb : A -> S -> outcome E S) l1 x l2 (s s1 : S) e :
  forEach cb l1 s = Ok s1 -> cb x s1 = Throw e ->
  forEach cb (l1 ++ x :: l2) s = Throw e.
Proof. intros H1 Hx. rewrite forEach_app, H1. simpl. by rewrite Hx. Qed.


(** ** Skipped fields *)

Lemma skip_id walk a pid field rs :
  f_name field = Some "id" -> traverseField walk a pid field rs = Ok rs.
Proof. intros H. unfold traverseField, isNamedId. by rewrite H. Qed.

Lemma skip_virtual walk a pid field rs :
  fieldIsVirtual field = true -> traverseField walk a pid field rs = Ok rs.
Proof.
  intros H. unfold traverseField. rewrite H. by destruct (isNamedId field).
Qed.

(** C8. A field whose name is exactly [id] is skipped without an error: the
    callback returns the flags and every shared object as it received them,
    and a pass over a field list gives the same flags and the same state
    (columns, indexes, relation descriptors, registries) as the pass over
    the list without that field, so its siblings are processed as if it
    were not there. *)
Theorem id_field_is_skipped fuel walk a pid pre field rest st rs :
  f_name field = Some "id" ->
  traverseField walk a pid field rs = Ok rs /\
  traverseFields fuel a (pre ++ field :: rest) st
  = traverseFields fuel a (pre ++ rest) st.
Proof.
  intros H. split; [by apply skip_id|].
  destruct fuel as [|fuel]; [done|]. simpl.
  apply forEach_skip. intros s'. by apply skip_id.
Qed.

(** C9. A virtual field is skipped: the callback returns the flags and
    every shared object (adapter registries, column and index sets,
    relation registries) unchanged, and a pass over a field list equals the
    pass over the list without that field. *)
Theorem virtual_field_is_skipped fuel walk a pid pre field rest st rs :
  fieldIsVirtual field = true ->
  traverseField walk a pid field rs = Ok rs /\
  traverseFields fuel a (pre ++ field :: rest) st
  = traverseFields fuel a (pre ++ rest) st.
Proof.
  intros H. split; [by apply skip_virtual|].
  destruct fuel as [|fuel]; [done|]. simpl.
  apply forEach_skip. intros s'. by apply skip_virtual.
Qed.

(** ** Unique on a multi-valued number or text field *)
































(** ** Blocks *)


Lemma blockStep_existing walk a field block r st name table :
  blockTableNameOf a block = inr name ->
  tables (adapter st) !! name = Some table ->
  blockStep walk a field block (r, st)
  = if negb (bool_decide (NODE_ENV = Some "production")) && negb (versions a)
    then
      match
        validateExistingBlockIsIdentical block (f_localized field)
          (rootTableName a) table
          (tables (adapter st) !! (name ++ localesSuffix (adapter st)))
      with
      | Some message => Throw (InvalidConfiguration message)
      | None =>
          Ok (r, set_rootRelationsToBuild
                   <[Some ("_blocks_" ++ b_slug block) := blockRelation name]>
                   st)
      end
    else
      Ok (r, set_rootRelationsToBuild
               <[Some ("_blocks_" ++ b_slug block) := blockRelation name]> st).
Proof.
  intros Hname Ht. unfold blockStep. rewrite Hname. simpl. rewrite Ht.
  destruct (_ && _); [|done].
  by destruct (validateExistingBlockIsIdentical _ _ _ _ _).
Qed.


(** ** Columns of leaf fields *)

(** The callback on a visited data-affecting field. *)
Lemma traverseField_data walk a pid field r st name :
  visited field = true -> fieldAffectsData field = true ->
  f_name field = Some name ->
  traverseField walk a pid field (r, st)
  = (rs <- dispatch walk a pid field (namesOf a field name st)
             (when (routesToLocales a field st) (set_hasLocalizedField true) r,
              when (needsIndex field)
                (addIndex a field name (columnNameOf a name)
                   (fieldNameOf a name) (targetOf a field st)) st) ;;
     Ok (fst rs, requireColumn a field (namesOf a field name st) (snd rs))).
Proof.
  intros Hv Hd Hn. unfold traverseField.
  apply andb_prop in Hv as [Hid Hv].
  apply negb_true_iff in Hid, Hv. rewrite Hid, Hv.
  unfold prepare. by rewrite Hd, Hn.
Qed.

Lemma addIndex_columns a field name cn fn tgt st :
  columns (addIndex a field name cn fn tgt st) = columns st /\
  localesColumns (addIndex a field name cn fn tgt st) = localesColumns st.
Proof.
  unfold addIndex. destruct (negb (disableUnique a) && f_unique field);
    by destruct tgt.
Qed.

Lemma when_addIndex_columns (c : bool) a field name cn fn tgt st :
  columns (when c (addIndex a field name cn fn tgt) st) = columns st /\
  localesColumns (when c (addIndex a field name cn fn tgt) st)
  = localesColumns st.
Proof. destruct c; [apply addIndex_columns|done]. Qed.





Lemma relationshipCase_single a field cn fn tgt r st slug related :
  f_relationTo field = Some (RelTo slug) -> hasManyTrue field = false ->
  collections (adapter st) !! slug = Some related ->
  relationshipCase a field
    {| columnName := Some cn; fieldName := Some fn; target := tgt |} (r, st)
  = Ok (r,
        when (negb (disableNotNull a) && f_required field
              && negb (f_condition field))
          (set_targetTable tgt (alter notNull fn))
          (set_relationsToBuild
             <[Some fn :=
                 {| rel_type := one;
                    rel_localized :=
                      localization (adapter st)
                      && (f_localized field || forceLocalized a);
                    rel_target := tableNameMap (adapter st) !! toSnakeCase slug |}]>
             (set_targetTable tgt
                <[fn := references (tableNameMap (adapter st) !! toSnakeCase slug)
                          set_null
                          (parentIDColumnMap (idColTypeOf (adapter st) related)
                             (cn ++ "_id"))]> st))).
Proof.
  intros Hrel Hmany Hcol. unfold relationshipCase, hasManyTruthy.
  rewrite Hrel, Hmany, Hcol. unfold setColumn. simpl. by destruct tgt.
Qed.



(** ** Single relationships *)

Lemma addIndex_adapter a field name cn fn tgt st :
  let ad := adapter (addIndex a field name cn fn tgt st) in
  collections ad = collections (adapter st)
  /\ tableNameMap ad = tableNameMap (adapter st)
  /\ idType ad = idType (adapter st)
  /\ localization ad = localization (adapter st)
  /\ tables ad = tables (adapter st).
Proof.
  unfold addIndex. destruct (negb (disableUnique a) && f_unique field);
    by destruct tgt.
Qed.

Lemma addIndex_index a field name cn fn tgt st :
  targetIndexes tgt (addIndex a field name cn fn tgt st)
    !! buildIndexName (newTableName a ++ "_" ++ cn)
  = Some (createIndex (if f_localized field then [fn; "_locale"] else [fn])
            (buildIndexName (newTableName a ++ "_" ++ cn))
            (negb (disableUnique a) && f_unique field)).
Proof.
  unfold addIndex. destruct (negb (disableUnique a) && f_unique field);
    destruct tgt; simpl; by rewrite lookup_insert_eq.
Qed.

Lemma singleRelationship_needsIndex field slug :
  singleRelationship field slug -> needsIndex field = true.
Proof.
  intros (Ht & Hrel & Hm). unfold needsIndex, relationToIsArray.
  rewrite Hrel, Hm. rewrite (bool_decide_eq_true_2 _ Ht).
  rewrite orb_true_r. simpl. rewrite !andb_true_r.
  apply negb_true_iff, bool_decide_eq_false_2.
  intros Hin. apply list_elem_of_In in Ht, Hin. simpl in Ht, Hin.
  destruct Ht as [Ht|[Ht|[]]]; rewrite <- Ht in Hin;
    by destruct Hin as [|[|[|[]]]].
Qed.

Lemma dispatch_relationship walk a pid field n rs slug :
  singleRelationship field slug ->
  dispatch walk a pid field n rs = relationshipCase a field n rs.
Proof.
  intros (Ht & _). unfold dispatch.
  apply list_elem_of_In in Ht. by destruct Ht as [<-|[<-|[]]].
Qed.

(** What the callback does with a single relationship. *)
Lemma traverseField_relationship walk a pid field r st name slug related :
  visited field = true -> fieldAffectsData field = true ->
  f_name field = Some name ->
  singleRelationship field slug ->
  collections (adapter st) !! slug = Some related ->
  let cn := columnNameOf a name in
  let fn := fieldNameOf a name in
  let tgt := targetOf a field st in
  exists (c1 c2 : bool),
    traverseField walk a pid field (r, st)
    = Ok (when (routesToLocales a field st) (set_hasLocalizedField true) r,
          when c2 (set_targetTable tgt (alter notNull fn))
            (when c1 (set_targetTable tgt (alter notNull fn))
               (set_relationsToBuild
                  <[Some fn :=
                      {| rel_type := one;
                         rel_localized :=
                           localization (adapter st)
                           && (f_localized field || forceLocalized a);
                         rel_target :=
                           tableNameMap (adapter st) !! toSnakeCase slug |}]>
                  (set_targetTable tgt
                     <[fn :=
                         references
                           (tableNameMap (adapter st) !! toSnakeCase slug)
                           set_null
                           (parentIDColumnMap (idColTypeOf (adapter st) related)
                              (cn ++ "_id"))]>
                     (addIndex a field name cn fn tgt st))))).
Proof.
  intros Hv Hd Hn Hs Hc cn fn tgt.
  rewrite (traverseField_data _ _ _ _ _ _ name) by done.
  rewrite (singleRelationship_needsIndex field slug Hs).
  rewrite (dispatch_relationship _ _ _ _ _ _ slug Hs).
  destruct Hs as (Ht & Hrel & Hm).
  destruct (addIndex_adapter a field name cn fn tgt st)
    as (Hcol & Hmap & Hid & Hloc & _).
  unfold namesOf. fold cn fn tgt.
  change (when true ?f ?x) with (f x).
  erewrite relationshipCase_single; [|done|done|by rewrite Hcol].
  unfold bind, requireColumn, fst, snd, target, fieldName, str, default.
  rewrite Hmap, Hloc. unfold idColTypeOf. rewrite Hid.
  by eexists _, _.
Qed.

Lemma alter_notNull_lookup (c : bool) tgt fn st (col : Column) :
  targetTable tgt st !! fn = Some col ->
  exists col',
    targetTable tgt (when c (set_targetTable tgt (alter notNull fn)) st) !! fn
    = Some col'
    /\ col_type col' = col_type col /\ col_name col' = col_name col
    /\ col_references col' = col_references col.
Proof.
  intros H. destruct c; [|by exists col].
  exists (notNull col). split; [|done].
  destruct tgt; simpl in *; by rewrite lookup_alter_eq, H.
Qed.

Lemma alter_notNull_indexes (c : bool) tgt tgt' fn st :
  targetIndexes tgt' (when c (set_targetTable tgt (alter notNull fn)) st)
  = targetIndexes tgt' st.
Proof. destruct c; [|done]. by destruct tgt, tgt'. Qed.

Lemma idColTypeOf_type (ad : Adapter) (related : list Field) name :
  col_type (parentIDColumnMap (idColTypeOf ad related) name)
  = match customIDType related with
    | Some FT_text => PgVarchar
    | Some FT_number => PgNumeric
    | _ => if String.eqb (idType ad) "uuid" then PgUUID else PgInteger
    end.
Proof.
  unfold idColTypeOf.
  destruct (customIDType related) as [[]|]; simpl; try done;
    by destruct (String.eqb (idType ad) "uuid").
Qed.

Lemma single_relationship_column
  walk a pid field r st name slug related :
  visited field = true -> fieldAffectsData field = true ->
  f_name field = Some name ->
  singleRelationship field slug ->
  collections (adapter st) !! slug = Some related ->
  exists r' st' col,
    traverseField walk a pid field (r, st) = Ok (r', st')
    /\ targetTable (targetOf a field st) st' !! fieldNameOf a name = Some col
    /\ col_name col = columnNameOf a name ++ "_id"
    /\ col_references col
       = Some (tableNameMap (adapter st) !! toSnakeCase slug, set_null)
    /\ col_type col
       = match customIDType related with
         | Some FT_text => PgVarchar
         | Some FT_number => PgNumeric
         | _ => if String.eqb (idType (adapter st)) "uuid"
                then PgUUID else PgInteger
         end.
Proof.
  intros Hv Hd Hn Hs Hc.
  destruct (traverseField_relationship walk a pid field r st name slug related
              Hv Hd Hn Hs Hc) as (c1 & c2 & ->).
  set (col := references _ _ _).
  match goal with
  | |- context [when c1 _ ?s] =>
      assert (H0 : targetTable (targetOf a field st) s !! fieldNameOf a name
                   = Some col)
        by (destruct (targetOf a field st); simpl; by rewrite lookup_insert_eq);
      destruct (alter_notNull_lookup c1 _ _ _ _ H0) as (col1 & H1 & T1 & N1 & R1)
  end.
  destruct (alter_notNull_lookup c2 _ _ _ _ H1) as (col2 & H2 & T2 & N2 & R2).
  eexists _, _, col2. split; [done|]. split; [done|].
  rewrite N2, N1, R2, R1, T2, T1. subst col.
  split; [by destruct (idColTypeOf _ _)|]. split; [done|].
  unfold references. simpl. apply idColTypeOf_type.
Qed.

(** The first field that affects data and is named [id], when the list
    has one. *)
Lemma customIDType_found pre idField post :
  (forall f, In f pre -> ~ (fieldAffectsData f = true /\ f_name f = Some "id")) ->
  fieldAffectsData idField = true -> f_name idField = Some "id" ->
  customIDType (pre ++ idField :: post) = Some (f_type idField).
Proof.
  intros Hpre Hd Hn. unfold customIDType.
  induction pre as [|f pre IH]; simpl.
  - by rewrite Hd, Hn.
  - destruct (fieldAffectsData f) eqn:Hf; simpl.
    + destruct (f_name f) as [n|] eqn:Hfn.
      * destruct (String.eqb_spec n "id") as [->|Hne].
        -- exfalso. by apply (Hpre f); [left|].
        -- apply IH. intros g Hg. apply Hpre. by right.
      * apply IH. intros g Hg. apply Hpre. by right.
    + apply IH. intros g Hg. apply Hpre. by right.
Qed.

Lemma customIDType_none related :
  (forall f, In f related ->
             ~ (fieldAffectsData f = true /\ f_name f = Some "id")) ->
  customIDType related = None.
Proof.
  intros H. unfold customIDType. induction related as [|f fs IH]; [done|].
  simpl. destruct (fieldAffectsData f) eqn:Hf; simpl.
  - destruct (f_name f) as [n|] eqn:Hfn.
    + destruct (String.eqb_spec n "id") as [->|Hne].
      * exfalso. by apply (H f); [left|].
      * apply IH. intros g Hg. apply H. by right.
    + apply IH. intros g Hg. apply H. by right.
  - apply IH. intros g Hg. apply H. by right.
Qed.

(** C7.  For a visited single-target relationship or upload field that is
    not multi-valued and whose collection exists, the callback returns and
    the column it sets is named [<columnName>_id] and references the table
    registered for the related collection with on-delete set null.  Its
    type follows the related collection: when the first of its fields that
    affects data and is named [id] is a number field the column is numeric,
    when it is a text field the column is a varchar, and when it has
    another type, or the collection declares no such field, the column is
    a uuid for an adapter whose id type is [uuid] and an integer
    otherwise.  This holds for every [parentIDColType] and every
    [rootTableIDColType]: the id type of the parent table does not enter
    the type. *)
Theorem relationship_column_follows_related_id
  walk a pid field r st name slug related :
  visited field = true -> fieldAffectsData field = true ->
  f_name field = Some name ->
  singleRelationship field slug ->
  collections (adapter st) !! slug = Some related ->
  exists r' st' col,
    let adapterDefault :=
      if decide (idType (adapter st) = "uuid") then PgUUID else PgInteger in
    traverseField walk a pid field (r, st) = Ok (r', st')
    /\ targetTable (targetOf a field st) st' !! fieldNameOf a name = Some col
    /\ col_name col = columnNameOf a name ++ "_id"
    /\ col_references col
       = Some (tableNameMap (adapter st) !! toSnakeCase slug, set_null)
    /\ (forall pre idField post,
          related = (pre ++ idField :: post)%list ->
          (forall f, In f pre ->
                     ~ (fieldAffectsData f = true /\ f_name f = Some "id")) ->
          fieldAffectsData idField = true -> f_name idField = Some "id" ->
          col_type col
          = match f_type idField with
            | FT_number => PgNumeric
            | FT_text => PgVarchar
            | _ => adapterDefault
            end)
    /\ ((forall f, In f related ->
                   ~ (fieldAffectsData f = true /\ f_name f = Some "id")) ->
        col_type col = adapterDefault).
Proof.
  intros Hv Hd Hn Hs Hc.
  destruct (single_relationship_column walk a pid field r st name slug related
              Hv Hd Hn Hs Hc) as (r' & st' & col & Hrun & Hcol & Hname & Href & Ht).
  exists r', st', col. cbn zeta.
  split; [done|]. split; [done|]. split; [done|]. split; [done|].
  assert (Hdef : (if String.eqb (idType (adapter st)) "uuid"
                  then PgUUID else PgInteger)
                 = (if decide (idType (adapter st) = "uuid")
                    then PgUUID else PgInteger)).
  { destruct (String.eqb_spec (idType (adapter st)) "uuid");
      by destruct (decide _). }
  rewrite Hdef in Ht. split.
  - intros pre idField post -> Hpre Hid Hidn.
    rewrite (customIDType_found pre idField post Hpre Hid Hidn) in Ht.
    rewrite Ht. by destruct (f_type idField).
  - intros Hno. by rewrite (customIDType_none related Hno) in Ht.
Qed.

(** C10.  For a visited single-target relationship or upload field that is
    not multi-valued and whose collection exists, whether or not it asks
    for unique or index, the callback sets an index under the built index
    name in the index set of the table that receives the column, and the
    index is unique exactly when the field asks for unique and
    [disableUnique] is off. *)
Theorem relationship_column_is_indexed
  walk a pid field r st name slug related :
  visited field = true -> fieldAffectsData field = true ->
  f_name field = Some name ->
  singleRelationship field slug ->
  collections (adapter st) !! slug = Some related ->
  let indexName :=
    buildIndexName (newTableName a ++ "_" ++ columnNameOf a name) in
  exists r' st',
    traverseField walk a pid field (r, st) = Ok (r', st')
    /\ is_Some (targetTable (targetOf a field st) st' !! fieldNameOf a name)
    /\ targetIndexes (targetOf a field st) st' !! indexName
       = Some {| idx_on :=
                   if f_localized field
                   then [fieldNameOf a name; "_locale"]
                   else [fieldNameOf a name];
                 idx_name := indexName;
                 idx_unique := f_unique field && negb (disableUnique a) |}.
Proof.
  intros Hv Hd Hn Hs Hc indexName.
  destruct (single_relationship_column walk a pid field r st name
              slug related Hv Hd Hn Hs Hc) as (r' & st' & col & Hrun & Hcol & _).
  exists r', st'. split; [done|]. split; [by exists col|].
  destruct (traverseField_relationship walk a pid field r st name slug related
              Hv Hd Hn Hs Hc) as (c1 & c2 & Hrun').
  rewrite Hrun' in Hrun. injection Hrun as _ <-.
  rewrite !alter_notNull_indexes.
  replace (f_unique field && negb (disableUnique a))
    with (negb (disableUnique a) && f_unique field) by apply andb_comm.
  etrans; [|apply (addIndex_index a field name (columnNameOf a name)
                     (fieldNameOf a name) (targetOf a field st) st)].
  by destruct (targetOf a field st).
Qed.
(** ** The registries only grow *)

Lemma append_inj_r (p x y : string) : p ++ x = p ++ y -> x = y.
Proof. induction p as [|c p IH]; simpl; [done|]. intros [= H]. auto. Qed.

Lemma length_app (x y : string) :
  String.length (x ++ y) = String.length x + String.length y.
Proof. induction x as [|c x IH]; simpl; [done|]. by rewrite IH. Qed.

Lemma grows_refl st : grows st st.
Proof. unfold grows. done. Qed.

Lemma grows_trans st1 st2 st3 : grows st1 st2 -> grows st2 st3 -> grows st1 st3.
Proof. unfold grows. intros. by etrans. Qed.

Lemma grows_eq st st' :
  tables (adapter st') = tables (adapter st) -> grows st st'.
Proof. unfold grows. by intros ->. Qed.

Lemma grows_eq_l st0 st st' :
  tables (adapter st0) = tables (adapter st) -> grows st0 st' -> grows st st'.
Proof. unfold grows. by intros <-. Qed.

Lemma grows_eq_r st st1 st' :
  tables (adapter st') = tables (adapter st1) -> grows st st1 -> grows st st'.
Proof. unfold grows. by intros ->. Qed.

Lemma register_subseteq name t (ts : gmap string Table) :
  ts ⊆ register name t ts.
Proof.
  unfold register. destruct (ts !! name) eqn:H; [done|].
  by apply insert_subseteq.
Qed.

Lemma register_is_Some name t (ts : gmap string Table) :
  is_Some (register name t ts !! name).
Proof.
  unfold register. destruct (ts !! name) eqn:H; [by rewrite H|].
  by rewrite lookup_insert_eq.
Qed.

Lemma registerBuilt_subseteq (b : BuildArgs) st r st' (ts : gmap string Table) :
  ts ⊆ registerBuilt b st r st' ts.
Proof.
  unfold registerBuilt. etrans; [|apply register_subseteq].
  destruct (hasLocalizedField r); [apply register_subseteq|done].
Qed.

(** *** One Map or two *)

Lemma root_set_root (f : RelationMap -> RelationMap) st :
  rootRelationsToBuild (set_rootRelationsToBuild f st)
  = f (rootRelationsToBuild st).
Proof.
  unfold rootRelationsToBuild, set_rootRelationsToBuild.
  destruct (ownRoot st) eqn:H; simpl; by rewrite ?H.
Qed.

Lemma ownRoot_set_root (f : RelationMap -> RelationMap) st :
  is_Some (ownRoot (set_rootRelationsToBuild f st)) <-> is_Some (ownRoot st).
Proof.
  unfold set_rootRelationsToBuild.
  destruct (ownRoot st) eqn:H; simpl; rewrite ?H; split; by eauto.
Qed.

Lemma set_root_frame (f : RelationMap -> RelationMap) st :
  let st' := set_rootRelationsToBuild f st in
  adapter st' = adapter st /\ columns st' = columns st
  /\ indexes st' = indexes st /\ localesColumns st' = localesColumns st
  /\ localesIndexes st' = localesIndexes st
  /\ relationships st' = relationships st
  /\ uniqueRelationships st' = uniqueRelationships st
  /\ (is_Some (ownRoot st) -> relationsToBuild st' = relationsToBuild st).
Proof.
  unfold set_rootRelationsToBuild.
  destruct (ownRoot st) eqn:H; simpl; repeat split; try done;
    by intros [? ?].
Qed.

(** A write to [relationsToBuild] is seen in [rootRelationsToBuild] when the
    two are one Map, at the key written. *)
Lemma local_write_root st (k k' : option string) rd :
  is_Some (ownRoot st) \/ k' <> k ->
  rootRelationsToBuild (set_relationsToBuild <[k := rd]> st) !! k'
  = rootRelationsToBuild st !! k'.
Proof.
  unfold rootRelationsToBuild. simpl.
  destruct (ownRoot st); [done|]. intros [[? ?]|Hk]; [done|].
  by rewrite lookup_insert_ne.
Qed.

Lemma blockEntry_args a a' slug st :
  rootTableName a' = rootTableName a -> versions a' = versions a ->
  blockEntry a slug st -> blockEntry a' slug st.
Proof.
  intros Hr Hv (block & name & Hs & Hn & Hk). exists block, name.
  split; [done|]. split; [|done]. unfold blockTableNameOf in *.
  by rewrite Hr, Hv.
Qed.

Lemma blockEntry_root a slug st st' :
  rootRelationsToBuild st' !! Some ("_blocks_" ++ slug)
  = rootRelationsToBuild st !! Some ("_blocks_" ++ slug) ->
  blockEntry a slug st -> blockEntry a slug st'.
Proof.
  intros H (block & name & Hs & Hn & Hk). exists block, name.
  by rewrite H.
Qed.

Lemma keepsRoot_refl a st : keepsRoot a st st.
Proof. by split. Qed.

Lemma keepsRoot_trans a st1 st2 st3 :
  keepsRoot a st1 st2 -> keepsRoot a st2 st3 -> keepsRoot a st1 st3.
Proof. intros [O1 E1] [O2 E2]. split; auto. Qed.

(** A step that touches neither relation registry. *)
Lemma keepsRoot_frame a st st' :
  ownRoot st' = ownRoot st -> relationsToBuild st' = relationsToBuild st ->
  keepsRoot a st st'.
Proof.
  intros Ho Hr. split; [by rewrite Ho|]. intros slug.
  apply blockEntry_root. unfold rootRelationsToBuild. by rewrite Ho, Hr.
Qed.

Lemma keepsRoot_eq_l a st0 st st' :
  ownRoot st0 = ownRoot st -> relationsToBuild st0 = relationsToBuild st ->
  keepsRoot a st0 st' -> keepsRoot a st st'.
Proof.
  intros Ho Hr H. eapply keepsRoot_trans; [|exact H].
  by apply keepsRoot_frame.
Qed.

Lemma keepsRoot_eq_r a st st1 st' :
  ownRoot st' = ownRoot st1 -> relationsToBuild st' = relationsToBuild st1 ->
  keepsRoot a st st1 -> keepsRoot a st st'.
Proof.
  intros Ho Hr H. eapply keepsRoot_trans; [exact H|].
  by apply keepsRoot_frame.
Qed.

(** A write to [relationsToBuild] under a key that is no block key, or when
    the root-scoped registry is another Map. *)
Lemma local_write_keepsRoot a st (k : option string) rd :
  is_Some (ownRoot st) \/ (forall slug, k <> Some ("_blocks_" ++ slug)) ->
  keepsRoot a st (set_relationsToBuild <[k := rd]> st).
Proof.
  intros Hk. split; [done|]. intros slug. apply blockEntry_root.
  apply local_write_root. destruct Hk as [?|Hk]; [by left|right].
  intros Heq. by apply (Hk slug).
Qed.

(** [rootRelationsToBuild.set] for a block. *)
Lemma block_write_entry a block name st :
  blockTableNameOf a block = inr name ->
  let st' :=
    set_rootRelationsToBuild
      <[Some ("_blocks_" ++ b_slug block) := blockRelation name]> st in
  keepsRoot a st st'
  /\ rootRelationsToBuild st' !! Some ("_blocks_" ++ b_slug block)
     = Some (blockRelation name).
Proof.
  intros Hname st'. subst st'. split; [split|].
  - intros ?. by apply ownRoot_set_root.
  - intros slug (block' & name' & Hs & Hn & Hk).
    destruct (decide (slug = b_slug block)) as [->|Hne].
    + exists block, name. split; [done|]. split; [done|].
      rewrite root_set_root. apply lookup_insert_eq.
    + exists block', name'. split; [done|]. split; [done|].
      rewrite root_set_root, lookup_insert_ne; [done|].
      intros [= Heq]. by apply append_inj_r in Heq.
  - rewrite root_set_root. apply lookup_insert_eq.
Qed.

(** *** The table builder *)

Lemma buildTable_absent walk (b : BuildArgs) st flags rel st' :
  tables (adapter st) !! tableName b = None ->
  buildTable walk b st = Ok (flags, rel, st') ->
  exists st1,
    walk (passArgs b st) (bt_fields b) (passState b st) = Ok (flags, st1)
    /\ rel = relationsToBuild st1
    /\ adapter st' = set_tables (registerBuilt b st flags st1) (adapter st1)
    /\ rootRelationsToBuild st' = rootRelationsToBuild st1
    /\ (is_Some (ownRoot st) -> is_Some (ownRoot st'))
    /\ (is_Some (ownRoot st) -> relationsToBuild st' = relationsToBuild st)
    /\ columns st' = columns st /\ indexes st' = indexes st
    /\ localesColumns st' = localesColumns st
    /\ localesIndexes st' = localesIndexes st.
Proof.
  intros Ht. unfold buildTable. rewrite Ht.
  intros H. apply bind_Ok in H as ([r1 st1] & Hwalk & H).
  injection H as <- <- <-. exists st1. split; [done|]. split; [done|].
  match goal with
  | |- context [set_rootRelationsToBuild ?f ?s] =>
      destruct (set_root_frame f s) as (Ha & Hc & Hi & Hlc & Hli & _ & _ & Hl);
      pose proof (root_set_root f s) as Hroot;
      pose proof (ownRoot_set_root f s) as Hown
  end.
  simpl in *. rewrite Ha, Hc, Hi, Hlc, Hli, Hroot.
  split; [done|]. split; [done|]. split; [by intros ?; apply Hown|].
  split; [done|]. done.
Qed.

Lemma buildTable_Ok walk (b : BuildArgs) st flags rel st' :
  steady walk ->
  buildTable walk b st = Ok (flags, rel, st') ->
  grows st st'
  /\ is_Some (tables (adapter st') !! tableName b)
  /\ columns st' = columns st /\ indexes st' = indexes st
  /\ localesColumns st' = localesColumns st
  /\ localesIndexes st' = localesIndexes st
  /\ (is_Some (ownRoot st) -> relationsToBuild st' = relationsToBuild st).
Proof.
  intros Hw H.
  destruct (tables (adapter st) !! tableName b) as [t|] eqn:Ht.
  - unfold buildTable in H. rewrite Ht in H. injection H as <- <- <-.
    rewrite Ht. split; [apply grows_refl|]. by eauto 10.
  - apply buildTable_absent in H
      as (st1 & Hwalk & _ & Ha & _ & _ & Hl & Hc & Hi & Hlc & Hli); [|done].
    apply Hw in Hwalk. unfold grows in *. rewrite Ha. simpl in *.
    split; [etrans; [exact Hwalk|apply registerBuilt_subseteq]|].
    split; [apply register_is_Some|]. done.
Qed.

Lemma buildTable_keepsRoot walk a (b : BuildArgs) st flags rel st' :
  rooted walk ->
  bt_rootTableName b = rootTableName a -> bt_versions b = versions a ->
  buildTable walk b st = Ok (flags, rel, st') ->
  keepsRoot a st st'
  /\ forall st1,
       walk (passArgs b st) (bt_fields b) (passState b st) = Ok (flags, st1) ->
       tables (adapter st) !! tableName b = None ->
       forall slug, blockEntry a slug st1 -> blockEntry a slug st'.
Proof.
  intros Hw Hr Hv H.
  destruct (tables (adapter st) !! tableName b) as [t|] eqn:Ht.
  - unfold buildTable in H. rewrite Ht in H. injection H as <- <- <-.
    split; [apply keepsRoot_refl|]. by intros.
  - apply buildTable_absent in H
      as (st1 & Hwalk & _ & _ & Hroot & Hown & _); [|done].
    assert (Hback : forall slug, blockEntry a slug st1 -> blockEntry a slug st').
    { intros slug. apply blockEntry_root. by rewrite Hroot. }
    split.
    + split; [done|]. intros slug He. apply Hback.
      apply (blockEntry_args (passArgs b st)); [by simpl|by simpl|].
      assert (Hsafe : rootSafe (passArgs b st) (bt_fields b) (passState b st))
        by (left; by eexists).
      destruct (Hw _ _ _ _ _ Hwalk Hsafe) as [_ Hkeep]. apply Hkeep.
      apply (blockEntry_args a); [by simpl|by simpl|].
      revert He. by apply blockEntry_root.
    + intros st2 Hwalk2 _. rewrite Hwalk in Hwalk2.
      by injection Hwalk2 as <-.
Qed.

(** *** The callback keeps the tables *)

Lemma forEach_grows {A} (cb : A -> Result * State -> outcome E (Result * State))
  (l : list A) r st r' st' :
  (forall x r1 st1 r2 st2,
     In x l -> cb x (r1, st1) = Ok (r2, st2) -> grows st1 st2) ->
  forEach cb l (r, st) = Ok (r', st') -> grows st st'.
Proof.
  revert r st. induction l as [|x l IH]; intros r st Hcb; simpl.
  - intros [= <- <-]. apply grows_refl.
  - intros H. apply bind_Ok in H as ([r1 st1] & Hx & H).
    eapply grows_trans.
    + eapply Hcb; [by left|done].
    + eapply IH; [|done]. intros. eapply Hcb; [by right|done].
Qed.

Lemma set_targetTable_grows tgt f st : grows st (set_targetTable tgt f st).
Proof. apply grows_eq; by destruct tgt. Qed.

Lemma when_grows (c : bool) (f : State -> State) st :
  (forall s, grows s (f s)) -> grows st (when c f st).
Proof. intros H. destruct c; [apply H|apply grows_refl]. Qed.

Lemma setColumn_grows n c st : grows st (setColumn n c st).
Proof. apply set_targetTable_grows. Qed.

Lemma addIndex_grows a field name cn fn tgt st :
  grows st (addIndex a field name cn fn tgt st).
Proof.
  unfold addIndex. apply grows_eq;
    destruct (negb (disableUnique a) && f_unique field); by destruct tgt.
Qed.

Lemma prepare_grows a field r st n r' st' :
  prepare a field (r, st) = Ok (n, (r', st')) -> grows st st'.
Proof.
  unfold prepare. destruct (fieldAffectsData field).
  - destruct (f_name field); [|done]. intros [= <- <- <-].
    apply when_grows. intros ?. apply addIndex_grows.
  - intros [= <- <- <-]. apply grows_refl.
Qed.

Lemma requireColumn_grows a field n st : grows st (requireColumn a field n st).
Proof. apply when_grows. intros ?. apply set_targetTable_grows. Qed.

Lemma recurse_grows walk a' fs r st r' st' :
  steady walk -> recurse walk a' fs (r, st) = Ok (r', st') -> grows st st'.
Proof.
  intros Hw H. apply bind_Ok in H as ([r1 st1] & Hwalk & H).
  injection H as <- <-. by eapply Hw.
Qed.

Lemma arrayCase_grows walk a pid field n r st r' st' :
  steady walk ->
  arrayCase walk a pid field n (r, st) = Ok (r', st') -> grows st st'.
Proof.
  intros Hw H. unfold arrayCase in H.
  apply bind_Ok in H as (name & _ & H).
  apply bind_Ok in H as (base & _ & H).
  apply bind_Ok in H as ([[flags rel] st1] & Hb & H).
  injection H as <- <-.
  apply buildTable_Ok in Hb as (Hg & _); [|done].
  eapply grows_eq_r; [|exact Hg]. done.
Qed.

Lemma blockStep_grows walk a field block r st r' st' :
  steady walk ->
  blockStep walk a field block (r, st) = Ok (r', st') ->
  exists name,
    blockTableNameOf a block = inr name
    /\ grows st st'
    /\ is_Some (tables (adapter st') !! name)
    /\ columns st' = columns st /\ localesColumns st' = localesColumns st.
Proof.
  intros Hw H. unfold blockStep in H.
  destruct (blockTableNameOf a block) as [e|name]; [done|]. simpl in H.
  exists name. split; [done|].
  apply bind_Ok in H as ([r1 st1] & H1 & H). injection H as <- <-.
  assert (grows st st1 /\ is_Some (tables (adapter st1) !! name)
          /\ columns st1 = columns st
          /\ localesColumns st1 = localesColumns st) as (Hg & Ht & Hc & Hl).
  { destruct (tables (adapter st) !! name) as [t|] eqn:Ht.
    - assert ((r1, st1) = (r, st)) as [= -> ->].
      { destruct (_ && _); [|congruence].
        destruct (validateExistingBlockIsIdentical _ _ _ _ _); congruence. }
      split; [apply grows_refl|]. by rewrite Ht.
    - apply bind_Ok in H1 as (base & _ & H1).
      apply bind_Ok in H1 as ([[flags rel] st2] & Hb & H1).
      injection H1 as <- <-.
      apply buildTable_Ok in Hb as (Hg & Hs & Hc & _ & Hl & _); [|done].
      split; [|done]. eapply grows_eq_r; [|exact Hg]. done. }
  match goal with
  | |- context [set_rootRelationsToBuild ?f ?s] =>
      destruct (set_root_frame f s) as (Ha & Hc' & _ & Hl' & _)
  end.
  unfold grows in *. by rewrite Ha, Hc', Hl'.
Qed.

Lemma blocksCase_grows walk a field r st r' st' :
  steady walk ->
  blocksCase walk a field (r, st) = Ok (r', st') -> grows st st'.
Proof.
  intros Hw. apply forEach_grows. intros b r1 st1 r2 st2 _ H.
  by apply blockStep_grows in H as (? & _ & ? & _).
Qed.

Lemma selectCase_grows walk a pid field n r st r' st' :
  steady walk ->
  selectCase walk a pid field n (r, st) = Ok (r', st') -> grows st st'.
Proof.
  intros Hw H. unfold selectCase in H.
  apply bind_Ok in H as (enum & _ & H).
  destruct (_ && _).
  - apply bind_Ok in H as (sel & _ & H).
    apply bind_Ok in H as (base & _ & H).
    apply bind_Ok in H as ([[flags rel] st1] & Hb & H).
    injection H as <- <-.
    apply buildTable_Ok in Hb as (Hg & _); [|done].
    eapply grows_eq_l; [|eapply grows_eq_r; [|exact Hg]]; done.
  - injection H as <- <-.
    eapply grows_eq_l; [|apply setColumn_grows]; done.
Qed.

Lemma addRelationship_grows a field relation st :
  grows st (addRelationship a field relation st).
Proof. unfold addRelationship. apply grows_eq; by destruct (_ && _). Qed.

Lemma relationshipCase_grows a field n r st r' st' :
  relationshipCase a field n (r, st) = Ok (r', st') -> grows st st'.
Proof.
  unfold relationshipCase.
  destruct (f_relationTo field) as [[slug|slugs]|]; [| |done].
  - destruct (hasManyTruthy field).
    + intros [= <- <-]. apply addRelationship_grows.
    + destruct (collections (adapter st) !! slug); [|done].
      intros [= <- <-]. eapply grows_trans; [|apply when_grows].
      * eapply grows_eq_r; [|apply setColumn_grows]; done.
      * intros ?. apply set_targetTable_grows.
  - intros [= <- <-]. clear. revert st.
    induction slugs as [|x l IH]; intros st; simpl; [apply grows_refl|].
    eapply grows_trans; [apply addRelationship_grows|apply IH].
Qed.

Lemma dispatch_grows walk a pid field n r st r' st' :
  steady walk ->
  dispatch walk a pid field n (r, st) = Ok (r', st') -> grows st st'.
Proof.
  intros Hw. unfold dispatch.
  destruct (f_type field);
    try (intros [= <- <-]; first [apply setColumn_grows | apply grows_refl]).
  - by apply arrayCase_grows.
  - by apply blocksCase_grows.
  - by apply recurse_grows.
  - unfold groupCase. destruct (f_name field); by apply recurse_grows.
  - unfold numberCase. destruct (hasManyTruthy field).
    + destruct (f_unique field); [done|]. intros [= <- <-]. apply grows_refl.
    + intros [= <- <-]. apply setColumn_grows.
  - by apply selectCase_grows.
  - apply relationshipCase_grows.
  - by apply recurse_grows.
  - by apply selectCase_grows.
  - unfold groupCase. destruct (f_name field); by apply recurse_grows.
  - by apply recurse_grows.
  - unfold textCase. destruct (hasManyTruthy field).
    + destruct (f_unique field); [done|]. intros [= <- <-]. apply grows_refl.
    + intros [= <- <-]. apply setColumn_grows.
  - apply relationshipCase_grows.
Qed.

Lemma traverseField_grows walk a pid field r st r' st' :
  steady walk ->
  traverseField walk a pid field (r, st) = Ok (r', st') -> grows st st'.
Proof.
  intros Hw. unfold traverseField.
  destruct (isNamedId field); [intros [= <- <-]; apply grows_refl|].
  destruct (fieldIsVirtual field); [intros [= <- <-]; apply grows_refl|].
  intros H. apply bind_Ok in H as ([n [r1 st1]] & Hp & H).
  apply bind_Ok in H as ([r2 st2] & Hd & H). injection H as <- <-.
  eapply grows_trans; [by eapply prepare_grows|].
  eapply grows_trans; [by eapply dispatch_grows|].
  apply requireColumn_grows.
Qed.

Lemma traverseFields_steady fuel : steady (traverseFields fuel).
Proof.
  induction fuel as [|fuel IH]; intros a fs st r st'; [done|]. simpl.
  apply forEach_grows. intros x r1 st1 r2 st2 _.
  by apply traverseField_grows.
Qed.

(** *** The callback keeps the block relations *)

Lemma keepsRoot_args a a' st st' :
  rootTableName a' = rootTableName a -> versions a' = versions a ->
  keepsRoot a' st st' -> keepsRoot a st st'.
Proof.
  intros Hr Hv [Ho He]. split; [done|]. intros slug H.
  apply (blockEntry_args a'); [done|done|]. apply He.
  by apply (blockEntry_args a).
Qed.

Lemma set_targetTable_keepsRoot a tgt f st :
  keepsRoot a st (set_targetTable tgt f st).
Proof. apply keepsRoot_frame; by destruct tgt. Qed.

Lemma when_keepsRoot a (c : bool) (f : State -> State) st :
  (forall s, keepsRoot a s (f s)) -> keepsRoot a st (when c f st).
Proof. intros H. destruct c; [apply H|apply keepsRoot_refl]. Qed.

Lemma addIndex_relations a field name cn fn tgt st :
  ownRoot (addIndex a field name cn fn tgt st) = ownRoot st
  /\ relationsToBuild (addIndex a field name cn fn tgt st)
     = relationsToBuild st.
Proof.
  unfold addIndex.
  destruct (negb (disableUnique a) && f_unique field); by destruct tgt.
Qed.

Lemma prepare_relations a field r st n r' st' :
  prepare a field (r, st) = Ok (n, (r', st')) ->
  ownRoot st' = ownRoot st /\ relationsToBuild st' = relationsToBuild st
  /\ columnName n = columnName (pathsOf a field)
  /\ fieldName n = fieldName (pathsOf a field).
Proof.
  unfold prepare, pathsOf. destruct (fieldAffectsData field).
  - destruct (f_name field) as [name|]; [|done]. intros [= <- <- <-].
    destruct (needsIndex field); simpl; [|done].
    by destruct (addIndex_relations a field name (columnNameOf a name)
                   (fieldNameOf a name) (targetOf a field st) st) as [-> ->].
  - intros [= <- <- <-]. by destruct (f_name field).
Qed.

Lemma requireColumn_keepsRoot a' a field n st :
  keepsRoot a' st (requireColumn a field n st).
Proof. apply when_keepsRoot. intros ?. apply set_targetTable_keepsRoot. Qed.

Lemma inner_paths a g n n' :
  columnName n = columnName n' -> fieldName n = fieldName n' ->
  inner a g n = inner a g n'.
Proof.
  intros Hc Hf. unfold inner, intoGroup. by rewrite Hc, Hf.
Qed.

Lemma inner_args a g n a1 fs1 :
  inner a g n = Some (a1, fs1) ->
  rootTableName a1 = rootTableName a /\ versions a1 = versions a
  /\ disableUnique a1 = disableUnique a.
Proof.
  unfold inner. destruct (f_type g); try done;
    try (by intros [= <- <-]).
  - destruct (f_name g); by intros [= <- <-].
  - destruct (f_name g); by intros [= <- <-].
Qed.

Lemma dispatch_inner walk a pid field n rs a1 fs1 :
  inner a field n = Some (a1, fs1) ->
  dispatch walk a pid field n rs = recurse walk a1 fs1 rs.
Proof.
  unfold inner, dispatch, groupCase. destruct (f_type field); try done;
    try (by intros [= <- <-]).
  - destruct (f_name field); by intros [= <- <-].
  - destruct (f_name field); by intros [= <- <-].
Qed.

Lemma recurse_keepsRoot walk a a1 fs1 r st r' st' :
  rooted walk -> rootSafe a1 fs1 st ->
  rootTableName a1 = rootTableName a -> versions a1 = versions a ->
  recurse walk a1 fs1 (r, st) = Ok (r', st') -> keepsRoot a st st'.
Proof.
  intros Hw Hs Hr Hv H. apply bind_Ok in H as ([r1 st1] & Hwalk & H).
  injection H as <- <-. apply (keepsRoot_args a a1); [done|done|].
  by eapply Hw.
Qed.

Lemma keySafe_keepsRoot a n st st' :
  keySafe n st -> keepsRoot a st st' -> keySafe n st'.
Proof. intros [?|?] [Ho _]; [left; auto|by right]. Qed.

Lemma arrayCase_keepsRoot walk a pid field n r st r' st' :
  rooted walk -> keySafe n st ->
  arrayCase walk a pid field n (r, st) = Ok (r', st') -> keepsRoot a st st'.
Proof.
  intros Hw Hk H. unfold arrayCase in H.
  apply bind_Ok in H as (name & _ & H).
  apply bind_Ok in H as (base & _ & H).
  apply bind_Ok in H as ([[flags rel] st1] & Hb & H).
  injection H as <- <-.
  apply (buildTable_keepsRoot _ a) in Hb as [Hb _]; [|done..].
  eapply keepsRoot_trans; [exact Hb|].
  eapply keepsRoot_eq_r; [| |apply local_write_keepsRoot]; [done|done|].
  by apply (keySafe_keepsRoot a n st).
Qed.

Lemma blockStep_keepsRoot walk a field block r st r' st' :
  rooted walk ->
  blockStep walk a field block (r, st) = Ok (r', st') ->
  exists name,
    blockTableNameOf a block = inr name
    /\ keepsRoot a st st'
    /\ rootRelationsToBuild st' !! Some ("_blocks_" ++ b_slug block)
       = Some (blockRelation name).
Proof.
  intros Hw H. unfold blockStep in H.
  destruct (blockTableNameOf a block) as [e|name] eqn:Hname; [done|].
  simpl in H. exists name. split; [done|].
  apply bind_Ok in H as ([r1 st1] & H1 & H). injection H as <- <-.
  assert (keepsRoot a st st1) as Hk.
  { destruct (tables (adapter st) !! name) as [t|] eqn:Ht.
    - assert ((r1, st1) = (r, st)) as [= -> ->]; [|apply keepsRoot_refl].
      destruct (_ && _); [|congruence].
      destruct (validateExistingBlockIsIdentical _ _ _ _ _); congruence.
    - apply bind_Ok in H1 as (base & _ & H1).
      apply bind_Ok in H1 as ([[flags rel] st2] & Hb & H1).
      injection H1 as <- <-.
      apply (buildTable_keepsRoot _ a) in Hb as [Hb _]; [|done..].
      eapply keepsRoot_eq_r; [| |exact Hb]; done. }
  destruct (block_write_entry a block name st1 Hname) as [Hw1 He].
  split; [by eapply keepsRoot_trans|done].
Qed.

Lemma forEach_keepsRoot {A} a (Q : Prop)
  (cb : A -> Result * State -> outcome E (Result * State))
  (l : list A) r st r' st' :
  (forall x r1 st1 r2 st2,
     In x l -> is_Some (ownRoot st1) \/ Q ->
     cb x (r1, st1) = Ok (r2, st2) -> keepsRoot a st1 st2) ->
  is_Some (ownRoot st) \/ Q ->
  forEach cb l (r, st) = Ok (r', st') -> keepsRoot a st st'.
Proof.
  revert r st. induction l as [|x l IH]; intros r st Hcb Hs; simpl.
  - intros [= <- <-]. apply keepsRoot_refl.
  - intros H. apply bind_Ok in H as ([r1 st1] & Hx & H).
    assert (keepsRoot a st st1) as Hk by (eapply Hcb; [by left|done|done]).
    eapply keepsRoot_trans; [exact Hk|].
    eapply IH; [|by destruct Hs as [?|?], Hk; auto|done].
    intros. eapply Hcb; [by right|done|done].
Qed.

Lemma blocksCase_keepsRoot walk a field r st r' st' :
  rooted walk ->
  blocksCase walk a field (r, st) = Ok (r', st') -> keepsRoot a st st'.
Proof.
  intros Hw. apply (forEach_keepsRoot a True); [|by right].
  intros b r1 st1 r2 st2 _ _ H.
  by apply blockStep_keepsRoot in H as (? & _ & ? & _).
Qed.

Lemma selectCase_keepsRoot walk a pid field n r st r' st' :
  rooted walk -> keySafe n st ->
  selectCase walk a pid field n (r, st) = Ok (r', st') -> keepsRoot a st st'.
Proof.
  intros Hw Hk H. unfold selectCase in H.
  apply bind_Ok in H as (enum & _ & H).
  destruct (_ && _).
  - apply bind_Ok in H as (sel & _ & H).
    apply bind_Ok in H as (base & _ & H).
    apply bind_Ok in H as (built & Hb & H).
    injection H as <- <-. destruct built as [[flags rel] st1].
    apply (buildTable_keepsRoot _ a) in Hb as [Hb _]; [|done..].
    eapply keepsRoot_eq_l; [| |eapply keepsRoot_trans; [exact Hb|]];
      [done|done|].
    eapply keepsRoot_eq_r; [| |apply local_write_keepsRoot]; [done|done|].
    apply (keySafe_keepsRoot a n
             (set_adapter
                (set_enums <[enum := List.map optionValue (f_options field)]>)
                st)); [exact Hk|exact Hb].
  - injection H as <- <-.
    eapply keepsRoot_eq_l; [| |apply set_targetTable_keepsRoot]; done.
Qed.

Lemma addRelationship_keepsRoot a' a field relation st :
  keepsRoot a' st (addRelationship a field relation st).
Proof. unfold addRelationship. apply keepsRoot_frame; by destruct (_ && _). Qed.

Lemma relationshipCase_keepsRoot a field n r st r' st' :
  keySafe n st ->
  relationshipCase a field n (r, st) = Ok (r', st') -> keepsRoot a st st'.
Proof.
  intros Hk. unfold relationshipCase.
  destruct (f_relationTo field) as [[slug|slugs]|]; [| |done].
  - destruct (hasManyTruthy field).
    + intros [= <- <-]. apply addRelationship_keepsRoot.
    + destruct (collections (adapter st) !! slug); [|done].
      intros [= <- <-].
      eapply keepsRoot_trans; [|apply when_keepsRoot].
      * eapply keepsRoot_trans; [apply set_targetTable_keepsRoot|].
        apply local_write_keepsRoot. destruct Hk as [Hk|Hk]; [left|by right].
        unfold setColumn. by destruct (target n).
      * intros ?. apply set_targetTable_keepsRoot.
  - intros [= <- <-]. clear. revert st.
    induction slugs as [|x l IH]; intros st; simpl; [apply keepsRoot_refl|].
    eapply keepsRoot_trans; [apply addRelationship_keepsRoot|apply IH].
Qed.

Lemma dispatch_keepsRoot walk a pid field n r st r' st' :
  rooted walk -> keySafe n st ->
  (forall a1 fs1, inner a field n = Some (a1, fs1) -> rootSafe a1 fs1 st) ->
  dispatch walk a pid field n (r, st) = Ok (r', st') -> keepsRoot a st st'.
Proof.
  intros Hw Hk Hin.
  destruct (inner a field n) as [[a1 fs1]|] eqn:Hi.
  { rewrite (dispatch_inner _ _ _ _ _ _ a1 fs1 Hi).
    destruct (inner_args _ _ _ _ _ Hi) as (Hr & Hv & _).
    apply recurse_keepsRoot; auto. }
  clear Hin. unfold dispatch. unfold inner in Hi.
  destruct (f_type field); try done;
    try (intros [= <- <-];
         first [apply set_targetTable_keepsRoot | apply keepsRoot_refl]).
  - by apply arrayCase_keepsRoot.
  - by apply blocksCase_keepsRoot.
  - unfold numberCase. destruct (hasManyTruthy field).
    + destruct (f_unique field); [done|]. intros [= <- <-].
      apply keepsRoot_refl.
    + intros [= <- <-]. apply set_targetTable_keepsRoot.
  - by apply selectCase_keepsRoot.
  - by apply relationshipCase_keepsRoot.
  - by apply selectCase_keepsRoot.
  - unfold textCase. destruct (hasManyTruthy field).
    + destruct (f_unique field); [done|]. intros [= <- <-].
      apply keepsRoot_refl.
    + intros [= <- <-]. apply set_targetTable_keepsRoot.
  - by apply relationshipCase_keepsRoot.
Qed.

Lemma namesSafe_inner a fs g a1 fs1 :
  namesSafe a fs -> In g fs -> inner a g (pathsOf a g) = Some (a1, fs1) ->
  namesSafe a1 fs1.
Proof.
  intros Hs Hin Hi a' f name slug Hf. apply Hs. by eapply flat_inner.
Qed.

Lemma namesSafe_key a fs field :
  namesSafe a fs -> In field fs ->
  forall slug, fieldName (pathsOf a field) <> Some ("_blocks_" ++ slug).
Proof.
  intros Hs Hin slug. unfold pathsOf.
  destruct (f_name field) as [name|] eqn:Hn; [|done].
  destruct (fieldAffectsData field); [|done]. simpl. intros [= H].
  by apply (Hs a field name slug (flat_here _ _ _ Hin) Hn).
Qed.

Lemma traverseField_keepsRoot walk a pid fs field r st r' st' :
  rooted walk ->
  is_Some (ownRoot st) \/ (namesSafe a fs /\ In field fs) ->
  traverseField walk a pid field (r, st) = Ok (r', st') -> keepsRoot a st st'.
Proof.
  intros Hw Hs. unfold traverseField.
  destruct (isNamedId field); [intros [= <- <-]; apply keepsRoot_refl|].
  destruct (fieldIsVirtual field); [intros [= <- <-]; apply keepsRoot_refl|].
  intros H. apply bind_Ok in H as ([n [r1 st1]] & Hp & H).
  apply bind_Ok in H as ([r2 st2] & Hd & H). injection H as <- <-.
  cbn [fst snd] in *.
  destruct (prepare_relations _ _ _ _ _ _ _ Hp) as (Ho & Hr & Hc & Hf).
  eapply keepsRoot_trans; [by apply keepsRoot_frame|].
  eapply keepsRoot_trans; [|apply requireColumn_keepsRoot].
  eapply dispatch_keepsRoot; [exact Hw| | |exact Hd].
  - destruct Hs as [Hs|[Hs Hin]]; [left; by rewrite Ho|right].
    rewrite Hf. by eapply namesSafe_key.
  - intros a1 fs1 Hi. destruct Hs as [Hs|[Hs Hin]]; [left; by rewrite Ho|].
    right. rewrite (inner_paths a field n (pathsOf a field)) in Hi by done.
    by eapply namesSafe_inner.
Qed.

Lemma traverseFields_rooted fuel : rooted (traverseFields fuel).
Proof.
  induction fuel as [|fuel IH]; intros a fs st r st'; [done|]. simpl.
  intros H Hs.
  eapply (forEach_keepsRoot a (namesSafe a fs)); [|exact Hs|exact H].
  intros x r1 st1 r2 st2 Hin Hs1.
  apply (traverseField_keepsRoot _ _ _ fs); [done|].
  destruct Hs1 as [?|?]; [by left|by right].
Qed.

(** *** Blocks of the list of a pass *)

Lemma forEach_member {A S} (cb : A -> S -> outcome E S) (l : list A) x
  (s s' : S) :
  In x l -> forEach cb l s = Ok s' ->
  exists l1 l2 s1 s2,
    l = (l1 ++ x :: l2)%list /\ forEach cb l1 s = Ok s1 /\ cb x s1 = Ok s2
    /\ forEach cb l2 s2 = Ok s'.
Proof.
  intros Hin H. apply in_split in Hin as (l1 & l2 & ->).
  rewrite forEach_app in H. apply bind_Ok in H as (s1 & H1 & H).
  simpl in H. apply bind_Ok in H as (s2 & Hx & H2).
  by exists l1, l2, s1, s2.
Qed.

Lemma tabled_grows a block st st' :
  grows st st' -> tabled a block st -> tabled a block st'.
Proof.
  intros Hg (name & Hn & Ht). exists name. split; [done|].
  by eapply lookup_weaken_is_Some.
Qed.

Lemma tabled_args a a' block st :
  rootTableName a' = rootTableName a -> versions a' = versions a ->
  tabled a block st -> tabled a' block st.
Proof.
  intros Hr Hv (name & Hn & Ht). exists name. split; [|done].
  unfold blockTableNameOf in *. by rewrite Hr, Hv.
Qed.

Lemma blocksCase_tabled walk a field block r st r' st' :
  steady walk -> In block (f_blocks field) ->
  blocksCase walk a field (r, st) = Ok (r', st') -> tabled a block st'.
Proof.
  intros Hw Hin H. unfold blocksCase in H.
  apply (forEach_member _ _ block) in H
    as (l1 & l2 & [r1 st1] & [r2 st2] & _ & _ & Hb & H2); [|done].
  apply blockStep_grows in Hb as (name & Hname & _ & Ht & _); [|done].
  apply (tabled_grows _ _ st2); [|by exists name].
  eapply forEach_grows; [|exact H2]. intros b ? ? ? ? _ Hb.
  by apply blockStep_grows in Hb as (? & _ & ? & _).
Qed.

Lemma blocksCase_entry walk a field block r st r' st' :
  rooted walk -> In block (f_blocks field) ->
  blocksCase walk a field (r, st) = Ok (r', st') ->
  blockEntry a (b_slug block) st'.
Proof.
  intros Hw Hin H. unfold blocksCase in H.
  apply (forEach_member _ _ block) in H
    as (l1 & l2 & [r1 st1] & [r2 st2] & _ & _ & Hb & H2); [|done].
  apply blockStep_keepsRoot in Hb as (name & Hname & _ & Hr); [|done].
  assert (keepsRoot a st2 st') as [_ Hk].
  { eapply (forEach_keepsRoot a True); [|by right|exact H2].
    intros b ? ? ? ? _ _ Hb.
    by apply blockStep_keepsRoot in Hb as (? & _ & ? & _). }
  apply Hk. by exists block, name.
Qed.

(** The callback on a blocks field that is not skipped. *)
Lemma traverseField_blocksCase walk a pid field r st r' st' :
  visited field = true -> f_type field = FT_blocks ->
  traverseField walk a pid field (r, st) = Ok (r', st') ->
  exists n r1 st1 st2,
    prepare a field (r, st) = Ok (n, (r1, st1))
    /\ blocksCase walk a field (r1, st1) = Ok (r', st2)
    /\ st' = requireColumn a field n st2.
Proof.
  intros Hv Ht. unfold traverseField.
  apply andb_prop in Hv as [Hid Hv].
  apply negb_true_iff in Hid, Hv. rewrite Hid, Hv.
  intros H. apply bind_Ok in H as ([n [r1 st1]] & Hp & H).
  apply bind_Ok in H as ([r2 st2] & Hd & H). injection H as <- <-.
  cbn [fst snd] in *. unfold dispatch in Hd. rewrite Ht in Hd.
  by exists n, r1, st1, st2.
Qed.

Lemma traverseFields_tabled fuel a fs st r st' field block :
  traverseFields fuel a fs st = Ok (r, st') ->
  In field fs -> visited field = true -> f_type field = FT_blocks ->
  In block (f_blocks field) -> tabled a block st'.
Proof.
  intros H Hin Hv Ht Hb. destruct fuel as [|fuel]; [done|]. simpl in H.
  apply (forEach_member _ _ field) in H
    as (l1 & l2 & [r1 st1] & [r2 st2] & _ & _ & Hf & H2); [|done].
  apply traverseField_blocksCase in Hf
    as (n & r3 & st3 & st4 & _ & Hd & ->); [|done..].
  apply (blocksCase_tabled _ _ _ block) in Hd;
    [|apply traverseFields_steady|done].
  eapply tabled_grows; [|exact Hd].
  eapply grows_trans; [apply requireColumn_grows|].
  eapply forEach_grows; [|exact H2]. intros x ? ? ? ? _.
  apply traverseField_grows, traverseFields_steady.
Qed.

Lemma forEach_In_keepsRoot walk a pid fs l r st r' st' :
  rooted walk -> (forall x, In x l -> In x fs) -> rootSafe a fs st ->
  forEach (traverseField walk a pid) l (r, st) = Ok (r', st') ->
  keepsRoot a st st'.
Proof.
  intros Hw Hsub Hs H.
  eapply (forEach_keepsRoot a (namesSafe a fs)); [|exact Hs|exact H].
  intros x r1 st1 r2 st2 Hin Hs1.
  apply (traverseField_keepsRoot _ _ _ fs); [done|].
  destruct Hs1 as [?|?]; [by left|right; auto].
Qed.

Lemma rootSafe_keepsRoot a fs st st' :
  rootSafe a fs st -> keepsRoot a st st' -> rootSafe a fs st'.
Proof. intros [?|?] [Ho _]; [left; auto|by right]. Qed.

Lemma traverseFields_entry fuel a fs st r st' field block :
  traverseFields fuel a fs st = Ok (r, st') -> rootSafe a fs st ->
  In field fs -> visited field = true -> f_type field = FT_blocks ->
  In block (f_blocks field) -> blockEntry a (b_slug block) st'.
Proof.
  intros H Hs Hin Hv Ht Hb. destruct fuel as [|fuel]; [done|]. simpl in H.
  apply (forEach_member _ _ field) in H
    as (l1 & l2 & [r1 st1] & [r2 st2] & Hfs & H1 & Hf & H2); [|done].
  assert (Hk1 : keepsRoot a st st1).
  { eapply (forEach_In_keepsRoot _ _ _ fs);
      [apply traverseFields_rooted| |exact Hs|exact H1].
    intros x Hx. rewrite Hfs. apply in_or_app. by left. }
  assert (Hk2 : keepsRoot a st1 st2).
  { eapply (traverseField_keepsRoot _ _ _ fs);
      [apply traverseFields_rooted| |exact Hf].
    destruct (rootSafe_keepsRoot _ _ _ _ Hs Hk1) as [?|?];
      [by left|by right]. }
  assert (Hk3 : keepsRoot a st2 st').
  { eapply (forEach_In_keepsRoot _ _ _ fs);
      [apply traverseFields_rooted| | |exact H2].
    - intros x Hx. rewrite Hfs. apply in_or_app. right. by right.
    - eapply rootSafe_keepsRoot; [|exact Hk2].
      by eapply rootSafe_keepsRoot. }
  apply traverseField_blocksCase in Hf
    as (n & r3 & st3 & st4 & _ & Hd & ->); [|done..].
  apply (blocksCase_entry _ _ _ block) in Hd;
    [|apply traverseFields_rooted|done].
  apply Hk3. destruct (requireColumn_keepsRoot a a field n st4) as [_ Hq].
  by apply Hq.
Qed.

(** *** Passes below a pass *)

Lemma opens_args walk a pid field n rs a1 fs1 st1 :
  opens walk a pid field n rs a1 fs1 st1 ->
  rootTableName a1 = rootTableName a /\ versions a1 = versions a.
Proof.
  intros [a2 fs2 Hi|name base Ht Hn Hb Hnone b
         |bs1 block bs2 r1 st2 name base Ht Hbs H1 Hn Hnone Hb b].
  - by destruct (inner_args _ _ _ _ _ Hi) as (? & ? & _).
  - done.
  - done.
Qed.

Lemma opens_rootSafe walk a pid field n rs a1 fs1 st1 :
  opens walk a pid field n rs a1 fs1 st1 ->
  is_Some (ownRoot (snd rs))
  \/ (forall a2 fs2, inner a field n = Some (a2, fs2) -> namesSafe a2 fs2) ->
  rootSafe a1 fs1 st1.
Proof.
  intros [a2 fs2 Hi|name base Ht Hn Hb Hnone b
         |bs1 block bs2 r1 st2 name base Ht Hbs H1 Hn Hnone Hb b] Hs.
  - destruct Hs as [?|Hs]; [by left|right; by apply Hs].
  - left. by eexists.
  - left. by eexists.
Qed.

(** The call is made, and what the pass it starts leaves is in what the
    [switch] leaves. *)
Lemma opens_returns walk a pid field n r st a1 fs1 st1 r' st' :
  steady walk ->
  opens walk a pid field n (r, st) a1 fs1 st1 ->
  dispatch walk a pid field n (r, st) = Ok (r', st') ->
  exists rq sq,
    walk a1 fs1 st1 = Ok (rq, sq) /\ grows sq st'
    /\ (rooted walk -> keySafe n st ->
        forall slug, blockEntry a slug sq -> blockEntry a slug st').
Proof.
  intros Hw Ho Hd.
  destruct Ho as [a2 fs2 Hi|name base Ht Hn Hb Hnone b
                 |bs1 block bs2 r1 st2 name base Ht Hbs H1 Hn Hnone Hb b].
  - rewrite (dispatch_inner _ _ _ _ _ _ a2 fs2 Hi) in Hd.
    apply bind_Ok in Hd as ([rq sq] & Hwalk & Hd). injection Hd as <- <-.
    exists rq, sq. split; [done|]. split; [apply grows_refl|]. by intros.
  - unfold dispatch in Hd. rewrite Ht in Hd. unfold arrayCase in Hd.
    cbn [snd] in *. rewrite Hn in Hd. cbn [lift bind] in Hd.
    rewrite Hb in Hd. cbn [bind] in Hd. fold b in Hd.
    apply bind_Ok in Hd as ([[flags rel] stb] & Hbt & Hd).
    injection Hd as <- <-.
    pose proof Hbt as Hbt'.
    apply buildTable_absent in Hbt'
      as (sq & Hwalk & _ & Ha & Hroot & Hown & _); [|done].
    exists flags, sq. split; [done|]. split.
    + unfold grows. simpl. rewrite Ha. simpl.
      apply registerBuilt_subseteq.
    + intros Hr Hk slug He.
      apply (buildTable_keepsRoot _ a) in Hbt as [Hkb Hback]; [|done..].
      apply (Hback sq Hwalk Hnone) in He.
      assert (keepsRoot a stb
                (set_relationsToBuild
                   <[fieldName n :=
                       {| rel_type := many; rel_localized := false;
                          rel_target := Some name |}]> stb)) as [_ Hl].
      { apply local_write_keepsRoot. by apply (keySafe_keepsRoot a n st). }
      apply Hl in He. revert He. by apply blockEntry_root.
  - unfold dispatch in Hd. rewrite Ht in Hd. unfold blocksCase in Hd.
    rewrite Hbs, forEach_app, H1 in Hd. cbn [bind forEach] in Hd.
    apply bind_Ok in Hd as ([r2 s2] & Hstep & Hrest).
    pose proof Hstep as Hstep'.
    unfold blockStep in Hstep'. rewrite Hn in Hstep'.
    cbn [lift bind] in Hstep'. rewrite Hnone in Hstep'.
    apply bind_Ok in Hstep' as ([r3 s3] & H3 & Hstep').
    injection Hstep' as _ Hs2.
    rewrite Hb in H3. cbn [bind] in H3. fold b in H3.
    apply bind_Ok in H3 as ([[flags rel] stb] & Hbt & H3).
    injection H3 as <- <-.
    pose proof Hbt as Hbt'.
    apply buildTable_absent in Hbt'
      as (sq & Hwalk & _ & Ha & Hroot & Hown & _); [|done].
    exists flags, sq. split; [done|]. split.
    + eapply grows_trans;
        [|eapply forEach_grows; [|exact Hrest]; intros x ? ? ? ? _ Hx;
          by apply blockStep_grows in Hx as (? & _ & ? & _)].
      rewrite <- Hs2.
      match goal with
      | |- context [set_rootRelationsToBuild ?f ?s] =>
          destruct (set_root_frame f s) as (Hf & _)
      end.
      unfold grows. rewrite Hf. simpl. rewrite Ha. simpl.
      apply registerBuilt_subseteq.
    + intros Hr _ slug He.
      apply (buildTable_keepsRoot _ a) in Hbt as [Hkb Hback]; [|done..].
      apply (Hback sq Hwalk Hnone) in He.
      assert (keepsRoot a s2 st') as [_ Hk2].
      { eapply (forEach_keepsRoot a True); [|by right|exact Hrest].
        intros x ? ? ? ? _ _ Hx.
        by apply blockStep_keepsRoot in Hx as (? & _ & ? & _). }
      apply Hk2. rewrite <- Hs2.
      match goal with
      | |- blockEntry _ _ (set_rootRelationsToBuild ?f ?s) =>
          destruct (block_write_entry a block name s Hn) as [[_ Hk3] _]
      end.
      apply Hk3. revert He. by apply blockEntry_root.
Qed.

Lemma reaches_returns k a fs st a' fs' st' :
  reaches k a fs st a' fs' st' ->
  forall r stf,
    traverseFields k a fs st = Ok (r, stf) ->
    exists k' r' stf',
      traverseFields k' a' fs' st' = Ok (r', stf') /\ grows stf' stf
      /\ rootTableName a' = rootTableName a /\ versions a' = versions a
      /\ (rootSafe a fs st ->
          rootSafe a' fs' st'
          /\ forall slug, blockEntry a slug stf' -> blockEntry a slug stf).
Proof.
  induction 1 as [k a fs st
                 |k a fs st pre field post r1 st1 n [r2 s2] a1 fs1 st2
                    a' fs' st' Hfs Hpre Hv Hp Ho Hreach IH];
    intros r stf H.
  - exists k, r, stf. split; [done|]. split; [apply grows_refl|].
    split; [done|]. split; [done|]. by intros.
  - cbn [traverseFields] in H. rewrite Hfs, forEach_app, Hpre in H.
    cbn [bind forEach] in H.
    apply bind_Ok in H as ([rb sb] & Hcb & Hpost).
    unfold traverseField in Hcb.
    apply andb_prop in Hv as [Hid Hv].
    apply negb_true_iff in Hid, Hv. rewrite Hid, Hv, Hp in Hcb.
    cbn [bind fst snd] in Hcb.
    apply bind_Ok in Hcb as ([r3 s3] & Hd & Hcb). injection Hcb as <- <-.
    cbn [fst snd] in *.
    destruct (opens_returns _ _ _ _ _ _ _ _ _ _ _ _
                (traverseFields_steady k) Ho Hd)
      as (rq & sq & Hwalk & Hg & He).
    destruct (IH _ _ Hwalk) as (k' & r' & stf' & Hrun & Hg' & Hr' & Hv' & Hs').
    destruct (opens_args _ _ _ _ _ _ _ _ _ Ho) as [Hr1 Hv1].
    exists k', r', stf'. split; [done|]. split.
    { eapply grows_trans; [exact Hg'|]. eapply grows_trans; [exact Hg|].
      eapply grows_trans; [apply requireColumn_grows|].
      eapply forEach_grows; [|exact Hpost]. intros x ? ? ? ? _.
      apply traverseField_grows, traverseFields_steady. }
    split; [congruence|]. split; [congruence|]. intros Hs.
    assert (Hk1 : keepsRoot a st st1).
    { eapply (forEach_In_keepsRoot _ _ _ fs);
        [apply traverseFields_rooted| |exact Hs|exact Hpre].
      intros x Hx. rewrite Hfs. apply in_or_app. by left. }
    pose proof (rootSafe_keepsRoot _ _ _ _ Hs Hk1) as Hs1.
    destruct (prepare_relations _ _ _ _ _ _ _ Hp) as (Ho2 & Hr2 & Hc2 & Hf2).
    assert (Hin : In field fs) by (rewrite Hfs; apply in_or_app; right; by left).
    assert (Hkey : keySafe n s2).
    { destruct Hs1 as [?|Hn]; [left; by rewrite Ho2|right].
      rewrite Hf2. by eapply namesSafe_key. }
    assert (Hinner : forall a2 fs2,
              inner a field n = Some (a2, fs2) -> rootSafe a2 fs2 s2).
    { intros a2 fs2 Hi. destruct Hs1 as [?|Hn]; [left; by rewrite Ho2|].
      right. rewrite (inner_paths a field n (pathsOf a field)) in Hi by done.
      by eapply namesSafe_inner. }
    assert (Hk2 : keepsRoot a s2 s3)
      by (eapply dispatch_keepsRoot;
          [apply traverseFields_rooted|exact Hkey|exact Hinner|exact Hd]).
    assert (Hs3 : rootSafe a fs s3).
    { eapply rootSafe_keepsRoot; [|exact Hk2].
      destruct Hs1 as [?|?]; [left; by rewrite Ho2|by right]. }
    assert (Hk3 : keepsRoot a (requireColumn a field n s3) stf).
    { eapply (forEach_In_keepsRoot _ _ _ fs);
        [apply traverseFields_rooted| | |exact Hpost].
      - intros x Hx. rewrite Hfs. apply in_or_app. right. by right.
      - eapply rootSafe_keepsRoot; [exact Hs3|].
        apply requireColumn_keepsRoot. }
    assert (Hsub : rootSafe a1 fs1 st2).
    { eapply opens_rootSafe; [exact Ho|]. cbn [snd].
      destruct Hs1 as [?|Hn]; [left; by rewrite Ho2|right].
      intros a2 fs2 Hi.
      rewrite (inner_paths a field n (pathsOf a field)) in Hi by done.
      by eapply namesSafe_inner. }
    destruct (Hs' Hsub) as [Hsafe' Hent]. split; [done|].
    intros slug Hslug. apply Hk3.
    destruct (requireColumn_keepsRoot a a field n s3) as [_ Hq]. apply Hq.
    apply (He (traverseFields_rooted k) Hkey).
    apply (blockEntry_args a1); [done|done|]. apply Hent.
    by apply (blockEntry_args a).
Qed.

(** ** Block tables and their relations *)

(** The callback records the relation whatever the recursive call does, and
    leaves the relation registry of the table under construction alone when
    the root-scoped registry is another Map. *)
Lemma blockStep_relation walk a field block r st r' st' :
  blockStep walk a field block (r, st) = Ok (r', st') ->
  exists name,
    blockTableNameOf a block = inr name
    /\ rootRelationsToBuild st' !! Some ("_blocks_" ++ b_slug block)
       = Some (blockRelation name)
    /\ (is_Some (ownRoot st) -> relationsToBuild st' = relationsToBuild st).
Proof.
  intros H. unfold blockStep in H.
  destruct (blockTableNameOf a block) as [e|name] eqn:Hname; [done|].
  simpl in H. exists name. split; [done|].
  apply bind_Ok in H as ([r1 st1] & H1 & H). injection H as <- <-.
  destruct (block_write_entry a block name st1 Hname) as [_ Hkey].
  split; [exact Hkey|]. intros Hown.
  assert (is_Some (ownRoot st1) /\ relationsToBuild st1 = relationsToBuild st)
    as [Hown1 <-].
  { destruct (tables (adapter st) !! name) as [t|] eqn:Ht.
    - assert ((r1, st1) = (r, st)) as [= -> ->]; [|done].
      destruct (_ && _); [|congruence].
      destruct (validateExistingBlockIsIdentical _ _ _ _ _); congruence.
    - apply bind_Ok in H1 as (base & _ & H1).
      apply bind_Ok in H1 as ([[flags rel] st2] & Hb & H1).
      injection H1 as <- <-. simpl.
      apply buildTable_absent in Hb as (_ & _ & _ & _ & _ & Ho & Hl & _);
        [|done].
      split; [by apply Ho|by apply Hl]. }
  match goal with
  | |- context [set_rootRelationsToBuild ?f ?s] =>
      by destruct (set_root_frame f s) as (_ & _ & _ & _ & _ & _ & _ & Hl);
        apply Hl
  end.
Qed.

Lemma register_lookup name t (ts : gmap string Table) :
  ts !! name = None -> register name t ts !! name = Some t.
Proof. intros H. unfold register. rewrite H. by rewrite lookup_insert_eq. Qed.

Lemma register_lookup_ne name name' t (ts : gmap string Table) :
  name <> name' -> register name' t ts !! name = ts !! name.
Proof.
  intros H. unfold register. destruct (ts !! name'); [done|].
  by rewrite lookup_insert_ne.
Qed.

(** The call for a block whose table is not registered: the walk over the
    block's fields, and the table registered from what it left. *)
Lemma blockStep_builds walk a field block r st r' st' name :
  blockTableNameOf a block = inr name ->
  tables (adapter st) !! name = None ->
  blockStep walk a field block (r, st) = Ok (r', st') ->
  exists base r1 st1,
    let b := blockTable a field block name base (isLocalizedHere a field st) in
    withLocale "_locale" "_locale" "_localeIdx" (name ++ "_locale_idx")
      (isLocalizedHere a field st) st (blockBase a name) = Ok base
    /\ walk (passArgs b st)
         (if disableUnique a then idToUUID (b_fields block)
          else b_fields block)
         (passState b st) = Ok (r1, st1)
    /\ tables (adapter st') = registerBuilt b st r1 st1 (tables (adapter st1))
    /\ (tables (adapter st1) !! name = None ->
        hasLocalizedField r1 = false
        \/ localesSuffix (adapter st1) <> EmptyString ->
        tables (adapter st') !! name = Some (builtTable b r1 st1)).
Proof.
  intros Hname Hnone H. unfold blockStep in H. rewrite Hname in H.
  cbn [lift bind] in H. rewrite Hnone in H.
  apply bind_Ok in H as ([r2 s2] & H & Hout). injection Hout as _ <-.
  apply bind_Ok in H as (base & Hbase & H).
  apply bind_Ok in H as ([[flags rel] stb] & Hb & H). injection H as _ <-.
  apply buildTable_absent in Hb as (st1 & Hwalk & _ & Ha & _); [|done].
  exists base, flags, st1. cbn zeta. split; [done|]. split; [exact Hwalk|].
  assert (Htables :
    tables (adapter
      (set_rootRelationsToBuild
         <[Some ("_blocks_" ++ b_slug block) := blockRelation name]>
         (set_adapter
            (set_relations
               <["relations_" ++ name :=
                   {| rd_table := name;
                      rd_parent :=
                        ("_parentID", rootTableName a,
                         "_blocks_" ++ b_slug block);
                      rd_locales :=
                        if hasLocalesTable (b_fields block)
                        then Some (name ++ localesSuffix (adapter stb))
                        else None;
                      rd_sub := rel |}]>) stb)))
    = registerBuilt
        (blockTable a field block name base (isLocalizedHere a field st))
        st flags st1 (tables (adapter st1))).
  { match goal with
    | |- context [set_rootRelationsToBuild ?f ?s] =>
        destruct (set_root_frame f s) as (Hf & _)
    end.
    rewrite Hf. simpl. by rewrite Ha. }
  split; [exact Htables|]. intros Hfree Hloc. rewrite Htables.
  unfold registerBuilt. cbn [tableName blockTable]. apply register_lookup.
  unfold when. destruct (hasLocalizedField flags) eqn:Hl; [|done].
  rewrite register_lookup_ne; [done|]. destruct Hloc as [?|Hloc]; [done|].
  intros Heq. apply Hloc. apply (f_equal String.length) in Heq.
  rewrite length_app in Heq.
  destruct (localesSuffix (adapter st1)); [done|simpl in Heq; lia].
Qed.

(** A block whose table is registered: the walker is not called, and the
    adapter stays as it is. *)
Lemma blockStep_reuses walk a field block r st name t :
  blockTableNameOf a block = inr name ->
  tables (adapter st) !! name = Some t ->
  blockStep walk a field block (r, st)
  = blockStep (fun _ _ _ => OutOfFuel) a field block (r, st)
  /\ forall r' st',
       blockStep walk a field block (r, st) = Ok (r', st') ->
       adapter st' = adapter st.
Proof.
  intros Hname Ht. split.
  - by rewrite !(blockStep_existing _ _ _ _ _ _ name t).
  - intros r' st'. rewrite (blockStep_existing _ _ _ _ _ _ name t) by done.
    intros H.
    destruct (_ && _);
      [destruct (validateExistingBlockIsIdentical _ _ _ _ _); [done|]|];
      injection H as <- <-;
      match goal with
      | |- context [set_rootRelationsToBuild ?f ?s] =>
          by destruct (set_root_frame f s) as (Hf & _)
      end.
Qed.

(** C4 (amended).  The first time the callback comes to a block, when no
    table is registered under the block's name, it walks the fields of the
    block
    (after [idToUUID] when unique is disabled) over the block's base
    columns, and the registry it leaves is the one that walk left with the
    table built from it registered: under the block's name, unless the walk
    itself registered that name.  When a table is registered under the
    name the callback does not call the walker and leaves the adapter as
    it is.  Through a whole pass every table registered at its start, or
    at the start of a pass it opens, stays registered unchanged; and every
    block of every blocks field that is not skipped, in the list of the
    pass or of any pass it opens at whatever depth, has a table at the end,
    under a name that is the same computed with the arguments of the root
    pass and with those of the nested pass. *)
Theorem block_table_is_built_once :
  (forall walk a field block r st r' st' name,
     blockTableNameOf a block = inr name ->
     tables (adapter st) !! name = None ->
     blockStep walk a field block (r, st) = Ok (r', st') ->
     exists base r1 st1,
       let b :=
         blockTable a field block name base (isLocalizedHere a field st) in
       withLocale "_locale" "_locale" "_localeIdx" (name ++ "_locale_idx")
         (isLocalizedHere a field st) st (blockBase a name) = Ok base
       /\ walk (passArgs b st)
            (if disableUnique a then idToUUID (b_fields block)
             else b_fields block)
            (passState b st) = Ok (r1, st1)
       /\ tables (adapter st')
          = registerBuilt b st r1 st1 (tables (adapter st1))
       /\ (tables (adapter st1) !! name = None ->
           hasLocalizedField r1 = false
           \/ localesSuffix (adapter st1) <> EmptyString ->
           tables (adapter st') !! name = Some (builtTable b r1 st1)))
  /\
  (forall walk a field block r st name t,
     blockTableNameOf a block = inr name ->
     tables (adapter st) !! name = Some t ->
     blockStep walk a field block (r, st)
     = blockStep (fun _ _ _ => OutOfFuel) a field block (r, st)
     /\ forall r' st',
          blockStep walk a field block (r, st) = Ok (r', st') ->
          adapter st' = adapter st)
  /\
  (forall fuel a fs st r stf,
     traverseFields fuel a fs st = Ok (r, stf) ->
     forall a' fs' st',
       reaches fuel a fs st a' fs' st' ->
       (forall name t,
          tables (adapter st') !! name = Some t ->
          tables (adapter stf) !! name = Some t)
       /\
       (forall field block,
          In field fs' -> visited field = true -> f_type field = FT_blocks ->
          In block (f_blocks field) ->
          exists name,
            blockTableNameOf a' block = inr name
            /\ blockTableNameOf a block = inr name
            /\ is_Some (tables (adapter stf) !! name))).
Proof.
  split; [|split].
  - intros *. apply blockStep_builds.
  - intros *. apply blockStep_reuses.
  - intros * H * Hreach.
    destruct (reaches_returns _ _ _ _ _ _ _ Hreach _ _ H)
      as (k' & r' & stf' & Hrun & Hg & Hr & Hv & _).
    split.
    + intros name t Ht. apply (lookup_weaken _ _ _ _ Ht).
      pose proof (traverseFields_steady k' _ _ _ _ _ Hrun) as Hg'.
      unfold grows in *. by etrans.
    + intros field block Hin Hvis Ht Hb.
      destruct (traverseFields_tabled _ _ _ _ _ _ _ _ Hrun Hin Hvis Ht Hb)
        as (name & Hname & Hsome).
      exists name. split; [done|]. split.
      * unfold blockTableNameOf in *. by rewrite <- Hr, <- Hv.
      * by eapply lookup_weaken_is_Some.
Qed.

(** C5 (amended).  After the callback for a block returns, the root-scoped
    relation registry maps [_blocks_<slug>] to a relation of cardinality
    many, not
    localized, whose target is the block's table, and the relation registry
    of the table under construction is as before when the root-scoped
    registry is another Map.  After a whole pass in which the root-scoped
    registry is another Map than the one of the table, or in which no field
    name of the table is such a key, the root-scoped registry holds such a
    relation, to the table of a block with that slug, under the key of
    every block of every blocks field that is not skipped, in the list of
    the pass or of any pass it opens at whatever depth, be it below
    another block. *)
Theorem block_relation_is_recorded_at_root :
  (forall walk a field block r st r' st',
     blockStep walk a field block (r, st) = Ok (r', st') ->
     exists name,
       blockTableNameOf a block = inr name
       /\ rootRelationsToBuild st' !! Some ("_blocks_" ++ b_slug block)
          = Some {| rel_type := many; rel_localized := false;
                    rel_target := Some name |}
       /\ (is_Some (ownRoot st) ->
           relationsToBuild st' = relationsToBuild st))
  /\
  (forall fuel a fs st r stf a' fs' st' field block,
     traverseFields fuel a fs st = Ok (r, stf) ->
     rootSafe a fs st ->
     reaches fuel a fs st a' fs' st' ->
     In field fs' -> visited field = true -> f_type field = FT_blocks ->
     In block (f_blocks field) ->
     exists block' name,
       b_slug block' = b_slug block
       /\ blockTableNameOf a block' = inr name
       /\ rootRelationsToBuild stf !! Some ("_blocks_" ++ b_slug block)
          = Some {| rel_type := many; rel_localized := false;
                    rel_target := Some name |}).
Proof.
  split.
  - intros * H. by apply blockStep_relation in H.
  - intros * H Hs Hreach Hin Hvis Ht Hb.
    destruct (reaches_returns _ _ _ _ _ _ _ Hreach _ _ H)
      as (k' & r' & stf' & Hrun & _ & Hr & Hv & Hsafe).
    destruct (Hsafe Hs) as [Hs' Hent].
    apply Hent. apply (blockEntry_args a'); [done|done|].
    by eapply traverseFields_entry.
Qed.

(** ** Named groups and tabs *)

Implicit Types c : Field.

Lemma length_replaceFirstDot (s : string) :
  String.length (replaceFirstDot s) = String.length s.
Proof.
  induction s as [|c s IH]; simpl; [done|].
  destruct (Ascii.eqb c "."); simpl; by rewrite ?IH.
Qed.

Lemma fieldNameOf_inj a x y : fieldNameOf a x = fieldNameOf a y -> x = y.
Proof. apply append_inj_r. Qed.

Lemma scalarColumn_dispatch walk a pid c cn fn tgt col r st :
  hasManyTrue c = false ->
  scalarColumn (f_type c) cn = Some col ->
  exists f : Adapter -> Adapter,
    (forall ad, tables (f ad) = tables ad
                /\ localization (f ad) = localization ad) /\
    dispatch walk a pid c
      {| columnName := Some cn; fieldName := Some fn; target := tgt |} (r, st)
    = Ok (r, set_adapter f (set_targetTable tgt <[fn := withDefault col c]> st)).
Proof.
  intros Hm Hcol. unfold dispatch.
  destruct (f_type c); simpl in Hcol; try done; injection Hcol as <-;
    try (exists id; split; [done|]; by destruct st, tgt).
  - unfold numberCase, hasManyTruthy. rewrite Hm.
    exists id; split; [done|]; by destruct st, tgt.
  - exists (set_postgis true). split; [done|]. by destruct st, tgt.
  - unfold textCase, hasManyTruthy. rewrite Hm.
    exists id; split; [done|]; by destruct st, tgt.
Qed.

Lemma plain_state tgt fn (wd : Column) (req : bool) (f : Adapter -> Adapter)
  st0 st :
  columns st0 = columns st -> localesColumns st0 = localesColumns st ->
  let st' :=
    when req (set_targetTable tgt (alter notNull fn))
      (set_adapter f (set_targetTable tgt <[fn := wd]> st0)) in
  targetTable tgt st' !! fn = Some (when req notNull wd)
  /\ (forall tgt' k, k <> fn -> targetTable tgt' st' !! k = targetTable tgt' st !! k)
  /\ adapter st' = f (adapter st0).
Proof.
  intros Hc Hl. destruct req, tgt; simpl; (split; [|split; [|done]]);
    rewrite ?lookup_alter_eq, ?lookup_insert_eq; try done;
    intros [] k Hk; simpl;
    rewrite ?lookup_alter_ne, ?lookup_insert_ne by done; congruence.
Qed.

Lemma plain_step walk a pid c cname col r st :
  plainColumn c = true -> f_name c = Some cname ->
  scalarColumn (f_type c) (columnNameOf a cname) = Some col ->
  exists r' st',
    traverseField walk a pid c (r, st) = Ok (r', st')
    /\ tables (adapter st') = tables (adapter st)
    /\ localization (adapter st') = localization (adapter st)
    /\ targetTable (targetOf a c st) st' !! fieldNameOf a cname
       = Some (when (requiredHere a c) notNull (withDefault col c))
    /\ (forall tgt k,
          k <> fieldNameOf a cname ->
          targetTable tgt st' !! k = targetTable tgt st !! k).
Proof.
  intros Hp Hn Hcol. unfold plainColumn in Hp.
  apply andb_prop in Hp as [Hp _]. apply andb_prop in Hp as [Hp Hm].
  apply andb_prop in Hp as [Hp _]. apply andb_prop in Hp as [Hv Hd].
  apply negb_true_iff in Hm.
  rewrite (traverseField_data _ _ _ _ _ _ cname) by done.
  unfold namesOf.
  set (st0 := when _ _ st). set (r0 := when _ _ r).
  destruct (scalarColumn_dispatch walk a pid c (columnNameOf a cname)
              (fieldNameOf a cname) (targetOf a c st) col r0 st0 Hm Hcol)
    as (f & Hf & ->).
  cbn [bind fst snd]. unfold requireColumn. cbn [target fieldName str default from_option id].
  destruct (when_addIndex_columns (needsIndex c) a c cname
              (columnNameOf a cname) (fieldNameOf a cname) (targetOf a c st) st)
    as [Hc Hl]. fold st0 in Hc, Hl.
  assert (Hsome : is_Some
            (targetTable (targetOf a c st)
               (set_adapter f
                  (set_targetTable (targetOf a c st)
                     <[fieldNameOf a cname := withDefault col c]> st0))
             !! fieldNameOf a cname)).
  { destruct (targetOf a c st); simpl; by rewrite lookup_insert_eq. }
  rewrite (bool_decide_eq_true_2 _ Hsome), andb_true_r.
  fold (requiredHere a c).
  destruct (plain_state (targetOf a c st) (fieldNameOf a cname)
              (withDefault col c) (requiredHere a c) f st0 st Hc Hl)
    as (H1 & H2 & H3).
  eexists _, _. split; [done|]. rewrite H3.
  assert (Had : tables (adapter st0) = tables (adapter st)
                /\ localization (adapter st0) = localization (adapter st)).
  { subst st0. destruct (needsIndex c); [|done]. simpl.
    by destruct (addIndex_adapter a c cname (columnNameOf a cname)
                   (fieldNameOf a cname) (targetOf a c st) st)
      as (_ & _ & _ & ? & ?). }
  destruct (Hf (adapter st0)) as [-> ->]. by destruct Had as [-> ->].
Qed.

Lemma targetOf_localization a c st st' :
  localization (adapter st') = localization (adapter st) ->
  targetOf a c st' = targetOf a c st.
Proof. intros H. unfold targetOf, routesToLocales. by rewrite H. Qed.

Lemma plain_fields walk a pid (cs : list Field) :
  Forall (fun c => plainColumn c = true) cs ->
  NoDup (List.map (fun c : Field => f_name c) cs) ->
  forall r st,
  exists r' st',
    forEach (traverseField walk a pid) cs (r, st) = Ok (r', st')
    /\ tables (adapter st') = tables (adapter st)
    /\ localization (adapter st') = localization (adapter st)
    /\ (forall c cname col,
          In c cs -> f_name c = Some cname ->
          scalarColumn (f_type c) (columnNameOf a cname) = Some col ->
          targetTable (targetOf a c st) st' !! fieldNameOf a cname
          = Some (when (requiredHere a c) notNull (withDefault col c)))
    /\ (forall tgt k,
          (forall c cname, In c cs -> f_name c = Some cname ->
                           k <> fieldNameOf a cname) ->
          targetTable tgt st' !! k = targetTable tgt st !! k).
Proof.
  induction cs as [|c cs IH]; intros Hall Hnd r st.
  - exists r, st. simpl. by repeat split.
  - apply Forall_cons in Hall as [Hc Hall].
    apply NoDup_cons in Hnd as [Hnotin Hnd].
    pose proof Hc as Hc'. unfold plainColumn in Hc'.
    apply andb_prop in Hc' as [Hc' Hsc]. apply andb_prop in Hc' as [Hc' _].
    apply andb_prop in Hc' as [_ Hname].
    apply bool_decide_eq_true in Hname as [cname Hname].
    apply bool_decide_eq_true in Hsc as [col0 Hsc].
    assert (exists col, scalarColumn (f_type c) (columnNameOf a cname) = Some col)
      as [col Hcol] by (destruct (f_type c); simpl in *; eauto; done).
    destruct (plain_step walk a pid c cname col r st Hc Hname Hcol)
      as (r1 & st1 & Hstep & Ht1 & Hl1 & Hset1 & Hframe1).
    destruct (IH Hall Hnd r1 st1) as (r' & st' & Hrest & Ht & Hl & Hset & Hframe).
    exists r', st'. simpl. rewrite Hstep. simpl.
    split; [done|]. split; [congruence|]. split; [congruence|]. split.
    + intros c' cname' col' [<-|Hin] Hn' Hcol'.
      * rewrite Hname in Hn'. injection Hn' as <-.
        rewrite Hcol in Hcol'. injection Hcol' as <-.
        rewrite Hframe; [done|].
        intros c2 cname2 Hin2 Hn2 Heq. apply fieldNameOf_inj in Heq.
        subst cname2. apply Hnotin, list_elem_of_In. rewrite Hname, <- Hn2.
        by apply (in_map (fun c : Field => f_name c)).
      * rewrite <- (targetOf_localization a c' st st1) by done.
        by eapply Hset.
    + intros tgt k Hk. rewrite Hframe.
      * apply Hframe1. eapply Hk; [by left|done].
      * intros c2 cname2 Hin2. apply Hk. by right.
Qed.

Lemma group_key_differs a g name st cname :
  fieldNameOf a name
  <> fieldNameOf (intoGroup a g (namesOf a g name st)) cname.
Proof.
  unfold fieldNameOf at 2. simpl. intros H.
  apply (f_equal String.length) in H.
  rewrite length_app, length_replaceFirstDot, length_app in H. simpl in H. lia.
Qed.

Lemma dispatch_group walk a pid g n rs name :
  f_type g ∈ [FT_group; FT_tab] -> f_name g = Some name ->
  dispatch walk a pid g n rs = recurse walk (intoGroup a g n) (f_fields g) rs.
Proof.
  intros Ht Hn. unfold dispatch, groupCase.
  apply list_elem_of_In in Ht. destruct Ht as [<-|[<-|[]]]; by rewrite Hn.
Qed.

Lemma named_group_of_scalars fuel a pid g r st name :
  f_type g ∈ [FT_group; FT_tab] ->
  visited g = true -> fieldAffectsData g = true -> f_name g = Some name ->
  Forall (fun c => plainColumn c = true) (f_fields g) ->
  NoDup (List.map (fun c : Field => f_name c) (f_fields g)) ->
  let a' := intoGroup a g (namesOf a g name st) in
  columnPrefix a' = Some (columnNameOf a name ++ "_")
  /\ fieldPrefix a' = Some (fieldNameOf a name ++ ".")
  /\ exists r' st',
       traverseField (traverseFields (S fuel)) a pid g (r, st) = Ok (r', st')
       /\ tables (adapter st') = tables (adapter st)
       /\ forall c cname col,
            In c (f_fields g) -> f_name c = Some cname ->
            scalarColumn (f_type c) (columnNameOf a' cname) = Some col ->
            targetTable (targetOf a' c st) st' !! fieldNameOf a' cname
            = Some (when (requiredHere a' c) notNull (withDefault col c)).
Proof.
  intros Ht Hv Hd Hn Hall Hnd a'. split; [done|]. split; [done|].
  rewrite (traverseField_data _ _ _ _ _ _ name) by done.
  rewrite (dispatch_group _ _ _ _ _ _ name) by done.
  fold a'. set (st0 := when _ _ st). set (r0 := when _ _ r).
  unfold recurse. cbn [traverseFields].
  destruct (plain_fields (traverseFields fuel) a'
              (parentIDColTypeOf (columns st0)) (f_fields g) Hall Hnd
              noFlags st0) as (r1 & st1 & -> & Ht1 & Hl1 & Hset & _).
  cbn [bind fst snd]. eexists _, _. split; [done|].
  assert (Had : tables (adapter st0) = tables (adapter st)
                /\ localization (adapter st0) = localization (adapter st)).
  { subst st0. destruct (needsIndex g); [|done]. simpl.
    by destruct (addIndex_adapter a g name (columnNameOf a name)
                   (fieldNameOf a name) (targetOf a g st) st)
      as (_ & _ & _ & ? & ?). }
  destruct Had as [Ht0 Hl0].
  unfold requireColumn. cbn [target fieldName namesOf str default from_option id].
  split.
  - match goal with |- context [when ?c _ _] => destruct c end; simpl;
      [destruct (targetOf a g st)|]; simpl; congruence.
  - intros c cname col Hin Hcn Hcol.
    rewrite <- (targetOf_localization a' c st st0) by done.
    rewrite <- (Hset c cname col Hin Hcn Hcol).
    match goal with |- context [when ?c _ _] => destruct c end; [|done].
    cbn [when].
    destruct (targetOf a g st), (targetOf a' c st0); simpl; try done;
      rewrite lookup_alter_ne; try done; apply group_key_differs.
Qed.

Lemma named_group_recurses walk a pid g r st name :
  f_type g ∈ [FT_group; FT_tab] ->
  visited g = true -> fieldAffectsData g = true -> f_name g = Some name ->
  exists r0 st0,
    tables (adapter st0) = tables (adapter st)
    /\ columns st0 = columns st
    /\ localesColumns st0 = localesColumns st
    /\ traverseField walk a pid g (r, st)
       = (sub <- walk (intoGroup a g (namesOf a g name st)) (f_fields g) st0 ;;
          Ok (mergeWalked (fst sub) r0,
              requireColumn a g (namesOf a g name st) (snd sub))).
Proof.
  intros Ht Hv Hd Hn.
  rewrite (traverseField_data _ _ _ _ _ _ name) by done.
  rewrite (dispatch_group _ _ _ _ _ _ name) by done.
  exists (when (routesToLocales a g st) (set_hasLocalizedField true) r),
    (when (needsIndex g)
       (addIndex a g name (columnNameOf a name) (fieldNameOf a name)
          (targetOf a g st)) st).
  split; [|split; [|split]].
  - destruct (needsIndex g); [|done]. simpl.
    by destruct (addIndex_adapter a g name (columnNameOf a name)
                   (fieldNameOf a name) (targetOf a g st) st)
      as (_ & _ & _ & _ & ?).
  - apply when_addIndex_columns.
  - apply when_addIndex_columns.
  - unfold recurse. by destruct (walk _ _ _).
Qed.

(** C6. A named group or tab makes one recursive call over its children,
    on a state with the same table registry and the same column sets as it
    received (the group itself creates no table and no column), with the
    column prefix [<columnName>_] and the field-path prefix [<fieldName>.],
    and afterwards only merges flags.  When the children are visited scalar
    fields with distinct names, the call returns, the table registry is
    unchanged, and the column of every child is in the enclosing column set
    or its locale sibling under the joined path: the key is the group's
    field name, its dot replaced by [_], followed by the child's name, and
    the column is built with the group's column name, [_] and the child's
    snake-cased name. *)
Theorem named_group_is_flattened :
  (forall walk a pid g r st name,
     f_type g ∈ [FT_group; FT_tab] ->
     visited g = true -> fieldAffectsData g = true -> f_name g = Some name ->
     let a' := intoGroup a g (namesOf a g name st) in
     columnPrefix a' = Some (columnNameOf a name ++ "_")
     /\ fieldPrefix a' = Some (fieldNameOf a name ++ ".")
     /\ exists r0 st0,
          tables (adapter st0) = tables (adapter st)
          /\ columns st0 = columns st
          /\ localesColumns st0 = localesColumns st
          /\ traverseField walk a pid g (r, st)
             = (sub <- walk a' (f_fields g) st0 ;;
                Ok (mergeWalked (fst sub) r0,
                    requireColumn a g (namesOf a g name st) (snd sub))))
  /\
  (forall fuel a pid g r st name,
     f_type g ∈ [FT_group; FT_tab] ->
     visited g = true -> fieldAffectsData g = true -> f_name g = Some name ->
     Forall (fun c => plainColumn c = true) (f_fields g) ->
     NoDup (List.map (fun c : Field => f_name c) (f_fields g)) ->
     let a' := intoGroup a g (namesOf a g name st) in
     exists r' st',
       traverseField (traverseFields (S fuel)) a pid g (r, st) = Ok (r', st')
       /\ tables (adapter st') = tables (adapter st)
       /\ forall c cname col,
            In c (f_fields g) -> f_name c = Some cname ->
            scalarColumn (f_type c)
              ((columnNameOf a name ++ "_") ++ leadingUnderscore cname
               ++ toSnakeCase cname) = Some col ->
            targetTable (targetOf a' c st) st'
              !! (replaceFirstDot (fieldNameOf a name ++ ".") ++ cname)
            = Some (when (requiredHere a' c) notNull (withDefault col c))).
Proof.
  split.
  - intros * Ht Hv Hd Hn a'. split; [done|]. split; [done|].
    by apply named_group_recurses.
  - intros * Ht Hv Hd Hn Hall Hnd a'.
    destruct (named_group_of_scalars fuel a pid g r st name Ht Hv Hd Hn
                Hall Hnd) as (_ & _ & H).
    exact H.
Qed.
(** ** Enough fuel gives a result *)

Lemma depths_cons f fs : depths (f :: fs) = Nat.max (depth f) (depths fs).
Proof. done. Qed.

Lemma depths_member f fs : In f fs -> depth f <= depths fs.
Proof.
  induction fs as [|x fs IH]; [done|]. rewrite depths_cons.
  intros [->|Hin]; [lia|]. specialize (IH Hin). lia.
Qed.

Lemma depth_fields f : depths (f_fields f) < depth f.
Proof. destruct f as [p fs bs ts]. simpl. unfold depths. lia. Qed.

Lemma depth_asTab t : depth (asTab t) = depth t.
Proof. by destruct t. Qed.

Lemma depth_tabs f : depths (List.map asTab (f_tabs f)) < depth f.
Proof.
  destruct f as [p fs bs ts]. simpl. unfold depths.
  rewrite List.map_map.
  rewrite (List.map_ext _ depth) by apply depth_asTab. lia.
Qed.

Lemma depth_block f (b : Block) :
  In b (f_blocks f) -> depths (b_fields b) < depth f.
Proof.
  destruct f as [p fs bs ts]. simpl. intros Hin.
  assert (depths (b_fields b)
          <= list_max (List.map (fun b =>
               match b with
               | MkBlock _ bfs => list_max (List.map depth bfs)
               end) bs)); [|lia].
  induction bs as [|x bs IH]; [done|]. simpl.
  destruct Hin as [->|Hin]; [destruct b; simpl; unfold depths; lia|].
  specialize (IH Hin). lia.
Qed.

Lemma bind_fuel {A B} (m : outcome E A) (k : A -> outcome E B) :
  m <> OutOfFuel -> (forall x, m = Ok x -> k x <> OutOfFuel) ->
  bind m k <> OutOfFuel.
Proof. destruct m; simpl; [auto|done|done]. Qed.

Lemma forEach_fuel {A S} (cb : A -> S -> outcome E S) (l : list A) (s : S) :
  (forall x s', In x l -> cb x s' <> OutOfFuel) ->
  forEach cb l s <> OutOfFuel.
Proof.
  revert s. induction l as [|x l IH]; intros s Hcb; simpl; [done|].
  apply bind_fuel; [apply Hcb; by left|].
  intros s' _. apply IH. intros y s'' Hin. apply Hcb. by right.
Qed.

Lemma lift_fuel {A} (x : E + A) : lift x <> OutOfFuel.
Proof. by destruct x. Qed.

Lemma withLocale_fuel k1 k2 k3 k4 (b : bool) st base :
  withLocale k1 k2 k3 k4 b st base <> OutOfFuel.
Proof.
  unfold withLocale. destruct b; [|done].
  by destruct (enums (adapter st) !! "enum__locales").
Qed.

Lemma buildTable_fuel d walk (b : BuildArgs) st :
  fuelled d walk ->
  (bt_disableUnique b = false \/ forall fs, depths (idToUUID fs) <= depths fs) ->
  depths (bt_fields b) <= d ->
  buildTable walk b st <> OutOfFuel.
Proof.
  intros Hw Hb Hd. unfold buildTable.
  destruct (tables (adapter st) !! tableName b); [done|].
  apply bind_fuel; [by apply Hw|]. by intros [? ?] _.
Qed.

Lemma built_fields_depth a fs :
  boundedPass a ->
  depths (if disableUnique a then idToUUID fs else fs) <= depths fs.
Proof. intros [->|H]; [done|]. destruct (disableUnique a); [apply H|done]. Qed.

Lemma recurse_fuel d walk a a' fs rs :
  fuelled d walk -> boundedPass a -> disableUnique a' = disableUnique a ->
  depths fs <= d -> recurse walk a' fs rs <> OutOfFuel.
Proof.
  intros Hw Ha Hdu Hd. destruct rs as [r st]. unfold recurse.
  apply bind_fuel; [|done]. apply Hw; [|done].
  destruct Ha as [Ha|Ha]; [left; congruence|by right].
Qed.

Lemma traverseField_fuel d walk a pid field rs :
  fuelled d walk -> boundedPass a -> depth field <= S d ->
  traverseField walk a pid field rs <> OutOfFuel.
Proof.
  intros Hw Ha Hd. unfold traverseField.
  destruct (isNamedId field); [done|]. destruct (fieldIsVirtual field); [done|].
  apply bind_fuel.
  { destruct rs as [r st]. unfold prepare.
    destruct (fieldAffectsData field); [|done]. by destruct (f_name field). }
  intros [n [r st]] _. cbn [fst snd]. apply bind_fuel; [|done].
  pose proof (depth_fields field) as Hf.
  pose proof (depth_tabs field) as Htabs.
  assert (Hrec : forall a' fs, disableUnique a' = disableUnique a ->
            depths fs < depth field ->
            recurse walk a' fs (r, st) <> OutOfFuel).
  { intros a' fs Hdu Hlt. eapply recurse_fuel; [done|done|done|lia]. }
  assert (Hsel : selectCase walk a pid field n (r, st) <> OutOfFuel).
  { unfold selectCase. apply bind_fuel; [apply lift_fuel|]. intros enum _.
    destruct (_ && _); [|done].
    apply bind_fuel; [apply lift_fuel|]. intros sel _.
    apply bind_fuel; [apply withLocale_fuel|]. intros base _.
    apply bind_fuel; [|done].
    eapply buildTable_fuel; [done| |simpl; unfold depths; simpl; lia].
    simpl. destruct Ha; [by left|by right]. }
  assert (Hrel : relationshipCase a field n (r, st) <> OutOfFuel).
  { unfold relationshipCase.
    destruct (f_relationTo field) as [[slug|slugs]|]; [|done|done].
    destruct (hasManyTruthy field); [done|].
    by destruct (collections (adapter st) !! slug). }
  unfold dispatch. destruct (f_type field); try done.
  - unfold arrayCase. apply bind_fuel; [apply lift_fuel|]. intros name _.
    apply bind_fuel; [apply withLocale_fuel|]. intros base _.
    apply bind_fuel; [|by intros [[? ?] ?] _].
    eapply buildTable_fuel; [done| |].
    + simpl. destruct Ha; [by left|by right].
    + simpl. pose proof (built_fields_depth a (f_fields field) Ha). lia.
  - unfold blocksCase. apply forEach_fuel. intros b [r1 st1] Hin.
    unfold blockStep. apply bind_fuel; [apply lift_fuel|]. intros name _.
    apply bind_fuel; [|by intros [? ?] _].
    destruct (tables (adapter st1) !! name).
    + destruct (_ && _); [|done].
      by destruct (validateExistingBlockIsIdentical _ _ _ _ _).
    + apply bind_fuel; [apply withLocale_fuel|]. intros base _.
      apply bind_fuel; [|by intros [[? ?] ?] _].
      eapply buildTable_fuel; [done| |].
      * simpl. destruct Ha; [by left|by right].
      * simpl. pose proof (built_fields_depth a (b_fields b) Ha).
        pose proof (depth_block field b Hin). lia.
  - by apply Hrec.
  - unfold groupCase. destruct (f_name field); by apply Hrec.
  - unfold numberCase. destruct (hasManyTruthy field); [|done].
    by destruct (f_unique field).
  - by apply Hrec.
  - unfold groupCase. destruct (f_name field); by apply Hrec.
  - by apply Hrec.
  - unfold textCase. destruct (hasManyTruthy field); [|done].
    by destruct (f_unique field).
Qed.

(** With fuel above the nesting depth the walker returns or throws. *)
Lemma traverseFields_returns fuel : fuelled fuel (traverseFields (S fuel)).
Proof.
  induction fuel as [|fuel IH]; intros a fs st Ha Hd; simpl.
  - apply forEach_fuel. intros f rs Hin.
    apply depths_member in Hin. destruct f; simpl in Hin. lia.
  - apply forEach_fuel. intros f rs Hin.
    apply (traverseField_fuel fuel); [done|done|].
    apply depths_member in Hin. lia.
Qed.

(** ** More fuel does not change a result *)

Lemma bind_stable {A B} (m m' : outcome E A) (k k' : A -> outcome E B) :
  (m <> OutOfFuel -> m' = m) ->
  (forall x, m = Ok x -> k x <> OutOfFuel -> k' x = k x) ->
  bind m k <> OutOfFuel -> bind m' k' = bind m k.
Proof.
  intros Hm Hk H. destruct m as [x|e|]; simpl in *.
  - rewrite Hm by done. simpl. by apply Hk.
  - by rewrite Hm.
  - done.
Qed.

Lemma forEach_stable {A S} (cb cb' : A -> S -> outcome E S) (l : list A) (s : S) :
  (forall x s', cb x s' <> OutOfFuel -> cb' x s' = cb x s') ->
  forEach cb l s <> OutOfFuel -> forEach cb' l s = forEach cb l s.
Proof.
  intros Hcb. revert s. induction l as [|x l IH]; intros s; simpl; [done|].
  apply bind_stable; [apply Hcb|]. intros s' _. apply IH.
Qed.

Lemma buildTable_stable walk walk' (b : BuildArgs) st :
  extends walk walk' ->
  buildTable walk b st <> OutOfFuel ->
  buildTable walk' b st = buildTable walk b st.
Proof.
  intros Hw. unfold buildTable.
  destruct (tables (adapter st) !! tableName b); [done|].
  apply bind_stable; [apply Hw|done].
Qed.

Lemma recurse_stable walk walk' a' fs rs :
  extends walk walk' ->
  recurse walk a' fs rs <> OutOfFuel ->
  recurse walk' a' fs rs = recurse walk a' fs rs.
Proof.
  intros Hw. destruct rs as [r st]. unfold recurse.
  apply bind_stable; [apply Hw|done].
Qed.

Lemma blockStep_stable walk walk' a field block rs :
  extends walk walk' ->
  blockStep walk a field block rs <> OutOfFuel ->
  blockStep walk' a field block rs = blockStep walk a field block rs.
Proof.
  intros Hw. destruct rs as [r st]. unfold blockStep.
  apply bind_stable; [done|]. intros name _.
  apply bind_stable; [|done].
  destruct (tables (adapter st) !! name); [done|].
  apply bind_stable; [done|]. intros base _.
  apply bind_stable; [by apply buildTable_stable|done].
Qed.

Lemma traverseField_stable walk walk' a pid field rs :
  extends walk walk' ->
  traverseField walk a pid field rs <> OutOfFuel ->
  traverseField walk' a pid field rs = traverseField walk a pid field rs.
Proof.
  intros Hw. unfold traverseField.
  destruct (isNamedId field); [done|]. destruct (fieldIsVirtual field); [done|].
  apply bind_stable; [done|]. intros [n [r st]] _. cbn [fst snd].
  apply bind_stable; [|done].
  unfold dispatch. destruct (f_type field); try done.
  - unfold arrayCase. apply bind_stable; [done|]. intros name _.
    apply bind_stable; [done|]. intros base _.
    apply bind_stable; [by apply buildTable_stable|done].
  - unfold blocksCase. apply forEach_stable. intros b rs'.
    by apply blockStep_stable.
  - by apply recurse_stable.
  - unfold groupCase. destruct (f_name field); by apply recurse_stable.
  - unfold selectCase. apply bind_stable; [done|]. intros enum _.
    destruct (_ && _); [|done].
    apply bind_stable; [done|]. intros sel _.
    apply bind_stable; [done|]. intros base _.
    apply bind_stable; [by apply buildTable_stable|done].
  - by apply recurse_stable.
  - unfold selectCase. apply bind_stable; [done|]. intros enum _.
    destruct (_ && _); [|done].
    apply bind_stable; [done|]. intros sel _.
    apply bind_stable; [done|]. intros base _.
    apply bind_stable; [by apply buildTable_stable|done].
  - unfold groupCase. destruct (f_name field); by apply recurse_stable.
  - by apply recurse_stable.
Qed.

Lemma traverseFields_S fuel : extends (traverseFields fuel) (traverseFields (S fuel)).
Proof.
  induction fuel as [|fuel IH]; intros a fs st; [done|].
  change (traverseFields (S (S fuel)) a fs st)
    with (forEach (traverseField (traverseFields (S fuel)) a
                     (parentIDColTypeOf (columns st))) fs (noFlags, st)).
  change (traverseFields (S fuel) a fs st)
    with (forEach (traverseField (traverseFields fuel) a
                     (parentIDColTypeOf (columns st))) fs (noFlags, st)).
  apply forEach_stable. intros x s'. by apply traverseField_stable.
Qed.

(** A result reached with some fuel is the result with any larger fuel. *)
Lemma traverseFields_more_fuel fuel k a fs st :
  traverseFields fuel a fs st <> OutOfFuel ->
  traverseFields (k + fuel) a fs st = traverseFields fuel a fs st.
Proof.
  intros H. induction k as [|k IH]; [done|].
  change (S k + fuel) with (S (k + fuel)).
  rewrite <- IH. apply traverseFields_S. by rewrite IH.
Qed.

(** * Further properties of the walker *)

(** ** Scalar fields *)

Lemma dispatch_scalar walk a pid c cn fn tgt col r st :
  hasManyTrue c = false ->
  scalarColumn (f_type c) cn = Some col ->
  dispatch walk a pid c
    {| columnName := Some cn; fieldName := Some fn; target := tgt |} (r, st)
  = Ok (r, when (bool_decide (f_type c = FT_point))
             (set_adapter (set_postgis true))
             (set_targetTable tgt <[fn := withDefault col c]> st)).
Proof.
  intros Hm Hcol. unfold dispatch.
  destruct (f_type c); simpl in Hcol; try done; injection Hcol as <-;
    try done.
  - unfold numberCase, hasManyTruthy. by rewrite Hm.
  - unfold textCase, hasManyTruthy. by rewrite Hm.
Qed.

Lemma plainColumn_inv c :
  plainColumn c = true ->
  visited c = true /\ fieldAffectsData c = true /\ hasManyTrue c = false.
Proof.
  unfold plainColumn. intros Hp.
  apply andb_prop in Hp as [Hp _]. apply andb_prop in Hp as [Hp Hm].
  apply andb_prop in Hp as [Hp _]. apply andb_prop in Hp as [Hv Hd].
  by apply negb_true_iff in Hm.
Qed.

(** The whole effect of the callback on a scalar field. *)
Lemma scalar_result walk a pid c cname col r st :
  plainColumn c = true -> f_name c = Some cname ->
  scalarColumn (f_type c) (columnNameOf a cname) = Some col ->
  let cn := columnNameOf a cname in
  let fn := fieldNameOf a cname in
  let tgt := targetOf a c st in
  traverseField walk a pid c (r, st)
  = Ok (when (routesToLocales a c st) (set_hasLocalizedField true) r,
        when (requiredHere a c) (set_targetTable tgt (alter notNull fn))
          (when (bool_decide (f_type c = FT_point))
             (set_adapter (set_postgis true))
             (set_targetTable tgt <[fn := withDefault col c]>
                (when (needsIndex c) (addIndex a c cname cn fn tgt) st)))).
Proof.
  intros Hp Hn Hcol cn fn tgt.
  destruct (plainColumn_inv c Hp) as (Hv & Hd & Hm).
  rewrite (traverseField_data _ _ _ _ _ _ cname) by done.
  unfold namesOf. fold cn fn tgt.
  rewrite (dispatch_scalar _ _ _ _ _ _ _ col) by done.
  cbn [bind fst snd]. unfold requireColumn.
  cbn [target fieldName str default from_option id].
  match goal with
  | |- context [bool_decide (is_Some ?x)] =>
      assert (Hs : is_Some x)
  end.
  { destruct (bool_decide (f_type c = FT_point)), tgt; simpl;
      by rewrite lookup_insert_eq. }
  rewrite (bool_decide_eq_true_2 _ Hs), andb_true_r. done.
Qed.

Lemma scalar_needsIndex c :
  plainColumn c = true -> f_relationTo c = None ->
  needsIndex c = f_unique c || f_index c.
Proof.
  intros Hp Hrel. destruct (plainColumn_inv c Hp) as (_ & _ & Hm).
  unfold plainColumn in Hp. apply andb_prop in Hp as [_ Hsc].
  apply bool_decide_eq_true in Hsc as [col Hsc].
  unfold needsIndex, relationToIsArray. rewrite Hm, Hrel.
  destruct (f_type c); simpl in Hsc; try done;
    by rewrite ?orb_false_r, ?andb_true_r.
Qed.

Lemma fieldConstraints_set (fc : gmap string (gmap string string))
  (root k v : string) :
  alter <[k := v]> root
    (if fc !! root is None then <[root := ∅]> fc else fc)
  = <[root := <[k := v]> (default ∅ (fc !! root))]> fc.
Proof.
  apply map_eq. intros i. destruct (decide (root = i)) as [<-|Hne].
  - rewrite lookup_alter_eq, lookup_insert_eq.
    destruct (fc !! root) as [x|] eqn:Hx; simpl.
    + by rewrite Hx.
    + by rewrite lookup_insert_eq.
  - rewrite lookup_alter_ne, lookup_insert_ne by done.
    destruct (fc !! root); [done|]. by rewrite lookup_insert_ne.
Qed.

(** X1. A visited, named, single-valued field of a scalar type (checkbox,
    code, email, textarea, text, date, json, richText, number, point)
    makes the callback return, whatever the recursive walker is, and
    write exactly one column: it is stored under the field name in the
    column set the field is routed to, built from the snake-cased column
    name with the field's default, and made NOT NULL exactly when the
    field is required, has no display condition and NOT NULL is not
    disabled.  Every other key of both column sets, the column set the
    field is not routed to, the table registry, both relation registries
    and the relationship set are left as they were. *)
Theorem scalar_field_writes_one_column walk a pid c cname col r st :
  plainColumn c = true -> f_name c = Some cname ->
  scalarColumn (f_type c) (columnNameOf a cname) = Some col ->
  exists r' st',
    traverseField walk a pid c (r, st) = Ok (r', st')
    /\ targetTable (targetOf a c st) st' !! fieldNameOf a cname
       = Some (when (negb (disableNotNull a) && f_required c
                     && negb (f_condition c)) notNull (withDefault col c))
    /\ (forall tgt k,
          k <> fieldNameOf a cname ->
          targetTable tgt st' !! k = targetTable tgt st !! k)
    /\ match targetOf a c st with
       | base_table => localesColumns st' = localesColumns st
       | locales_table => columns st' = columns st
       end
    /\ tables (adapter st') = tables (adapter st)
    /\ relationsToBuild st' = relationsToBuild st
    /\ rootRelationsToBuild st' = rootRelationsToBuild st
    /\ relationships st' = relationships st.
Proof.
  intros Hp Hn Hcol.
  rewrite (scalar_result _ _ _ _ cname col) by done.
  eexists _, _. split; [done|]. fold (requiredHere a c).
  set (st0 := when (needsIndex c) _ st).
  assert (H0 : columns st0 = columns st /\ localesColumns st0 = localesColumns st
               /\ tables (adapter st0) = tables (adapter st)
               /\ relationsToBuild st0 = relationsToBuild st
               /\ rootRelationsToBuild st0 = rootRelationsToBuild st
               /\ relationships st0 = relationships st).
  { subst st0. destruct (needsIndex c); [|done]. simpl. unfold addIndex.
    destruct (negb (disableUnique a) && f_unique c);
      by destruct (targetOf a c st). }
  destruct H0 as (Hc & Hl & Ht & Hr & Hrr & Hrs).
  destruct (requiredHere a c), (bool_decide (f_type c = FT_point)),
    (targetOf a c st); simpl;
    rewrite ?lookup_alter_eq, ?lookup_insert_eq;
    (split; [done|]);
    (split; [intros [] k Hk; simpl;
             rewrite ?lookup_alter_ne, ?lookup_insert_ne by done; congruence|]);
    done.
Qed.

(** X2. For such a scalar field, an index is created exactly when the field
    asks for [unique] or [index]: it is stored in the index set of the
    routed table under the name the index-name builder gives for
    [<newTableName>_<columnName>], it is on the field name (with
    [_locale] beside it when the field itself is localized), and it is
    unique exactly when the field is unique and the pass does not
    disable unique.  In that last case, and only then, the adapter's
    field constraints of the root table get the entry [<columnName>_idx]
    with the unreplaced field path; otherwise the field constraints and,
    without an index, both index sets are unchanged. *)
Theorem scalar_field_index walk a pid c cname col r st :
  plainColumn c = true -> f_name c = Some cname ->
  scalarColumn (f_type c) (columnNameOf a cname) = Some col ->
  f_relationTo c = None ->
  let idx := buildIndexName (newTableName a ++ "_" ++ columnNameOf a cname) in
  let unique := negb (disableUnique a) && f_unique c in
  exists r' st',
    traverseField walk a pid c (r, st) = Ok (r', st')
    /\ (if f_unique c || f_index c
        then targetIndexes (targetOf a c st) st'
             = <[idx :=
                   {| idx_on :=
                        if f_localized c
                        then [fieldNameOf a cname; "_locale"]
                        else [fieldNameOf a cname];
                      idx_name := idx;
                      idx_unique := unique |}]>
                 (targetIndexes (targetOf a c st) st)
        else indexes st' = indexes st /\ localesIndexes st' = localesIndexes st)
    /\ fieldConstraints (adapter st')
       = if unique
         then <[rootTableName a :=
                  <[columnNameOf a cname ++ "_idx" :=
                      orEmpty (fieldPrefix a) ++ cname]>
                    (default ∅
                       (fieldConstraints (adapter st) !! rootTableName a))]>
                (fieldConstraints (adapter st))
         else fieldConstraints (adapter st).
Proof.
  intros Hp Hn Hcol Hrel idx unique.
  rewrite (scalar_result _ _ _ _ cname col) by done.
  rewrite (scalar_needsIndex c Hp Hrel).
  eexists _, _. split; [done|].
  unfold addIndex. fold unique. fold idx.
  destruct (f_unique c) eqn:Hu; destruct (f_index c) eqn:Hi;
    destruct (disableUnique a) eqn:Hdu; subst unique; simpl;
    destruct (requiredHere a c), (bool_decide (f_type c = FT_point)),
      (targetOf a c st); simpl; rewrite ?fieldConstraints_set; done.
Qed.

(** X3. After the callback on a scalar field the adapter's postgis switch is
    on when the field is a point, and is what it was for every other
    scalar type: a point field is the only scalar field that touches it,
    and it only switches it on. *)
Theorem point_field_enables_postgis walk a pid c cname col r st :
  plainColumn c = true -> f_name c = Some cname ->
  scalarColumn (f_type c) (columnNameOf a cname) = Some col ->
  exists r' st',
    traverseField walk a pid c (r, st) = Ok (r', st')
    /\ postgis (adapter st')
       = (bool_decide (f_type c = FT_point) || postgis (adapter st)).
Proof.
  intros Hp Hn Hcol.
  rewrite (scalar_result _ _ _ _ cname col) by done.
  eexists _, _. split; [done|].
  unfold addIndex.
  destruct (needsIndex c), (negb (disableUnique a) && f_unique c),
    (requiredHere a c), (bool_decide (f_type c = FT_point)),
    (targetOf a c st); done.
Qed.

(** ** Multi-valued fields *)

Lemma manyScalar_prepare a field st :
  manyScalar field = true ->
  routesToLocales a field st = false /\ needsIndex field = false.
Proof.
  intros Hm. apply andb_prop in Hm as [_ Hm].
  unfold routesToLocales, needsIndex. rewrite Hm. simpl.
  by rewrite !andb_false_r.
Qed.

(** X4. A visited multi-valued text or number field that does not ask for
    unique writes nothing: when no column is stored under its field
    name, the callback returns the state it received, with no column and
    no index even if the field asks for [index].  It only raises flags:
    the has-many flag of its kind becomes ['index'] when the field is
    indexed, stays as it was when already set, and becomes [true]
    otherwise; the localized-many flag of its kind is raised when the
    field is localized with localization configured or the pass is
    inside a localized array or block or forces localization; the flags
    of the other kind, [hasLocalizedField] and
    [hasLocalizedRelationshipField] are unchanged. *)
Theorem hasMany_scalar_writes_no_column walk a pid field name r st :
  visited field = true -> fieldAffectsData field = true ->
  f_name field = Some name ->
  manyScalar field = true -> f_unique field = false ->
  columns st !! fieldNameOf a name = None ->
  exists r',
    traverseField walk a pid field (r, st) = Ok (r', st)
    /\ hasLocalizedField r' = hasLocalizedField r
    /\ hasLocalizedRelationshipField r' = hasLocalizedRelationshipField r
    /\ let localized :=
         (f_localized field && localization (adapter st))
         || withinLocalizedArrayOrBlock a || forceLocalized a in
       let bump (t : Tri) :=
         if f_index field then indexed
         else if truthy t then t else yes in
       if bool_decide (f_type field = FT_number)
       then hasManyNumberField r' = bump (hasManyNumberField r)
            /\ hasLocalizedManyNumberField r'
               = (localized || hasLocalizedManyNumberField r)
            /\ hasManyTextField r' = hasManyTextField r
            /\ hasLocalizedManyTextField r' = hasLocalizedManyTextField r
       else hasManyTextField r' = bump (hasManyTextField r)
            /\ hasLocalizedManyTextField r'
               = (localized || hasLocalizedManyTextField r)
            /\ hasManyNumberField r' = hasManyNumberField r
            /\ hasLocalizedManyNumberField r' = hasLocalizedManyNumberField r.
Proof.
  intros Hv Hd Hn Hm Hu Hkey.
  rewrite (traverseField_data _ _ _ _ _ _ name) by done.
  destruct (manyScalar_prepare a field st Hm) as [Hroute Hidx].
  unfold namesOf, targetOf. rewrite Hroute, Hidx. cbn [when].
  apply andb_prop in Hm as [Ht Hm]. apply bool_decide_eq_true in Ht.
  apply list_elem_of_In in Ht.
  assert (Hreq : forall s, columns s = columns st ->
            requireColumn a field
              {| columnName := Some (columnNameOf a name);
                 fieldName := Some (fieldNameOf a name);
                 target := base_table |} s = s).
  { intros s Hs. unfold requireColumn. simpl. rewrite Hs, Hkey.
    rewrite bool_decide_eq_false_2 by (by intros [? ?]).
    by rewrite andb_false_r. }
  unfold dispatch, isLocalizedHere.
  destruct Ht as [Ht|[Ht|[]]]; rewrite <- Ht.
  - unfold numberCase, hasManyTruthy, manyFlags, isLocalizedHere.
    rewrite Hm, Hu. cbn [bind fst snd]. rewrite Hreq by done.
    eexists. split; [done|].
    rewrite bool_decide_eq_true_2 by done.
    destruct r as [? ? ? ? hn ht]; simpl.
    by destruct ((f_localized field && localization (adapter st))
                 || withinLocalizedArrayOrBlock a || forceLocalized a),
      (f_index field), hn.
  - unfold textCase, hasManyTruthy, manyFlags, isLocalizedHere.
    rewrite Hm, Hu. cbn [bind fst snd]. rewrite Hreq by done.
    eexists. split; [done|].
    rewrite bool_decide_eq_false_2 by done.
    destruct r as [? ? ? ? hn ht]; simpl.
    by destruct ((f_localized field && localization (adapter st))
                 || withinLocalizedArrayOrBlock a || forceLocalized a),
      (f_index field), ht.
Qed.

Lemma union_swap (X Y Z : gset string) : X ∪ (Y ∪ Z) = Y ∪ X ∪ Z.
Proof. rewrite (assoc_L (∪)). by rewrite (comm_L (∪) X Y). Qed.

Lemma addRelationships_fold a field (slugs : list string) st :
  let st' := fold_left (fun st relation => addRelationship a field relation st)
               slugs st in
  relationships st' = list_to_set slugs ∪ relationships st
  /\ uniqueRelationships st'
     = (if f_unique field && negb (disableUnique a)
           && negb (disableRelsTableUnique a)
        then list_to_set slugs ∪ uniqueRelationships st
        else uniqueRelationships st)
  /\ adapter st' = adapter st /\ columns st' = columns st
  /\ localesColumns st' = localesColumns st /\ indexes st' = indexes st
  /\ localesIndexes st' = localesIndexes st
  /\ relationsToBuild st' = relationsToBuild st
  /\ rootRelationsToBuild st' = rootRelationsToBuild st.
Proof.
  revert st. induction slugs as [|x l IH]; intros st; simpl.
  - destruct (_ && _); by rewrite ?union_empty_l_L.
  - destruct (IH (addRelationship a field x st))
      as (H1 & H2 & H3 & H4 & H5 & H6 & H7 & H8 & H9).
    rewrite H1, H2, H3, H4, H5, H6, H7, H8, H9. unfold addRelationship.
    destruct (_ && _); simpl; by rewrite ?union_swap.
Qed.

Lemma manyTargets_prepare field slugs :
  manyTargets field = Some slugs -> needsIndex field = false.
Proof.
  unfold manyTargets, needsIndex, relationToIsArray.
  destruct (f_relationTo field) as [[slug|l]|]; [|by rewrite andb_false_r|done].
  destruct (hasManyTrue field); [|done]. by rewrite !andb_false_r.
Qed.

(** X5. A visited relationship or upload field with several target
    collections, or with one target and [hasMany: true], writes no
    column, no index and no relation: its target slugs are added to the
    relationship set, and to the unique relationship set exactly when
    the field is unique and neither [disableUnique] nor
    [disableRelsTableUnique] is set; the adapter, both column sets, both
    index sets and both relation registries are unchanged.
    [hasLocalizedRelationshipField] is raised when the field is
    localized with localization configured or the pass is inside a
    localized array or block, and is otherwise as it was. *)
Theorem many_relationship_is_registered walk a pid field name slugs r st :
  visited field = true -> fieldAffectsData field = true ->
  f_name field = Some name ->
  f_type field ∈ [FT_relationship; FT_upload] ->
  manyTargets field = Some slugs ->
  targetTable (targetOf a field st) st !! fieldNameOf a name = None ->
  exists r' st',
    traverseField walk a pid field (r, st) = Ok (r', st')
    /\ relationships st' = list_to_set slugs ∪ relationships st
    /\ uniqueRelationships st'
       = (if f_unique field && negb (disableUnique a)
             && negb (disableRelsTableUnique a)
          then list_to_set slugs ∪ uniqueRelationships st
          else uniqueRelationships st)
    /\ adapter st' = adapter st /\ columns st' = columns st
    /\ localesColumns st' = localesColumns st /\ indexes st' = indexes st
    /\ localesIndexes st' = localesIndexes st
    /\ relationsToBuild st' = relationsToBuild st
    /\ rootRelationsToBuild st' = rootRelationsToBuild st
    /\ hasLocalizedRelationshipField r'
       = ((f_localized field && localization (adapter st))
          || withinLocalizedArrayOrBlock a
          || hasLocalizedRelationshipField r).
Proof.
  intros Hv Hd Hn Ht Hmany Hkey.
  rewrite (traverseField_data _ _ _ _ _ _ name) by done.
  rewrite (manyTargets_prepare field slugs Hmany). cbn [when].
  assert (Hdis : forall n rs,
            dispatch walk a pid field n rs = relationshipCase a field n rs).
  { intros n rs. unfold dispatch. apply list_elem_of_In in Ht.
    by destruct Ht as [<-|[<-|[]]]. }
  rewrite Hdis. unfold relationshipCase, relationshipTail, hasManyTruthy.
  assert (Hreq : forall s,
            columns s = columns st -> localesColumns s = localesColumns st ->
            requireColumn a field (namesOf a field name st) s = s).
  { intros s Hc Hl. unfold requireColumn, namesOf.
    cbn [target fieldName str default from_option id].
    replace (targetTable (targetOf a field st) s)
      with (targetTable (targetOf a field st) st)
      by (destruct (targetOf a field st); simpl; congruence).
    rewrite Hkey. rewrite bool_decide_eq_false_2 by (by intros [? ?]).
    by rewrite andb_false_r. }
  unfold manyTargets in Hmany.
  destruct (f_relationTo field) as [[slug|l]|]; [| |done].
  - destruct (hasManyTrue field); [|done]. injection Hmany as <-.
    cbn [bind fst snd].
    pose proof (addRelationships_fold a field [slug] st) as H. simpl in H.
    destruct H as (H1 & H2 & H3 & H4 & H5 & H6 & H7 & H8 & H9).
    rewrite Hreq by done. eexists _, _. split; [done|].
    rewrite H1, H2, H3, H4, H5, H6, H7, H8, H9.
    repeat split. destruct r as [? ? ? hr ? ?]; simpl.
    destruct (routesToLocales a field st); simpl;
      by destruct ((f_localized field && localization (adapter st))
                   || withinLocalizedArrayOrBlock a), hr.
  - injection Hmany as <-. cbn [bind fst snd].
    destruct (addRelationships_fold a field l st)
      as (H1 & H2 & H3 & H4 & H5 & H6 & H7 & H8 & H9).
    rewrite Hreq by done. eexists _, _. split; [done|].
    rewrite H1, H2, H3, H4, H5, H6, H7, H8, H9.
    repeat split. destruct r as [? ? ? hr ? ?]; simpl.
    destruct (routesToLocales a field st); simpl;
      by destruct ((f_localized field && localization (adapter st))
                   || withinLocalizedArrayOrBlock a), hr.
Qed.

(** ** Enumerations *)

Lemma dispatch_select walk a pid field n rs :
  f_type field ∈ [FT_radio; FT_select] ->
  dispatch walk a pid field n rs = selectCase walk a pid field n rs.
Proof.
  intros Ht. unfold dispatch. apply list_elem_of_In in Ht.
  by destruct Ht as [<-|[<-|[]]].
Qed.

(** X6. A visited radio field, or select field that is not multi-valued,
    registers an enum under the name the table-name builder gives for
    the prefix [enum_<newTableName>_], whose values are the option
    values in order (the [value] of an option object, the option itself
    otherwise), replacing an enum of that name; and it writes one column
    of that enum's type under the field name in the routed column set,
    NOT NULL under the same condition as a scalar column.  The table
    registry and the relation registry are unchanged. *)
Theorem select_field_registers_enum walk a pid field name enum r st :
  visited field = true -> fieldAffectsData field = true ->
  f_name field = Some name ->
  f_type field ∈ [FT_radio; FT_select] ->
  bool_decide (f_type field = FT_select) && hasManyTrue field = false ->
  createTableName (config_field field) (newTableName a)
    ("enum_" ++ newTableName a ++ "_") enumName true false = inr enum ->
  exists r' st',
    traverseField walk a pid field (r, st) = Ok (r', st')
    /\ enums (adapter st')
       = <[enum := List.map optionValue (f_options field)]> (enums (adapter st))
    /\ targetTable (targetOf a field st) st' !! fieldNameOf a name
       = Some (when (negb (disableNotNull a) && f_required field
                     && negb (f_condition field)) notNull
                 (withDefault (column (PgEnum enum) (columnNameOf a name)) field))
    /\ tables (adapter st') = tables (adapter st)
    /\ relationsToBuild st' = relationsToBuild st.
Proof.
  intros Hv Hd Hn Ht Hsingle Hname.
  rewrite (traverseField_data _ _ _ _ _ _ name) by done.
  rewrite dispatch_select by done.
  unfold selectCase, hasManyTruthy. rewrite Hname, Hsingle.
  unfold namesOf. cbn [bind lift fst snd]. unfold setColumn, requireColumn.
  cbn [target fieldName columnName str default from_option id].
  set (st0 := when (needsIndex field) _ st).
  assert (H0 : enums (adapter st0) = enums (adapter st)
               /\ tables (adapter st0) = tables (adapter st)
               /\ relationsToBuild st0 = relationsToBuild st).
  { subst st0. destruct (needsIndex field); [|done]. simpl. unfold addIndex.
    destruct (negb (disableUnique a) && f_unique field);
      by destruct (targetOf a field st). }
  destruct H0 as (He & Htab & Hr).
  match goal with
  | |- context [bool_decide (is_Some ?x)] => assert (Hs : is_Some x)
  end.
  { destruct (targetOf a field st); simpl; by rewrite lookup_insert_eq. }
  rewrite (bool_decide_eq_true_2 _ Hs), andb_true_r.
  eexists _, _. split; [done|].
  destruct (negb (disableNotNull a) && f_required field
            && negb (f_condition field)), (targetOf a field st); simpl;
    rewrite ?lookup_alter_eq, ?lookup_insert_eq, ?He, ?Htab, ?Hr; done.
Qed.

(** ** Errors *)

Lemma dispatch_array walk a pid field n rs :
  f_type field = FT_array ->
  dispatch walk a pid field n rs = arrayCase walk a pid field n rs.
Proof. intros Ht. unfold dispatch. by rewrite Ht. Qed.

(** X7. An error thrown by the table-name builder leaves the callback as it
    is: for an array field whose table name is refused, for a radio or
    select field whose enum name is refused, and for a blocks field at
    the first block whose table name is refused, after the blocks before
    it were processed.  Nothing is caught or wrapped. *)
Theorem naming_errors_abort :
  (forall walk a pid field name r st e,
     visited field = true -> fieldAffectsData field = true ->
     f_name field = Some name -> f_type field = FT_array ->
     createTableName (config_field field) (newTableName a)
       (newTableName a ++ "_") dbName true (versions a) = inl e ->
     traverseField walk a pid field (r, st) = Throw (Raised e))
  /\
  (forall walk a pid field name r st e,
     visited field = true -> fieldAffectsData field = true ->
     f_name field = Some name -> f_type field ∈ [FT_radio; FT_select] ->
     createTableName (config_field field) (newTableName a)
       ("enum_" ++ newTableName a ++ "_") enumName true false = inl e ->
     traverseField walk a pid field (r, st) = Throw (Raised e))
  /\
  (forall walk a field bs1 block bs2 rs rs1 e,
     f_blocks field = (bs1 ++ block :: bs2)%list ->
     forEach (blockStep walk a field) bs1 rs = Ok rs1 ->
     blockTableNameOf a block = inl e ->
     blocksCase walk a field rs = Throw (Raised e)).
Proof.
  split; [|split].
  - intros * Hv Hd Hn Ht He.
    rewrite (traverseField_data _ _ _ _ _ _ name) by done.
    rewrite dispatch_array by done. unfold arrayCase. by rewrite He.
  - intros * Hv Hd Hn Ht He.
    rewrite (traverseField_data _ _ _ _ _ _ name) by done.
    rewrite dispatch_select by done. unfold selectCase. by rewrite He.
  - intros * Hbs Hpre He. unfold blocksCase. rewrite Hbs.
    eapply forEach_abort; [done|]. destruct rs1 as [r1 st1].
    unfold blockStep. by rewrite He.
Qed.

(** X8. A visited single-target relationship or upload field whose target
    slug is not among the adapter's collections makes the callback throw
    a [TypeError]: the walker reads [.config] of an undefined entry,
    without a check of its own. *)
Theorem relationship_to_missing_collection_throws
  walk a pid field name slug r st :
  visited field = true -> fieldAffectsData field = true ->
  f_name field = Some name ->
  singleRelationship field slug ->
  collections (adapter st) !! slug = None ->
  exists message,
    traverseField walk a pid field (r, st) = Throw (TypeError message).
Proof.
  intros Hv Hd Hn Hs Hc.
  rewrite (traverseField_data _ _ _ _ _ _ name) by done.
  rewrite (dispatch_relationship _ _ _ _ _ _ slug Hs).
  destruct Hs as (Ht & Hrel & Hm).
  unfold relationshipCase, hasManyTruthy. rewrite Hrel, Hm.
  match goal with
  | |- context [collections (adapter ?s) !! slug] =>
      replace (collections (adapter s) !! slug) with (@None (list Field))
  end; [by eexists|].
  destruct (needsIndex field); [|done]. simpl.
  destruct (addIndex_adapter a field name (columnNameOf a name)
              (fieldNameOf a name) (targetOf a field st) st) as (-> & _).
  done.
Qed.

(** X9. A visited array field that is localized (by itself with localization
    configured, by an enclosing localized array or block, or by forced
    localization) makes the callback throw a [TypeError] when the
    adapter has no enum [enum__locales]: the walker calls it without a
    check. *)
Theorem localized_array_needs_locales_enum
  walk a pid field name arrayTableName r st :
  visited field = true -> fieldAffectsData field = true ->
  f_name field = Some name -> f_type field = FT_array ->
  createTableName (config_field field) (newTableName a)
    (newTableName a ++ "_") dbName true (versions a) = inr arrayTableName ->
  (f_localized field && localization (adapter st))
  || withinLocalizedArrayOrBlock a || forceLocalized a = true ->
  enums (adapter st) !! "enum__locales" = None ->
  exists message,
    traverseField walk a pid field (r, st) = Throw (TypeError message).
Proof.
  intros Hv Hd Hn Ht Hname Hloc Henum.
  rewrite (traverseField_data _ _ _ _ _ _ name) by done.
  rewrite dispatch_array by done. unfold arrayCase. rewrite Hname.
  cbn [bind lift]. unfold isLocalizedHere, withLocale.
  assert (Hidx : needsIndex field = false).
  { unfold needsIndex. rewrite Ht. simpl. by rewrite andb_false_r. }
  rewrite Hidx. cbn [when]. rewrite Hloc, Henum. by eexists.
Qed.

(** ** What a pass keeps *)

Lemma kept_refl du st : kept du st st.
Proof. repeat split; auto. Qed.

Lemma kept_trans du st1 st2 st3 :
  kept du st1 st2 -> kept du st2 st3 -> kept du st1 st3.
Proof.
  intros (R1 & U1 & S1 & P1 & E1 & D1) (R2 & U2 & S2 & P2 & E2 & D2).
  split; [by etrans|]. split; [by etrans|]. split; [auto|].
  split; [auto|]. split; [by etrans|].
  intros Hdu. destruct (D1 Hdu) as (Du1 & Df1 & Di1).
  destruct (D2 Hdu) as (Du2 & Df2 & Di2).
  split; [congruence|]. split; [congruence|].
  intros tgt k i Hi. destruct (Di2 tgt k i Hi) as [Hi'|?]; [|by right].
  by apply Di1.
Qed.

(** A step that touches none of the shared registries. *)
Lemma kept_same du st st' :
  relationships st' = relationships st ->
  uniqueRelationships st' = uniqueRelationships st ->
  postgis (adapter st') = postgis (adapter st) ->
  enums (adapter st') = enums (adapter st) ->
  fieldConstraints (adapter st') = fieldConstraints (adapter st) ->
  indexes st' = indexes st -> localesIndexes st' = localesIndexes st ->
  kept du st st'.
Proof.
  intros HR HU HP HE HF HI HL. unfold kept.
  rewrite HR, HU, HP, HE, HF. repeat split; auto.
  intros [] k i; simpl; rewrite ?HI, ?HL; auto.
Qed.

Lemma set_targetTable_kept du tgt f st : kept du st (set_targetTable tgt f st).
Proof. apply kept_same; by destruct tgt. Qed.

Lemma when_kept du (c : bool) (f : State -> State) st :
  (forall s, kept du s (f s)) -> kept du st (when c f st).
Proof. intros H. destruct c; [apply H|apply kept_refl]. Qed.

Lemma addIndex_kept a field name cn fn tgt st :
  kept (disableUnique a) st (addIndex a field name cn fn tgt st).
Proof.
  unfold addIndex. set (u := negb (disableUnique a) && f_unique field).
  destruct (disableUnique a) eqn:Hdu.
  - subst u. simpl. repeat split; try (by destruct tgt).
    intros tgt' k i. destruct tgt, tgt'; simpl; auto;
      (destruct (decide (buildIndexName (newTableName a ++ "_" ++ cn) = k))
         as [<-|Hk];
       [rewrite lookup_insert_eq; intros [= <-]; by right
       |rewrite lookup_insert_ne by done; auto]).
  - repeat split; by destruct u, tgt.
Qed.

Lemma prepare_kept a field r st n r' st' :
  prepare a field (r, st) = Ok (n, (r', st')) ->
  kept (disableUnique a) st st'.
Proof.
  unfold prepare. destruct (fieldAffectsData field).
  - destruct (f_name field); [|done]. intros [= <- <- <-].
    apply when_kept. intros ?. apply addIndex_kept.
  - intros [= <- <- <-]. apply kept_refl.
Qed.

Lemma requireColumn_kept du a field n st :
  kept du st (requireColumn a field n st).
Proof. apply when_kept. intros ?. apply set_targetTable_kept. Qed.

Lemma addRelationship_kept a field relation st :
  kept (disableUnique a) st (addRelationship a field relation st).
Proof.
  unfold addRelationship.
  set (u := f_unique field && negb (disableUnique a)
            && negb (disableRelsTableUnique a)).
  assert (Hu : disableUnique a = true -> u = false).
  { intros Hdu. subst u. rewrite Hdu. by destruct (f_unique field). }
  unfold kept. destruct u; simpl.
  - split; [apply union_subseteq_r|]. split; [apply union_subseteq_r|].
    split; [intros H; apply union_mono_l, H|]. split; [done|].
    split; [done|]. intros Hdu. by specialize (Hu Hdu).
  - split; [apply union_subseteq_r|]. split; [done|].
    split; [intros H; etrans; [exact H|apply union_subseteq_r]|].
    split; [done|]. split; [done|]. auto.
Qed.

Lemma forEach_kept {A} du
  (cb : A -> Result * State -> outcome E (Result * State))
  (l : list A) r st r' st' :
  (forall x r1 st1 r2 st2,
     In x l -> cb x (r1, st1) = Ok (r2, st2) -> kept du st1 st2) ->
  forEach cb l (r, st) = Ok (r', st') -> kept du st st'.
Proof.
  revert r st. induction l as [|x l IH]; intros r st Hcb; simpl.
  - intros [= <- <-]. apply kept_refl.
  - intros H. apply bind_Ok in H as ([r1 st1] & Hx & H).
    eapply kept_trans.
    + eapply Hcb; [by left|done].
    + eapply IH; [|done]. intros. eapply Hcb; [by right|done].
Qed.

Lemma buildTable_kept walk (b : BuildArgs) st flags rel st' :
  keeps walk ->
  buildTable walk b st = Ok (flags, rel, st') ->
  kept (bt_disableUnique b) st st'.
Proof.
  intros Hw. unfold buildTable.
  destruct (tables (adapter st) !! tableName b).
  - intros [= <- <- <-]. apply kept_refl.
  - intros H. apply bind_Ok in H as ([r1 st1] & Hwalk & H).
    injection H as <- <- <-.
    apply Hw in Hwalk as (R & U & S & P & En & D). simpl in *.
    unfold kept, set_rootRelationsToBuild. cbn [ownRoot].
    destruct (ownRoot st); simpl;
      (split; [done|]; split; [done|]; split; [done|]; split; [done|];
       split; [done|]; intros Hdu; destruct (D Hdu) as (? & ? & _); auto).
Qed.

Lemma recurse_kept walk a a' fs r st r' st' :
  keeps walk -> disableUnique a' = disableUnique a ->
  recurse walk a' fs (r, st) = Ok (r', st') ->
  kept (disableUnique a) st st'.
Proof.
  intros Hw Ha H. apply bind_Ok in H as ([r1 st1] & Hwalk & H).
  injection H as <- <-. rewrite <- Ha. by eapply Hw.
Qed.

(** A step that only changes the adapter's relations, the relation
    registries or the tables after a [buildTable]. *)
Lemma kept_after du st st1 st' :
  kept du st st1 ->
  relationships st' = relationships st1 ->
  uniqueRelationships st' = uniqueRelationships st1 ->
  postgis (adapter st') = postgis (adapter st1) ->
  enums (adapter st') = enums (adapter st1) ->
  fieldConstraints (adapter st') = fieldConstraints (adapter st1) ->
  indexes st' = indexes st1 -> localesIndexes st' = localesIndexes st1 ->
  kept du st st'.
Proof.
  intros H ? ? ? ? ? ? ?. eapply kept_trans; [exact H|]. by apply kept_same.
Qed.

Lemma kept_set_root du (f : RelationMap -> RelationMap) st :
  kept du st (set_rootRelationsToBuild f st).
Proof.
  destruct (set_root_frame f st) as (Ha & _ & Hi & _ & Hli & Hr & Hu & _).
  eapply kept_after; [apply kept_refl|done|done|..]; try done;
    by rewrite Ha.
Qed.

Lemma arrayCase_kept walk a pid field n r st r' st' :
  keeps walk ->
  arrayCase walk a pid field n (r, st) = Ok (r', st') ->
  kept (disableUnique a) st st'.
Proof.
  intros Hw H. unfold arrayCase in H.
  apply bind_Ok in H as (name & _ & H).
  apply bind_Ok in H as (base & _ & H).
  apply bind_Ok in H as ([[flags rel] st1] & Hb & H).
  injection H as <- <-.
  apply buildTable_kept in Hb; [|done]. by eapply kept_after.
Qed.

Lemma blockStep_kept walk a field block r st r' st' :
  keeps walk ->
  blockStep walk a field block (r, st) = Ok (r', st') ->
  kept (disableUnique a) st st'.
Proof.
  intros Hw H. unfold blockStep in H.
  apply bind_Ok in H as (name & _ & H).
  apply bind_Ok in H as ([r1 st1] & H1 & H). injection H as <- <-.
  assert (kept (disableUnique a) st st1) as Hk;
    [|eapply kept_trans; [exact Hk|apply kept_set_root]].
  destruct (tables (adapter st) !! name).
  - assert ((r1, st1) = (r, st)) as [= -> ->]; [|apply kept_refl].
    destruct (_ && _); [|congruence].
    destruct (validateExistingBlockIsIdentical _ _ _ _ _); congruence.
  - apply bind_Ok in H1 as (base & _ & H1).
    apply bind_Ok in H1 as ([[flags rel] st2] & Hb & H1).
    injection H1 as <- <-.
    apply buildTable_kept in Hb; [|done]. by eapply kept_after.
Qed.

Lemma selectCase_kept walk a pid field n r st r' st' :
  keeps walk ->
  selectCase walk a pid field n (r, st) = Ok (r', st') ->
  kept (disableUnique a) st st'.
Proof.
  intros Hw H. unfold selectCase in H.
  apply bind_Ok in H as (enum & _ & H).
  assert (Henum : kept (disableUnique a) st
            (set_adapter
               (set_enums <[enum := List.map optionValue (f_options field)]>)
               st)).
  { repeat split; auto; simpl. rewrite dom_insert. apply union_subseteq_r. }
  destruct (_ && _).
  - apply bind_Ok in H as (sel & _ & H).
    apply bind_Ok in H as (base & _ & H).
    apply bind_Ok in H as ([[flags rel] st1] & Hb & H).
    injection H as <- <-.
    apply buildTable_kept in Hb; [|done].
    eapply kept_trans; [exact Henum|]. by eapply kept_after.
  - injection H as <- <-.
    eapply kept_trans; [exact Henum|]. apply set_targetTable_kept.
Qed.

Lemma relationshipCase_kept a field n r st r' st' :
  relationshipCase a field n (r, st) = Ok (r', st') ->
  kept (disableUnique a) st st'.
Proof.
  unfold relationshipCase.
  destruct (f_relationTo field) as [[slug|slugs]|]; [| |done].
  - destruct (hasManyTruthy field).
    + intros [= <- <-]. apply addRelationship_kept.
    + destruct (collections (adapter st) !! slug); [|done].
      intros [= <- <-]. eapply kept_trans; [|apply when_kept].
      * eapply kept_after; [apply (set_targetTable_kept _ (target n))|..];
          done.
      * intros ?. apply set_targetTable_kept.
  - intros [= <- <-]. clear. revert st.
    induction slugs as [|x l IH]; intros st; simpl; [apply kept_refl|].
    eapply kept_trans; [apply addRelationship_kept|apply IH].
Qed.

Lemma set_postgis_kept du st :
  kept du st (set_adapter (set_postgis true) st).
Proof.
  unfold kept. simpl. split; [done|]. split; [done|]. split; [done|].
  split; [done|]. split; [done|]. auto.
Qed.

Lemma dispatch_kept walk a pid field n r st r' st' :
  keeps walk ->
  dispatch walk a pid field n (r, st) = Ok (r', st') ->
  kept (disableUnique a) st st'.
Proof.
  intros Hw. unfold dispatch.
  destruct (f_type field) eqn:Ht;
    try (intros [= <- <-];
         first [apply set_targetTable_kept | apply kept_refl]).
  - by apply arrayCase_kept.
  - unfold blocksCase. apply forEach_kept. intros b r1 st1 r2 st2 _.
    by apply blockStep_kept.
  - by apply recurse_kept.
  - unfold groupCase. destruct (f_name field); by apply recurse_kept.
  - unfold numberCase. destruct (hasManyTruthy field).
    + destruct (f_unique field); [done|]. intros [= <- <-]. apply kept_refl.
    + intros [= <- <-]. apply set_targetTable_kept.
  - intros [= <- <-]. simpl.
    eapply kept_trans; [apply (set_targetTable_kept _ (target n))|].
    apply set_postgis_kept.
  - by apply selectCase_kept.
  - apply relationshipCase_kept.
  - by apply recurse_kept.
  - by apply selectCase_kept.
  - unfold groupCase. destruct (f_name field); by apply recurse_kept.
  - by apply recurse_kept.
  - unfold textCase. destruct (hasManyTruthy field).
    + destruct (f_unique field); [done|]. intros [= <- <-]. apply kept_refl.
    + intros [= <- <-]. apply set_targetTable_kept.
  - apply relationshipCase_kept.
Qed.

Lemma traverseField_kept walk a pid field r st r' st' :
  keeps walk ->
  traverseField walk a pid field (r, st) = Ok (r', st') ->
  kept (disableUnique a) st st'.
Proof.
  intros Hw. unfold traverseField.
  destruct (isNamedId field); [intros [= <- <-]; apply kept_refl|].
  destruct (fieldIsVirtual field); [intros [= <- <-]; apply kept_refl|].
  intros H. apply bind_Ok in H as ([n [r1 st1]] & Hp & H).
  apply bind_Ok in H as ([r2 st2] & Hd & H). injection H as <- <-.
  cbn [fst snd] in *.
  eapply kept_trans; [by eapply prepare_kept|].
  eapply kept_trans; [by eapply dispatch_kept|].
  apply requireColumn_kept.
Qed.

Lemma traverseFields_keeps fuel : keeps (traverseFields fuel).
Proof.
  induction fuel as [|fuel IH]; intros a fs st r st'; [done|]. simpl.
  apply forEach_kept. intros x r1 st1 r2 st2 _.
  by apply traverseField_kept.
Qed.

(** X10. A pass that returns only adds to the relationship set and to the
    unique relationship set, at every depth of the recursion, and when
    the unique relationships were among the relationships before the
    pass they are among them after it. *)
Theorem relationship_sets_grow fuel a fs st r st' :
  traverseFields fuel a fs st = Ok (r, st') ->
  relationships st ⊆ relationships st'
  /\ uniqueRelationships st ⊆ uniqueRelationships st'
  /\ (uniqueRelationships st ⊆ relationships st ->
      uniqueRelationships st' ⊆ relationships st').
Proof.
  intros H. by apply traverseFields_keeps in H as (? & ? & ? & _).
Qed.

(** X11. A pass with [disableUnique] that returns leaves the unique
    relationship set and the adapter's field constraints as they were,
    and every index it adds or replaces in either index set is not
    unique, at every depth of the recursion. *)
Theorem disableUnique_adds_nothing_unique fuel a fs st r st' :
  disableUnique a = true ->
  traverseFields fuel a fs st = Ok (r, st') ->
  uniqueRelationships st' = uniqueRelationships st
  /\ fieldConstraints (adapter st') = fieldConstraints (adapter st)
  /\ (forall k i,
        indexes st' !! k = Some i ->
        indexes st !! k = Some i \/ idx_unique i = false)
  /\ (forall k i,
        localesIndexes st' !! k = Some i ->
        localesIndexes st !! k = Some i \/ idx_unique i = false).
Proof.
  intros Hdu H.
  apply traverseFields_keeps in H as (_ & _ & _ & _ & _ & D).
  destruct (D Hdu) as (? & ? & Hi). split; [done|]. split; [done|].
  split; intros k i; [apply (Hi base_table)|apply (Hi locales_table)].
Qed.

(** X12. A pass that returns does not switch postgis off and does not remove
    an enum: a switch that was on is on, and every enum name that was
    registered is registered, at every depth of the recursion. *)
Theorem postgis_and_enums_persist fuel a fs st r st' :
  traverseFields fuel a fs st = Ok (r, st') ->
  (postgis (adapter st) = true -> postgis (adapter st') = true)
  /\ (forall name,
        is_Some (enums (adapter st) !! name) ->
        is_Some (enums (adapter st') !! name)).
Proof.
  intros H. apply traverseFields_keeps in H as (_ & _ & _ & P & En & _).
  split; [done|]. intros name Hn.
  apply elem_of_dom. apply En. by apply elem_of_dom.
Qed.

(** ** Layout containers *)

(** The callback on a visited field that does not affect data. *)
Lemma traverseField_layout walk a pid field r st :
  visited field = true -> fieldAffectsData field = false ->
  f_required field = false ->
  traverseField walk a pid field (r, st)
  = dispatch walk a pid field
      {| columnName := None; fieldName := None; target := base_table |} (r, st).
Proof.
  intros Hv Hd Hr. unfold traverseField.
  apply andb_prop in Hv as [Hid Hv].
  apply negb_true_iff in Hid, Hv. rewrite Hid, Hv.
  unfold prepare. rewrite Hd. cbn [bind fst snd].
  destruct (dispatch _ _ _ _ _ _) as [[r' st']| |]; [|done|done].
  cbn [bind fst snd]. unfold requireColumn.
  by rewrite Hr, andb_false_r.
Qed.

Lemma layout_of_scalars fuel (a a' : Args) (cs : list Field) r st :
  columnPrefix a' = columnPrefix a -> fieldPrefix a' = fieldPrefix a ->
  forceLocalized a' = forceLocalized a ->
  Forall (fun c => plainColumn c = true) cs ->
  NoDup (List.map (fun c : Field => f_name c) cs) ->
  exists r' st',
    recurse (traverseFields (S fuel)) a' cs (r, st) = Ok (r', st')
    /\ tables (adapter st') = tables (adapter st)
    /\ forall c cname col,
         In c cs -> f_name c = Some cname ->
         scalarColumn (f_type c) (columnNameOf a cname) = Some col ->
         targetTable (targetOf a c st) st' !! fieldNameOf a cname
         = Some (when (negb (disableNotNull a') && f_required c
                       && negb (f_condition c)) notNull (withDefault col c)).
Proof.
  intros Hcp Hfp Hfl Hall Hnd. unfold recurse. cbn [traverseFields].
  destruct (plain_fields (traverseFields fuel) a'
              (parentIDColTypeOf (columns st)) cs Hall Hnd noFlags st)
    as (r1 & st1 & -> & Ht1 & _ & Hset & _).
  cbn [bind fst snd]. eexists _, _. split; [done|]. split; [done|].
  intros c cname col Hin Hn Hcol.
  assert (Hcn : columnNameOf a' cname = columnNameOf a cname)
    by (unfold columnNameOf; by rewrite Hcp).
  assert (Hfn : fieldNameOf a' cname = fieldNameOf a cname)
    by (unfold fieldNameOf; by rewrite Hfp).
  assert (Htg : targetOf a' c st = targetOf a c st)
    by (unfold targetOf, routesToLocales; by rewrite Hfl).
  rewrite <- Hcn in Hcol. rewrite <- Hfn, <- Htg.
  by apply Hset.
Qed.

(** X13. A row or collapsible whose children are visited scalar fields with
    distinct names returns, registers no table, and leaves the column of
    every child in the column set the child is routed to, under the key
    and with the column name the child would have outside the row: no
    prefix is added.  A display condition on the row, like
    [disableNotNull] of the pass, keeps every child column nullable. *)
Theorem row_children_stay_in_place fuel a pid field r st :
  f_type field ∈ [FT_row; FT_collapsible] ->
  visited field = true -> fieldAffectsData field = false ->
  f_required field = false ->
  Forall (fun c => plainColumn c = true) (f_fields field) ->
  NoDup (List.map (fun c : Field => f_name c) (f_fields field)) ->
  exists r' st',
    traverseField (traverseFields (S fuel)) a pid field (r, st) = Ok (r', st')
    /\ tables (adapter st') = tables (adapter st)
    /\ forall c cname col,
         In c (f_fields field) -> f_name c = Some cname ->
         scalarColumn (f_type c) (columnNameOf a cname) = Some col ->
         targetTable (targetOf a c st) st' !! fieldNameOf a cname
         = Some (when (negb (f_condition field || disableNotNull a)
                       && f_required c && negb (f_condition c))
                   notNull (withDefault col c)).
Proof.
  intros Ht Hv Hd Hr Hall Hnd.
  rewrite traverseField_layout by done.
  assert (Hdis : dispatch (traverseFields (S fuel)) a pid field
                   {| columnName := None; fieldName := None;
                      target := base_table |} (r, st)
                 = recurse (traverseFields (S fuel))
                     (sameTable (disableNotNullFromHere a field) a)
                     (f_fields field) (r, st)).
  { unfold dispatch. apply list_elem_of_In in Ht.
    by destruct Ht as [<-|[<-|[]]]. }
  rewrite Hdis.
  apply (layout_of_scalars fuel a
           (sameTable (disableNotNullFromHere a field) a)); done.
Qed.

(** X14. A group or tab without a name, whose children are visited scalar
    fields with distinct names, returns, registers no table, and leaves
    the column of every child under the key and with the column name the
    child would have outside it.  Unlike a row, it passes
    [disableNotNull] on as it is: a display condition on the unnamed
    group does not keep a required child nullable. *)
Theorem unnamed_group_children_stay_in_place fuel a pid field r st :
  f_type field ∈ [FT_group; FT_tab] -> f_name field = None ->
  visited field = true -> fieldAffectsData field = false ->
  f_required field = false ->
  Forall (fun c => plainColumn c = true) (f_fields field) ->
  NoDup (List.map (fun c : Field => f_name c) (f_fields field)) ->
  exists r' st',
    traverseField (traverseFields (S fuel)) a pid field (r, st) = Ok (r', st')
    /\ tables (adapter st') = tables (adapter st)
    /\ forall c cname col,
         In c (f_fields field) -> f_name c = Some cname ->
         scalarColumn (f_type c) (columnNameOf a cname) = Some col ->
         targetTable (targetOf a c st) st' !! fieldNameOf a cname
         = Some (when (negb (disableNotNull a)
                       && f_required c && negb (f_condition c))
                   notNull (withDefault col c)).
Proof.
  intros Ht Hn Hv Hd Hr Hall Hnd.
  rewrite traverseField_layout by done.
  assert (Hdis : dispatch (traverseFields (S fuel)) a pid field
                   {| columnName := None; fieldName := None;
                      target := base_table |} (r, st)
                 = recurse (traverseFields (S fuel))
                     (sameTable (disableNotNull a) a)
                     (f_fields field) (r, st)).
  { unfold dispatch, groupCase. apply list_elem_of_In in Ht.
    destruct Ht as [<-|[<-|[]]]; by rewrite Hn. }
  rewrite Hdis.
  apply (layout_of_scalars fuel a (sameTable (disableNotNull a) a)); done.
Qed.

(** ** Aggregate flags *)

Lemma atLeast_refl r : atLeast r r.
Proof. by repeat split. Qed.

Lemma atLeast_trans r1 r2 r3 : atLeast r1 r2 -> atLeast r2 r3 -> atLeast r1 r3.
Proof.
  intros (A1 & B1 & C1 & D1 & E1 & F1) (A2 & B2 & C2 & D2 & E2 & F2).
  unfold atLeast. auto 10.
Qed.

Lemma mergeBuilt_atLeast flags r : atLeast r (mergeBuilt flags r).
Proof.
  destruct flags as [? [] [] [] [] []], r as [? ? ? ? [] []];
    unfold atLeast; simpl; auto 10.
Qed.

Lemma mergeWalked_atLeast flags r : atLeast r (mergeWalked flags r).
Proof.
  destruct flags as [[] [] [] [] [] []], r as [? ? ? ? [] []];
    unfold atLeast; simpl; auto 10.
Qed.

Lemma manyFlags_number_atLeast a field st r :
  atLeast r (manyFlags a field st set_hasLocalizedManyNumberField
               hasManyNumberField set_hasManyNumberField r).
Proof.
  unfold manyFlags. destruct (isLocalizedHere a field st), (f_index field),
    r as [? ? ? ? [] []]; unfold atLeast; simpl; auto 10.
Qed.

Lemma manyFlags_text_atLeast a field st r :
  atLeast r (manyFlags a field st set_hasLocalizedManyTextField
               hasManyTextField set_hasManyTextField r).
Proof.
  unfold manyFlags. destruct (isLocalizedHere a field st), (f_index field),
    r as [? ? ? ? [] []]; unfold atLeast; simpl; auto 10.
Qed.

Lemma forEach_atLeast {A}
  (cb : A -> Result * State -> outcome E (Result * State))
  (l : list A) r st r' st' :
  (forall x r1 st1 r2 st2, cb x (r1, st1) = Ok (r2, st2) -> atLeast r1 r2) ->
  forEach cb l (r, st) = Ok (r', st') -> atLeast r r'.
Proof.
  intros Hcb. revert r st. induction l as [|x l IH]; intros r st; simpl.
  - intros [= <- <-]. apply atLeast_refl.
  - intros H. apply bind_Ok in H as ([r1 st1] & Hx & H).
    eapply atLeast_trans; [by eapply Hcb|by eapply IH].
Qed.

Lemma recurse_atLeast walk a' fs r st r' st' :
  recurse walk a' fs (r, st) = Ok (r', st') -> atLeast r r'.
Proof.
  intros H. apply bind_Ok in H as ([r1 st1] & _ & H).
  injection H as <- <-. apply mergeWalked_atLeast.
Qed.

Lemma blockStep_atLeast walk a field block r st r' st' :
  blockStep walk a field block (r, st) = Ok (r', st') -> atLeast r r'.
Proof.
  intros H. unfold blockStep in H.
  apply bind_Ok in H as (name & _ & H).
  apply bind_Ok in H as ([r1 st1] & H1 & H). injection H as <- <-.
  destruct (tables (adapter st) !! name).
  - assert ((r1, st1) = (r, st)) as [= -> ->]; [|apply atLeast_refl].
    destruct (_ && _); [|congruence].
    destruct (validateExistingBlockIsIdentical _ _ _ _ _); congruence.
  - apply bind_Ok in H1 as (base & _ & H1).
    apply bind_Ok in H1 as ([[flags rel] st2] & _ & H1).
    injection H1 as <- <-. apply mergeBuilt_atLeast.
Qed.

Lemma dispatch_atLeast walk a pid field n r st r' st' :
  dispatch walk a pid field n (r, st) = Ok (r', st') -> atLeast r r'.
Proof.
  unfold dispatch.
  destruct (f_type field);
    try (intros [= <- <-]; apply atLeast_refl);
    try apply recurse_atLeast.
  - unfold arrayCase. intros H.
    apply bind_Ok in H as (name & _ & H).
    apply bind_Ok in H as (base & _ & H).
    apply bind_Ok in H as ([[flags rel] st1] & _ & H).
    injection H as <- <-. apply mergeBuilt_atLeast.
  - unfold blocksCase. apply forEach_atLeast. intros b ? ? ? ?.
    apply blockStep_atLeast.
  - unfold groupCase. destruct (f_name field); apply recurse_atLeast.
  - unfold numberCase. destruct (hasManyTruthy field).
    + destruct (f_unique field); [done|]. intros [= <- <-].
      apply manyFlags_number_atLeast.
    + intros [= <- <-]. apply atLeast_refl.
  - unfold selectCase. intros H. apply bind_Ok in H as (enum & _ & H).
    destruct (_ && _).
    + apply bind_Ok in H as (sel & _ & H).
      apply bind_Ok in H as (base & _ & H).
      apply bind_Ok in H as (built & _ & H).
      injection H as <- <-. apply atLeast_refl.
    + injection H as <- <-. apply atLeast_refl.
  - unfold relationshipCase, relationshipTail.
    destruct (f_relationTo field) as [[slug|slugs]|]; [| |done].
    + destruct (hasManyTruthy field).
      * intros [= <- <-]. destruct (_ || _), r as [? ? ? [] ? ?];
          unfold atLeast; simpl; auto 10.
      * destruct (collections (adapter st) !! slug); [|done].
        intros [= <- <-]. apply atLeast_refl.
    + intros [= <- <-]. destruct (_ || _), r as [? ? ? [] ? ?];
        unfold atLeast; simpl; auto 10.
  - unfold selectCase. intros H. apply bind_Ok in H as (enum & _ & H).
    destruct (_ && _).
    + apply bind_Ok in H as (sel & _ & H).
      apply bind_Ok in H as (base & _ & H).
      apply bind_Ok in H as (built & _ & H).
      injection H as <- <-. apply atLeast_refl.
    + injection H as <- <-. apply atLeast_refl.
  - unfold groupCase. destruct (f_name field); apply recurse_atLeast.
  - unfold textCase. destruct (hasManyTruthy field).
    + destruct (f_unique field); [done|]. intros [= <- <-].
      apply manyFlags_text_atLeast.
    + intros [= <- <-]. apply atLeast_refl.
  - unfold relationshipCase, relationshipTail.
    destruct (f_relationTo field) as [[slug|slugs]|]; [| |done].
    + destruct (hasManyTruthy field).
      * intros [= <- <-]. destruct (_ || _), r as [? ? ? [] ? ?];
          unfold atLeast; simpl; auto 10.
      * destruct (collections (adapter st) !! slug); [|done].
        intros [= <- <-]. apply atLeast_refl.
    + intros [= <- <-]. destruct (_ || _), r as [? ? ? [] ? ?];
        unfold atLeast; simpl; auto 10.
Qed.

Lemma traverseField_atLeast walk a pid field r st r' st' :
  traverseField walk a pid field (r, st) = Ok (r', st') -> atLeast r r'.
Proof.
  unfold traverseField.
  destruct (isNamedId field); [intros [= <- <-]; apply atLeast_refl|].
  destruct (fieldIsVirtual field); [intros [= <- <-]; apply atLeast_refl|].
  intros H. apply bind_Ok in H as ([n [r1 st1]] & Hp & H).
  apply bind_Ok in H as ([r2 st2] & Hd & H). injection H as <- <-.
  cbn [fst snd] in *. eapply atLeast_trans; [|by eapply dispatch_atLeast].
  unfold prepare in Hp. destruct (fieldAffectsData field).
  - destruct (f_name field); [|done]. injection Hp as <- <- <-.
    destruct (routesToLocales a field st), r; unfold atLeast; simpl; auto 10.
  - injection Hp as <- <- <-. apply atLeast_refl.
Qed.

(** X15. The flags of a pass over a list of fields include the flags of the
    pass over any prefix of it: a flag that is set - a boolean that is
    true, a has-many flag that is [true] or ['index'] - is never cleared
    by a later field. *)
Theorem flags_only_accumulate fuel a pre rest st r1 st1 r2 st2 :
  traverseFields (S fuel) a pre st = Ok (r1, st1) ->
  traverseFields (S fuel) a (pre ++ rest) st = Ok (r2, st2) ->
  atLeast r1 r2.
Proof.
  simpl. intros H1 H2. rewrite forEach_app, H1 in H2. simpl in H2.
  eapply forEach_atLeast; [|exact H2]. intros x ? ? ? ?.
  apply traverseField_atLeast.
Qed.

(** X16. A visited row, collapsible, group, tab or tabs field makes one
    recursive call, and afterwards its has-many text and number flags
    are [true] when the call reported the flag in either form, and what
    they were otherwise: an ['index'] reported below such a field
    reaches the caller as [true]. *)
Theorem containers_report_hasMany_without_index
  walk a pid field r st r' st' :
  f_type field ∈ [FT_row; FT_collapsible; FT_group; FT_tab; FT_tabs] ->
  visited field = true ->
  traverseField walk a pid field (r, st) = Ok (r', st') ->
  exists a' fs' st0 flags st1,
    walk a' fs' st0 = Ok (flags, st1)
    /\ hasManyTextField r'
       = (if truthy (hasManyTextField flags) then yes else hasManyTextField r)
    /\ hasManyNumberField r'
       = (if truthy (hasManyNumberField flags) then yes
          else hasManyNumberField r).
Proof.
  intros Ht Hv. unfold traverseField.
  apply andb_prop in Hv as [Hid Hv].
  apply negb_true_iff in Hid, Hv. rewrite Hid, Hv.
  intros H. apply bind_Ok in H as ([n [r1 st1]] & Hp & H).
  apply bind_Ok in H as ([r2 st2] & Hd & H). injection H as <- <-.
  cbn [fst snd] in *.
  assert (Hr1 : hasManyTextField r1 = hasManyTextField r
                /\ hasManyNumberField r1 = hasManyNumberField r).
  { unfold prepare in Hp. destruct (fieldAffectsData field).
    - destruct (f_name field); [|done]. injection Hp as <- <- <-.
      by destruct (routesToLocales a field st), r.
    - by injection Hp as <- <- <-. }
  destruct Hr1 as [<- <-].
  assert (exists a' fs', recurse walk a' fs' (r1, st1) = Ok (r2, st2))
    as (a' & fs' & Hrec).
  { unfold dispatch in Hd. apply list_elem_of_In in Ht.
    destruct Ht as [Ht|[Ht|[Ht|[Ht|[Ht|[]]]]]]; rewrite <- Ht in Hd;
      try (by eexists _, _).
    - unfold groupCase in Hd. destruct (f_name field); by eexists _, _.
    - unfold groupCase in Hd. destruct (f_name field); by eexists _, _. }
  apply bind_Ok in Hrec as ([flags st3] & Hwalk & Hrec).
  injection Hrec as <- <-. exists a', fs', st1, flags, st3.
  split; [done|].
  by destruct flags as [[] [] [] [] [] []], r1 as [? ? ? ? [] []].
Qed.

(** ** Arrays *)

(** X17. When the callback returns on a visited array field, the relation
    registry of the table under construction maps the field name to a
    [many] relation to the array's table that is not localized, also for
    a localized array, and the adapter's relations hold, under
    [relations_<arrayTableName>], a description of that table whose
    parent relation is [_parentID] to the parent table, named after the
    field, and which has a [_locales] relation exactly when a locales
    table is due for the array's fields. *)
Theorem array_field_records_many_relation
  walk a pid field name arrayTableName r st r' st' :
  visited field = true -> fieldAffectsData field = true ->
  f_name field = Some name -> f_type field = FT_array ->
  createTableName (config_field field) (newTableName a)
    (newTableName a ++ "_") dbName true (versions a) = inr arrayTableName ->
  traverseField walk a pid field (r, st) = Ok (r', st') ->
  relationsToBuild st' !! Some (fieldNameOf a name)
  = Some {| rel_type := many; rel_localized := false;
            rel_target := Some arrayTableName |}
  /\ exists rd,
       relations (adapter st') !! ("relations_" ++ arrayTableName) = Some rd
       /\ rd_table rd = arrayTableName
       /\ rd_parent rd = ("_parentID", parentTableName a, fieldNameOf a name)
       /\ rd_locales rd
          = if hasLocalesTable (f_fields field)
            then Some (arrayTableName ++ localesSuffix (adapter st'))
            else None.
Proof.
  intros Hv Hd Hn Ht Hname.
  rewrite (traverseField_data _ _ _ _ _ _ name) by done.
  intros H. apply bind_Ok in H as ([r2 st2] & H & Hreq).
  injection Hreq as <- <-. unfold dispatch in H. rewrite Ht in H.
  unfold arrayCase in H. rewrite Hname in H. cbn [lift bind] in H.
  apply bind_Ok in H as (base & _ & H).
  apply bind_Ok in H as ([[flags rel] st1] & _ & H).
  injection H as <- <-.
  unfold requireColumn, namesOf. cbn [target fieldName str default from_option id fst snd].
  match goal with |- context [when ?b _ _] => destruct b end;
    cbn [when]; (split; [by destruct (targetOf a field st); simpl;
                           rewrite lookup_insert_eq|]);
    eexists; (split; [by destruct (targetOf a field st); simpl;
                        rewrite lookup_insert_eq|]);
    by destruct (targetOf a field st).
Qed.

(** ** Nested groups *)

(** X18. A named group or tab that is not itself localized passes
    [forceLocalized] on as unset, whatever the pass it is in received:
    the columns of its children that are visited scalar fields and not
    themselves localized are in the main column set, even in a pass that
    forces localization, where the same field beside the group would go
    to the locales column set. *)
Theorem nested_group_drops_forced_localization fuel a pid g r st name :
  f_type g ∈ [FT_group; FT_tab] ->
  visited g = true -> fieldAffectsData g = true -> f_name g = Some name ->
  f_localized g = false ->
  Forall (fun c => plainColumn c = true) (f_fields g) ->
  NoDup (List.map (fun c : Field => f_name c) (f_fields g)) ->
  let a' := intoGroup a g (namesOf a g name st) in
  exists r' st',
    traverseField (traverseFields (S fuel)) a pid g (r, st) = Ok (r', st')
    /\ forall c cname col,
         In c (f_fields g) -> f_name c = Some cname ->
         f_localized c = false ->
         scalarColumn (f_type c) (columnNameOf a' cname) = Some col ->
         columns st' !! fieldNameOf a' cname
         = Some (when (requiredHere a' c) notNull (withDefault col c)).
Proof.
  intros Ht Hv Hd Hn Hloc Hall Hnd a'.
  destruct (named_group_of_scalars fuel a pid g r st name Ht Hv Hd Hn Hall Hnd)
    as (_ & _ & r' & st' & Hrun & _ & Hcols).
  exists r', st'. split; [done|]. intros c cname col Hin Hc Hcl Hs.
  specialize (Hcols c cname col Hin Hc Hs). fold a' in Hcols.
  assert (Hroute : targetOf a' c st = base_table).
  { unfold targetOf, routesToLocales. subst a'. cbn [forceLocalized intoGroup].
    rewrite Hcl, Hloc. by rewrite andb_false_r. }
  by rewrite Hroute in Hcols.
Qed.

(** ** Unique relationships below a container *)

Lemma many_relationship_unique walk a pid c name slugs r st r' st' :
  visited c = true -> fieldAffectsData c = true -> f_name c = Some name ->
  f_type c ∈ [FT_relationship; FT_upload] ->
  manyTargets c = Some slugs ->
  f_unique c = true -> disableUnique a = false ->
  disableRelsTableUnique a = false ->
  traverseField walk a pid c (r, st) = Ok (r', st') ->
  list_to_set slugs ⊆ uniqueRelationships st'.
Proof.
  intros Hv Hd Hn Ht Hmany Hu Hdu Hdr.
  rewrite (traverseField_data _ _ _ _ _ _ name) by done.
  rewrite (manyTargets_prepare c slugs Hmany). cbn [when].
  intros H. apply bind_Ok in H as ([r2 st2] & H & Hreq).
  injection Hreq as <- <-. cbn [fst snd].
  destruct (requireColumn_kept false a c (namesOf a c name st) st2)
    as (_ & Hsub & _).
  etrans; [|exact Hsub]. clear Hsub.
  assert (Hdis : forall n rs,
            dispatch walk a pid c n rs = relationshipCase a c n rs).
  { intros n rs. unfold dispatch. apply list_elem_of_In in Ht.
    by destruct Ht as [<-|[<-|[]]]. }
  rewrite Hdis in H. unfold relationshipCase, relationshipTail, hasManyTruthy in H.
  unfold manyTargets in Hmany.
  destruct (f_relationTo c) as [[slug|l]|]; [| |done].
  - destruct (hasManyTrue c); [|done]. injection Hmany as <-.
    injection H as _ <-.
    pose proof (addRelationships_fold a c [slug] st) as F. simpl in F.
    destruct F as (_ & -> & _). rewrite Hu, Hdu, Hdr. simpl.
    apply union_subseteq_l.
  - injection Hmany as <-. injection H as _ <-.
    destruct (addRelationships_fold a c l st) as (_ & -> & _).
    rewrite Hu, Hdu, Hdr. simpl. apply union_subseteq_l.
Qed.

(** X19. The recursive call of a row, collapsible, group or tab does not
    receive [disableRelsTableUnique]: a visited unique relationship or
    upload field among its children that goes to the relationships table
    has its targets in the unique relationship set when the field
    returns, in a pass that does not disable unique, even when the pass
    itself was told to disable unique on the relationships table. *)
Theorem containers_forget_disableRelsTableUnique
  fuel a pid field c name slugs r st r' st' :
  f_type field ∈ [FT_row; FT_collapsible; FT_group; FT_tab] ->
  visited field = true ->
  In c (f_fields field) -> visited c = true -> fieldAffectsData c = true ->
  f_name c = Some name ->
  f_type c ∈ [FT_relationship; FT_upload] ->
  manyTargets c = Some slugs ->
  f_unique c = true -> disableUnique a = false ->
  traverseField (traverseFields fuel) a pid field (r, st) = Ok (r', st') ->
  list_to_set slugs ⊆ uniqueRelationships st'.
Proof.
  intros Ht Hv Hin Hvc Hdc Hnc Htc Hmany Hu Hdu. unfold traverseField.
  apply andb_prop in Hv as [Hid Hv].
  apply negb_true_iff in Hid, Hv. rewrite Hid, Hv.
  intros H. apply bind_Ok in H as ([n [r1 st1]] & Hp & H).
  apply bind_Ok in H as ([r2 st2] & Hd & H). injection H as <- <-.
  cbn [fst snd] in *.
  destruct (requireColumn_kept false a field n st2) as (_ & Hsub & _).
  etrans; [|exact Hsub]. clear Hsub.
  assert (exists a', disableUnique a' = false
                     /\ disableRelsTableUnique a' = false
                     /\ recurse (traverseFields fuel) a' (f_fields field)
                          (r1, st1) = Ok (r2, st2))
    as (a' & Hdu' & Hdr' & Hrec).
  { unfold dispatch in Hd. apply list_elem_of_In in Ht.
    destruct Ht as [Ht|[Ht|[Ht|[Ht|[]]]]]; rewrite <- Ht in Hd;
      try (by eexists; split; [|split; [|exact Hd]]).
    - unfold groupCase in Hd.
      destruct (f_name field); by eexists; split; [|split; [|exact Hd]].
    - unfold groupCase in Hd.
      destruct (f_name field); by eexists; split; [|split; [|exact Hd]]. }
  apply bind_Ok in Hrec as ([flags st3] & Hwalk & Hrec).
  injection Hrec as _ <-. destruct fuel as [|fuel]; [done|].
  cbn [traverseFields] in Hwalk.
  destruct (forEach_member _ _ _ _ _ Hin Hwalk)
    as (l1 & l2 & [ra sa] & [rb sb] & _ & _ & Hc & Hrest).
  etrans; [by eapply many_relationship_unique|].
  assert (kept (disableUnique a') sb st3) as (_ & Hk & _); [|done].
  eapply forEach_kept; [|exact Hrest]. intros x r3 s3 r4 s4 _.
  apply traverseField_kept, traverseFields_keeps.
Qed.

(** ** Splitting a pass *)

Lemma forEach_sameState {A}
  (cb : A -> Result * State -> outcome E (Result * State)) (l : list A)
  r1 r2 st :
  (forall x r1 r2 st, sameState (cb x (r1, st)) (cb x (r2, st))) ->
  sameState (forEach cb l (r1, st)) (forEach cb l (r2, st)).
Proof.
  intros Hcb. revert r1 r2 st. induction l as [|x l IH]; intros r1 r2 st.
  - done.
  - simpl. specialize (Hcb x r1 r2 st).
    destruct (cb x (r1, st)) as [[ra sa]| |], (cb x (r2, st)) as [[rb sb]| |];
      simpl in *; try done.
    subst sb. apply IH.
Qed.

Lemma blockStep_sameState walk a field block r1 r2 st :
  sameState (blockStep walk a field block (r1, st))
    (blockStep walk a field block (r2, st)).
Proof.
  unfold blockStep.
  destruct (lift (blockTableNameOf a block)) as [name| |]; cbn [bind];
    try done.
  destruct (tables (adapter st) !! name).
  - destruct (_ && _); [|done].
    by destruct (validateExistingBlockIsIdentical _ _ _ _ _).
  - destruct (withLocale _ _ _ _ _ _ _) as [base| |]; cbn [bind]; try done.
    by destruct (buildTable _ _ _) as [[[flags rel] s]| |].
Qed.

Lemma selectCase_sameState walk a pid field n r1 r2 st :
  sameState (selectCase walk a pid field n (r1, st))
    (selectCase walk a pid field n (r2, st)).
Proof.
  unfold selectCase.
  destruct (lift _) as [enum| |]; cbn [bind]; try done.
  destruct (_ && _); [|done].
  destruct (lift _) as [sel| |]; cbn [bind]; try done.
  destruct (withLocale _ _ _ _ _ _ _) as [base| |]; cbn [bind]; try done.
  by destruct (buildTable _ _ _) as [[[flags rel] s]| |].
Qed.

Lemma relationshipCase_sameState a field n r1 r2 st :
  sameState (relationshipCase a field n (r1, st))
    (relationshipCase a field n (r2, st)).
Proof.
  unfold relationshipCase, relationshipTail.
  destruct (f_relationTo field) as [[slug|slugs]|]; [| |done].
  - destruct (hasManyTruthy field); [done|].
    by destruct (collections (adapter st) !! slug).
  - done.
Qed.

Lemma dispatch_sameState walk a pid field n r1 r2 st :
  sameState (dispatch walk a pid field n (r1, st))
    (dispatch walk a pid field n (r2, st)).
Proof.
  unfold dispatch.
  destruct (f_type field); try done;
    try apply selectCase_sameState;
    try apply relationshipCase_sameState;
    try (unfold recurse, bind; by destruct (walk _ _ _));
    try (unfold groupCase, recurse, bind;
         destruct (f_name field); by destruct (walk _ _ _)).
  - unfold arrayCase.
    destruct (lift _) as [name| |]; cbn [bind]; try done.
    destruct (withLocale _ _ _ _ _ _ _) as [base| |]; cbn [bind]; try done.
    by destruct (buildTable _ _ _) as [[[flags rel] s]| |].
  - apply forEach_sameState. intros. apply blockStep_sameState.
  - unfold numberCase. by destruct (hasManyTruthy field), (f_unique field).
  - unfold textCase. by destruct (hasManyTruthy field), (f_unique field).
Qed.

Lemma traverseField_sameState walk a pid field r1 r2 st :
  sameState (traverseField walk a pid field (r1, st))
    (traverseField walk a pid field (r2, st)).
Proof.
  unfold traverseField.
  destruct (isNamedId field); [done|].
  destruct (fieldIsVirtual field); [done|].
  unfold prepare. destruct (fieldAffectsData field).
  - destruct (f_name field) as [name|]; [|done]. cbn [bind fst snd].
    match goal with
    | |- sameState (bind (dispatch _ _ _ _ ?n (?ra, ?s)) _)
           (bind (dispatch _ _ _ _ _ (?rb, _)) _) =>
        pose proof (dispatch_sameState walk a pid field n ra rb s) as H;
        destruct (dispatch walk a pid field n (ra, s)) as [[? ?]| |],
                 (dispatch walk a pid field n (rb, s)) as [[? ?]| |]
    end; simpl in *; try done. by subst.
  - cbn [bind fst snd].
    match goal with
    | |- sameState (bind (dispatch _ _ _ _ ?n (?ra, ?s)) _)
           (bind (dispatch _ _ _ _ _ (?rb, _)) _) =>
        pose proof (dispatch_sameState walk a pid field n ra rb s) as H;
        destruct (dispatch walk a pid field n (ra, s)) as [[? ?]| |],
                 (dispatch walk a pid field n (rb, s)) as [[? ?]| |]
    end; simpl in *; try done. by subst.
Qed.

(** X20. A pass over a list of fields is the pass over a prefix followed by
    the pass over the rest from the state the prefix left, as far as the
    state and the errors go, provided the prefix left the type of the
    [id] column as it was: the flags gathered so far never decide what
    is written or thrown. *)
Theorem pass_splits fuel a pre rest st r1 st1 :
  traverseFields (S fuel) a pre st = Ok (r1, st1) ->
  parentIDColTypeOf (columns st1) = parentIDColTypeOf (columns st) ->
  (forall r2 st2,
     traverseFields (S fuel) a rest st1 = Ok (r2, st2) ->
     exists r', traverseFields (S fuel) a (pre ++ rest) st = Ok (r', st2))
  /\ (forall e,
        traverseFields (S fuel) a rest st1 = Throw e ->
        traverseFields (S fuel) a (pre ++ rest) st = Throw e).
Proof.
  cbn [traverseFields]. intros H1 Hpid. rewrite forEach_app, H1, Hpid.
  cbn [bind].
  pose proof (forEach_sameState
                (traverseField (traverseFields fuel) a
                   (parentIDColTypeOf (columns st)))
                rest r1 noFlags st1
                (fun x ra rb s => traverseField_sameState _ a _ x ra rb s))
    as H.
  split.
  - intros r2 st2 H2. rewrite H2 in H.
    destruct (forEach _ rest (r1, st1)) as [[r' s']| |]; simpl in H; try done.
    subst. by exists r'.
  - intros e H2. rewrite H2 in H.
    destruct (forEach _ rest (r1, st1)) as [[r' s']| |]; simpl in H; try done.
    by subst.
Qed.

(** ** Multi-valued selects *)

(** X21. When the callback returns on a visited select field with [hasMany:
    true], no flag has changed, the relation registry of the table under
    construction maps the field name to a [many] relation to the
    select's table that is not localized, and the adapter's relations
    hold, under [relations_<selectTableName>], the description of that
    table with the single relation [parent] to the parent table, named
    after the field. *)
Theorem hasMany_select_records_many_relation
  walk a pid field name enum selectTableName r st r' st' :
  visited field = true -> fieldAffectsData field = true ->
  f_name field = Some name ->
  f_type field = FT_select -> hasManyTrue field = true ->
  createTableName (config_field field) (newTableName a)
    ("enum_" ++ newTableName a ++ "_") enumName true false = inr enum ->
  createTableName (config_field field) (newTableName a)
    (newTableName a ++ "_") dbName true (versions a) = inr selectTableName ->
  traverseField walk a pid field (r, st) = Ok (r', st') ->
  relationsToBuild st' !! Some (fieldNameOf a name)
  = Some {| rel_type := many; rel_localized := false;
            rel_target := Some selectTableName |}
  /\ relations (adapter st') !! ("relations_" ++ selectTableName)
     = Some {| rd_table := selectTableName;
               rd_parent := ("parent", parentTableName a, fieldNameOf a name);
               rd_locales := None; rd_sub := ∅ |}
  /\ r' = r.
Proof.
  intros Hv Hd Hn Ht Hm Henum Hsel.
  rewrite (traverseField_data _ _ _ _ _ _ name) by done.
  assert (Hroute : routesToLocales a field st = false).
  { unfold routesToLocales. rewrite Hm. by rewrite andb_false_r. }
  rewrite Hroute. cbn [when].
  intros H. apply bind_Ok in H as ([r2 st2] & H & Hreq).
  injection Hreq as <- <-. unfold dispatch in H. rewrite Ht in H.
  unfold selectCase, hasManyTruthy in H. rewrite Henum, Ht, Hm in H.
  cbn [lift bind] in H. rewrite bool_decide_eq_true_2 in H by done.
  cbn [andb] in H. rewrite Hsel in H. cbn [lift bind] in H.
  apply bind_Ok in H as (base & _ & H).
  apply bind_Ok in H as (built & _ & H).
  injection H as <- <-.
  unfold requireColumn, namesOf.
  cbn [target fieldName str default from_option id fst snd].
  match goal with |- context [when ?b _ _] => destruct b end;
    cbn [when]; (split; [by destruct (targetOf a field st); simpl;
                           rewrite lookup_insert_eq|]);
    (split; [by destruct (targetOf a field st); simpl;
               rewrite lookup_insert_eq|done]).
Qed.

(** ** The relation of a single relationship *)

(** X22. A visited single-target relationship or upload field that is not
    multi-valued and whose collection exists makes the callback return
    with a [one] relation under the field name in the relation registry
    of the table under construction: its target is the table the
    adapter's table-name map gives for the snake-cased slug, and it is
    localized exactly when localization is configured and the field is
    localized or localization is forced.
    [hasLocalizedRelationshipField] is not raised, also for a localized
    field: the branch leaves the switch before the flag is set.  The
    relationship sets and the table registry are unchanged.  The
    root-scoped relation registry is unchanged when it is another Map than
    the registry of the table; when one Map plays both roles it is the
    registry before with that relation set under the field name. *)
Theorem single_relationship_records_one_relation
  walk a pid field name slug related r st :
  visited field = true -> fieldAffectsData field = true ->
  f_name field = Some name ->
  singleRelationship field slug ->
  collections (adapter st) !! slug = Some related ->
  exists r' st',
    let relation :=
      {| rel_type := one;
         rel_localized :=
           localization (adapter st)
           && (f_localized field || forceLocalized a);
         rel_target := tableNameMap (adapter st) !! toSnakeCase slug |} in
    traverseField walk a pid field (r, st) = Ok (r', st')
    /\ relationsToBuild st' !! Some (fieldNameOf a name) = Some relation
    /\ hasLocalizedRelationshipField r' = hasLocalizedRelationshipField r
    /\ relationships st' = relationships st
    /\ uniqueRelationships st' = uniqueRelationships st
    /\ rootRelationsToBuild st'
       = match ownRoot st with
         | Some root => root
         | None => <[Some (fieldNameOf a name) := relation]> (relationsToBuild st)
         end
    /\ tables (adapter st') = tables (adapter st).
Proof.
  intros Hv Hd Hn Hs Hc.
  destruct (traverseField_relationship walk a pid field r st name slug related
              Hv Hd Hn Hs Hc) as (c1 & c2 & ->).
  eexists _, _. cbn zeta. split; [done|].
  assert (Hidx : forall tgt,
            let s := addIndex a field name (columnNameOf a name)
                       (fieldNameOf a name) tgt st in
            relationships s = relationships st
            /\ uniqueRelationships s = uniqueRelationships st
            /\ ownRoot s = ownRoot st
            /\ relationsToBuild s = relationsToBuild st
            /\ tables (adapter s) = tables (adapter st)).
  { intros tgt. unfold addIndex.
    by destruct (_ && _), tgt. }
  destruct (Hidx (targetOf a field st)) as (H1 & H2 & H3 & H4 & H5).
  unfold rootRelationsToBuild.
  destruct c1, c2, (targetOf a field st), (routesToLocales a field st),
    r; cbn -[addIndex];
    rewrite ?lookup_insert_eq, ?H1, ?H2, ?H3, ?H4, ?H5;
    by destruct (ownRoot st).
Qed.

End Properties.

(** ** Concrete runs *)

Section Runs.

Import Reference Examples.

(** A custom [id] field beside [title]: the pass is the pass over [title]. *)
Lemma id_field_is_skipped_witness :
  f_name customId = Some "id" /\
  traverseFields (C := development) 1 pages [title; customId] fresh
  = traverseFields (C := development) 1 pages [title] fresh.
Proof.
  split; [reflexivity|].
  apply (proj2 (id_field_is_skipped (C := development) 1
                  (fun _ _ _ => OutOfFuel) pages integer_id [title] customId []
                  fresh (noFlags, fresh) eq_refl)).
Defined.

(** A virtual field before [title]: the pass is the pass over [title]. *)
Lemma virtual_field_is_skipped_witness :
  fieldIsVirtual (Collaborators := development) scores = true /\
  traverseFields (C := development) 1 pages [scores; title] fresh
  = traverseFields (C := development) 1 pages [title] fresh.
Proof.
  split; [reflexivity|].
  apply (proj2 (virtual_field_is_skipped (C := development) 1
                  (fun _ _ _ => OutOfFuel) pages integer_id [] scores [title]
                  fresh (noFlags, fresh) eq_refl)).
Defined.






(** The pass over [sections] opens the pass over the fields of
    [section]. *)
Lemma sections_reaches_content :
  reaches (C := development) 3 pages [sections] fresh
    inSection [content] sectionStart.
Proof.
  apply (reaches_below (C := development) 2 pages [sections] fresh []
           sections [] noFlags fresh
           {| columnName := Some "sections"; fieldName := Some "sections";
              target := base_table |}
           (noFlags, fresh) inSection [content] sectionStart
           inSection [content] sectionStart);
    [reflexivity|reflexivity|reflexivity|reflexivity| |apply reaches_here].
  apply (opens_block (C := development) (traverseFields 2) pages integer_id
           sections _ (noFlags, fresh) [] section [] noFlags fresh
           "pages_blocks_section" (blockBase pages "pages_blocks_section"));
    reflexivity.
Qed.

(** No field of the table of [pages] over [sections] is named as the key
    of a block relation. *)
Lemma sections_namesSafe : namesSafe (C := development) pages [sections].
Proof.
  intros a' f name slug Hflat Hn.
  inversion Hflat as [? ? ? Hin|? ? g a1 fs1 ? ? Hg Hinner Hrest]; subst.
  - destruct Hin as [<-|[]]. by injection Hn as <-.
  - by destruct Hg as [<-|[]].
Qed.

(** [hero] in [layout]: the first occurrence walks [title] over the base
    columns of the block and registers the table built from it; the second
    leaves the adapter alone.  In the pass over [sections], whose block
    [section] holds the blocks field [content], the pass over the fields
    of [section] is opened, and [hero], used in [content] only, has its
    table at the end. *)
Lemma block_table_is_built_once_witness :
  (exists r1 st1,
     traverseFields (C := development) 1
       (passArgs (C := development)
          (blockTable (C := development) pages layout hero "pages_blocks_hero"
             (blockBase pages "pages_blocks_hero") false) fresh)
       [title]
       (passState (C := development)
          (blockTable (C := development) pages layout hero "pages_blocks_hero"
             (blockBase pages "pages_blocks_hero") false) fresh)
     = Ok (r1, st1)
     /\ tables (adapter (snd afterLayout)) !! "pages_blocks_hero"
        = Some (builtTable
                  (blockTable (C := development) pages layout hero
                     "pages_blocks_hero"
                     (blockBase pages "pages_blocks_hero") false) r1 st1)
     /\ columns st1 !! "title" = Some (varchar "title"))
  /\ adapter (snd afterLayoutAgain) = adapter (snd afterLayout)
  /\ reaches (C := development) 3 pages [sections] fresh
       inSection [content] sectionStart
  /\ is_Some (tables (adapter (snd afterNested)) !! "pages_blocks_hero").
Proof.
  assert (H1 : blockStep (C := development) (traverseFields 1) pages layout
                 hero (noFlags, fresh)
               = Ok (fst afterLayout, snd afterLayout))
    by (vm_compute; reflexivity).
  split.
  { destruct (proj1 (block_table_is_built_once (C := development))
                (traverseFields 1) pages layout hero noFlags fresh
                (fst afterLayout) (snd afterLayout) "pages_blocks_hero"
                eq_refl eq_refl H1)
      as (base & r1 & st1 & Hbase & Hwalk & _ & Hlook).
    injection Hbase as <-.
    change (isLocalizedHere pages layout fresh) with false
      in Hwalk, Hlook.
    change (if disableUnique pages then _ else _) with [title] in Hwalk.
    exists r1, st1. split; [exact Hwalk|].
    pose proof Hwalk as Hw. vm_compute in Hw. injection Hw as _ Hs.
    split; [apply Hlook; [|right]|]; by rewrite <- Hs. }
  assert (H2 : blockStep (C := development) (traverseFields 1) pages layout
                 hero (fst afterLayout, snd afterLayout)
               = Ok (fst afterLayoutAgain, snd afterLayoutAgain))
    by (vm_compute; reflexivity).
  split.
  { apply (proj2 (proj1 (proj2 (block_table_is_built_once (C := development)))
                    (traverseFields 1) pages layout hero (fst afterLayout)
                    (snd afterLayout) "pages_blocks_hero" heroTable
                    eq_refl eq_refl)
             (fst afterLayoutAgain) (snd afterLayoutAgain) H2). }
  pose proof sections_reaches_content as Hreach.
  split; [exact Hreach|].
  assert (H3 : traverseFields (C := development) 3 pages [sections] fresh
               = Ok (fst afterNested, snd afterNested))
    by (vm_compute; reflexivity).
  destruct (proj2 (proj2 (block_table_is_built_once (C := development))) 3
              pages [sections] fresh (fst afterNested) (snd afterNested) H3
              inSection [content] sectionStart Hreach) as [_ Hblocks].
  destruct (Hblocks content hero) as (name & _ & Hname & Hs);
    [by left|reflexivity|reflexivity|by left|].
  by injection Hname as <-.
Defined.

(** C4, as stated, fails.  A blocks field named [id] uses [hero], the pass
    returns, and no table is registered for [hero].  And under
    [NODE_ENV=production] [hero] is used in [content], in the fields of the
    second block with the slug [section]; the table of the first is
    reused, the fields of the second are not walked, and no table is
    registered for [hero]. *)
Lemma block_without_table :
  In hero (f_blocks idBlocks) /\
  traverseFields (C := development) 1 pages [idBlocks] fresh
  = Ok (noFlags, fresh) /\
  tables (adapter fresh) !! "pages_blocks_hero" = None /\
  blockTableNameOf (C := production) pages hero = inr "pages_blocks_hero" /\
  In hero (f_blocks content) /\ In content (b_fields section) /\
  In section (f_blocks sections) /\
  traverseFields (C := production) 3 pages [teasers; sections] fresh
  = Ok afterTeasers /\
  is_Some (tables (adapter (snd afterTeasers)) !! "pages_blocks_section") /\
  tables (adapter (snd afterTeasers)) !! "pages_blocks_hero" = None.
Proof.
  split; [by left|]. split; [reflexivity|]. split; [reflexivity|].
  split; [reflexivity|]. split; [by left|]. split; [by left|].
  split; [by left|]. split; [vm_compute; reflexivity|].
  split; [vm_compute; by eexists|vm_compute; reflexivity].
Qed.

(** [hero] in [content], in the pass over the fields of [section]: the
    relation is in the root-scoped registry and the registry of the table
    of [section] is as before.  After the pass over [sections] the
    root-scoped registry holds the relation of [hero], which is used below
    [section] only. *)
Lemma block_relation_is_recorded_at_root_witness :
  rootRelationsToBuild (snd afterContent) !! Some "_blocks_hero"
  = Some {| rel_type := many; rel_localized := false;
            rel_target := Some "pages_blocks_hero" |}
  /\ relationsToBuild (snd afterContent) = relationsToBuild sectionStart
  /\ exists block' name,
       b_slug block' = "hero"
       /\ blockTableNameOf (C := development) pages block' = inr name
       /\ rootRelationsToBuild (snd afterNested) !! Some "_blocks_hero"
          = Some {| rel_type := many; rel_localized := false;
                    rel_target := Some name |}.
Proof.
  assert (H1 : blockStep (C := development) (traverseFields 1) inSection
                 content hero (noFlags, sectionStart)
               = Ok (fst afterContent, snd afterContent))
    by (vm_compute; reflexivity).
  destruct (proj1 (block_relation_is_recorded_at_root (C := development))
              (traverseFields 1) inSection content hero noFlags sectionStart
              (fst afterContent) (snd afterContent) H1)
    as (name & Hname & Hrel & Hlocal).
  injection Hname as <-. split; [exact Hrel|].
  split; [apply Hlocal; by eexists|].
  assert (H3 : traverseFields (C := development) 3 pages [sections] fresh
               = Ok (fst afterNested, snd afterNested))
    by (vm_compute; reflexivity).
  apply (proj2 (block_relation_is_recorded_at_root (C := development)) 3 pages
           [sections] fresh (fst afterNested) (snd afterNested)
           inSection [content] sectionStart content hero H3);
    [right; apply sections_namesSafe|apply sections_reaches_content
    |by left|reflexivity|reflexivity|by left].
Defined.

(** C5, as stated, fails.  A blocks field named [id] uses [hero], the pass
    returns, and the root-scoped registry has no relation for [hero].
    Under [NODE_ENV=production] [hero] is used in the fields of the second
    block with the slug [section], which are not walked, and no relation
    is recorded for it.  And in a pass for the root table, where one Map
    is the registry of the table and the root-scoped registry, a
    relationship field named [_blocks_hero] after [layout] replaces the
    relation of [hero] by its own. *)
Lemma block_without_root_relation :
  In hero (f_blocks idBlocks) /\
  traverseFields (C := development) 1 pages [idBlocks] fresh
  = Ok (noFlags, fresh) /\
  rootRelationsToBuild fresh !! Some "_blocks_hero" = None /\
  traverseFields (C := production) 3 pages [teasers; sections] fresh
  = Ok afterTeasers /\
  rootRelationsToBuild (snd afterTeasers) !! Some "_blocks_hero" = None /\
  ownRoot withAuthors = None /\
  traverseFields (C := development) 2 pages [layout; shadow] withAuthors
  = Ok afterShadow /\
  rootRelationsToBuild (snd afterShadow) !! Some "_blocks_hero"
  = Some {| rel_type := one; rel_localized := false;
            rel_target := Some "authors" |}.
Proof.
  split; [by left|]. split; [reflexivity|]. split; [reflexivity|].
  split; [vm_compute; reflexivity|]. split; [vm_compute; reflexivity|].
  split; [reflexivity|]. split; vm_compute; reflexivity.
Qed.

(** The group [bio] with the number [age]. *)
Lemma named_group_is_flattened_witness :
  exists r' st',
    traverseField (C := development) (traverseFields 1) pages integer_id bio
      (noFlags, fresh) = Ok (r', st')
    /\ tables (adapter st') = ∅
    /\ columns st' !! "bio_age" = Some (numeric "bio_age").
Proof.
  destruct (proj2 (named_group_is_flattened (C := development)) 0 pages
              integer_id bio noFlags fresh "bio")
    as (r' & st' & Hrun & Htables & Hcols).
  - by apply list_elem_of_In; left.
  - reflexivity.
  - reflexivity.
  - reflexivity.
  - by repeat constructor.
  - repeat constructor. set_solver.
  - exists r', st'. split; [exact Hrun|]. split; [exact Htables|].
    apply (Hcols age "age" (numeric "bio_age")); [by left|reflexivity..].
Defined.

(** A relationship to [authors] from a table whose id is an integer, when
    [authors] declares a text [id]; from a table whose id is a uuid, when
    [authors] declares a number [id] after another field, when its [id] is
    a date, and when it declares none; and for an adapter whose id type is
    [uuid], from a table whose id is an integer. *)
Lemma relationship_column_follows_related_id_witness :
  parentIDColTypeOf (columns withAuthors) = integer_id
  /\ (exists r' st' col,
        traverseField (C := development) (fun _ _ _ => OutOfFuel) pages
          integer_id author (noFlags, withAuthors) = Ok (r', st')
        /\ columns st' !! "author" = Some col
        /\ col_name col = "author_id"
        /\ col_references col = Some (Some "authors", set_null)
        /\ col_type col = PgVarchar)
  /\ (exists r' st' col,
        traverseField (C := development) (fun _ _ _ => OutOfFuel) pages
          uuid_id author (noFlags, withCollection "serial" numbered)
        = Ok (r', st')
        /\ columns st' !! "author" = Some col
        /\ col_type col = PgNumeric)
  /\ (exists r' st' col,
        traverseField (C := development) (fun _ _ _ => OutOfFuel) pages
          uuid_id author (noFlags, withCollection "serial" dated)
        = Ok (r', st')
        /\ columns st' !! "author" = Some col
        /\ col_type col = PgInteger)
  /\ (exists r' st' col,
        traverseField (C := development) (fun _ _ _ => OutOfFuel) pages
          uuid_id author (noFlags, withCollection "serial" anonymous)
        = Ok (r', st')
        /\ columns st' !! "author" = Some col
        /\ col_type col = PgInteger)
  /\ (exists r' st' col,
        traverseField (C := development) (fun _ _ _ => OutOfFuel) pages
          integer_id author (noFlags, withCollection "uuid" anonymous)
        = Ok (r', st')
        /\ columns st' !! "author" = Some col
        /\ col_type col = PgUUID).
Proof.
  assert (Hsingle : singleRelationship author "authors").
  { split; [by apply list_elem_of_In; left|]. by split. }
  assert (Hnone : forall f, In f anonymous ->
            ~ (fieldAffectsData (Collaborators := development) f = true
               /\ f_name f = Some "id")).
  { intros f [<-|[]] [_ ?]. discriminate. }
  split; [reflexivity|]. split; [|split; [|split; [|split]]].
  - destruct (relationship_column_follows_related_id (C := development)
                (fun _ _ _ => OutOfFuel) pages integer_id author noFlags
                withAuthors "author" "authors"
                [leaf FT_text "id"; leaf FT_text "name"]
                eq_refl eq_refl eq_refl Hsingle eq_refl)
      as (r' & st' & col & Hrun & Hcol & Hname & Href & Hfound & _).
    exists r', st', col. split; [exact Hrun|]. split; [exact Hcol|].
    split; [exact Hname|]. split; [exact Href|].
    apply (Hfound [] (leaf FT_text "id") [leaf FT_text "name"] eq_refl);
      [by intros f []|reflexivity|reflexivity].
  - destruct (relationship_column_follows_related_id (C := development)
                (fun _ _ _ => OutOfFuel) pages uuid_id author noFlags
                (withCollection "serial" numbered) "author" "authors" numbered
                eq_refl eq_refl eq_refl Hsingle eq_refl)
      as (r' & st' & col & Hrun & Hcol & _ & _ & Hfound & _).
    exists r', st', col. split; [exact Hrun|]. split; [exact Hcol|].
    apply (Hfound [leaf FT_text "name"] (leaf FT_number "id") [] eq_refl);
      [|reflexivity|reflexivity].
    intros f [<-|[]] [_ ?]. discriminate.
  - destruct (relationship_column_follows_related_id (C := development)
                (fun _ _ _ => OutOfFuel) pages uuid_id author noFlags
                (withCollection "serial" dated) "author" "authors" dated
                eq_refl eq_refl eq_refl Hsingle eq_refl)
      as (r' & st' & col & Hrun & Hcol & _ & _ & Hfound & _).
    exists r', st', col. split; [exact Hrun|]. split; [exact Hcol|].
    apply (Hfound [] (leaf FT_date "id") [] eq_refl);
      [by intros f []|reflexivity|reflexivity].
  - destruct (relationship_column_follows_related_id (C := development)
                (fun _ _ _ => OutOfFuel) pages uuid_id author noFlags
                (withCollection "serial" anonymous) "author" "authors"
                anonymous eq_refl eq_refl eq_refl Hsingle eq_refl)
      as (r' & st' & col & Hrun & Hcol & _ & _ & _ & Hdefault).
    exists r', st', col. split; [exact Hrun|]. split; [exact Hcol|].
    exact (Hdefault Hnone).
  - destruct (relationship_column_follows_related_id (C := development)
                (fun _ _ _ => OutOfFuel) pages integer_id author noFlags
                (withCollection "uuid" anonymous) "author" "authors"
                anonymous eq_refl eq_refl eq_refl Hsingle eq_refl)
      as (r' & st' & col & Hrun & Hcol & _ & _ & _ & Hdefault).
    exists r', st', col. split; [exact Hrun|]. split; [exact Hcol|].
    exact (Hdefault Hnone).
Defined.

(** The same relationship asks for neither unique nor index and is
    indexed. *)
Lemma relationship_column_is_indexed_witness :
  f_unique author = false /\ f_index author = false
  /\ exists r' st',
       traverseField (C := development) (fun _ _ _ => OutOfFuel) pages
         integer_id author (noFlags, withAuthors) = Ok (r', st')
       /\ is_Some (columns st' !! "author")
       /\ indexes st' !! "pages_author_idx"
          = Some {| idx_on := ["author"]; idx_name := "pages_author_idx";
                    idx_unique := false |}.
Proof.
  split; [reflexivity|]. split; [reflexivity|].
  apply (relationship_column_is_indexed (C := development)
           (fun _ _ _ => OutOfFuel) pages integer_id author noFlags withAuthors
           "author" "authors" [leaf FT_text "id"; leaf FT_text "name"]);
    try reflexivity.
  split; [by apply list_elem_of_In; left|]. by split.
Defined.

(** ** Scenarios of the specification *)

(** The group [bio] with the number [age] compiles to one column [bio_age]
    beside the id column, and no table is registered. *)
Example group_scenario :
  let st' := snd (returned (traverseFields (C := development) 2 pages [bio]
                              fresh)) in
  columns st' !! "bio_age" = Some (numeric "bio_age")
  /\ size (columns st') = 2
  /\ size (localesColumns st') = 0
  /\ size (tables (adapter st')) = 0.
Proof. vm_compute. repeat split. Qed.

(** An array that contains a relationship to a collection with a text id
    compiles to a child table whose foreign-key column is a varchar that
    references that collection's table, while the parent's id is an
    integer. *)
Example array_relationship_scenario :
  let st' := snd (returned (traverseFields (C := development) 2 pages [items]
                              withAuthors)) in
  (tables (adapter st') !! "pages_items") ≫= (fun t => tbl_columns t !! "author")
  = Some (references (Some "authors") set_null (varchar "author_id"))
  /\ parentIDColTypeOf (columns st') = integer_id.
Proof. vm_compute. repeat split. Qed.

(** A block nested in another block relates to the root table: [hero] is
    used in the fields of [section] only, both relations are in the
    root-scoped registry, none in the registry of the table of [section],
    and each block has one table. *)
Example nested_block_scenario :
  let st' := snd afterNested in
  rootRelationsToBuild st' !! Some "_blocks_section"
  = Some (blockRelation "pages_blocks_section")
  /\ rootRelationsToBuild st' !! Some "_blocks_hero"
     = Some (blockRelation "pages_blocks_hero")
  /\ (size <$> (tbl_relationsToBuild
                  <$> tables (adapter st') !! "pages_blocks_section"))
     = Some 0
  /\ is_Some (tables (adapter st') !! "pages_blocks_hero")
  /\ size (tables (adapter st')) = 2.
Proof. vm_compute. repeat split; eexists; reflexivity. Qed.

(** ** Further runs *)

(** A required [title]: one non-nullable varchar column, no table. *)
Lemma scalar_field_writes_one_column_witness :
  exists r' st',
    traverseField (C := development) (fun _ _ _ => OutOfFuel) pages integer_id
      requiredTitle (noFlags, fresh) = Ok (r', st')
    /\ columns st' !! "title" = Some (notNull (varchar "title"))
    /\ tables (adapter st') = ∅.
Proof.
  destruct (scalar_field_writes_one_column (C := development)
              (fun _ _ _ => OutOfFuel) pages integer_id requiredTitle "title"
              (varchar "title") noFlags fresh eq_refl eq_refl eq_refl)
    as (r' & st' & Hrun & Hcol & _ & _ & Ht & _).
  exists r', st'. split; [exact Hrun|]. split; [exact Hcol|exact Ht].
Defined.

(** A unique [email]: a unique index and a field constraint on the root
    table. *)
Lemma scalar_field_index_witness :
  exists r' st',
    traverseField (C := development) (fun _ _ _ => OutOfFuel) pages integer_id
      uniqueEmail (noFlags, fresh) = Ok (r', st')
    /\ indexes st' !! "pages_email_idx"
       = Some {| idx_on := ["email"]; idx_name := "pages_email_idx";
                 idx_unique := true |}
    /\ fieldConstraints (adapter st') !! "pages"
       = Some {[ "email_idx" := "email" ]}.
Proof.
  destruct (scalar_field_index (C := development)
              (fun _ _ _ => OutOfFuel) pages integer_id uniqueEmail "email"
              (varchar "email") noFlags fresh eq_refl eq_refl eq_refl eq_refl)
    as (r' & st' & Hrun & Hidx & Hfc).
  exists r', st'. split; [exact Hrun|].
  assert (Hidx' : indexes st'
                  = <["pages_email_idx" :=
                        {| idx_on := ["email"]; idx_name := "pages_email_idx";
                           idx_unique := true |}]> ∅) by exact Hidx.
  assert (Hfc' : fieldConstraints (adapter st')
                 = <["pages" := <["email_idx" := "email"]> ∅]> ∅)
    by exact Hfc.
  rewrite Hidx', Hfc'. split; by rewrite lookup_insert_eq.
Defined.

(** A point field switches postgis on. *)
Lemma point_field_enables_postgis_witness :
  postgis (adapter fresh) = false
  /\ exists r' st',
       traverseField (C := development) (fun _ _ _ => OutOfFuel) pages
         integer_id location (noFlags, fresh) = Ok (r', st')
       /\ postgis (adapter st') = true.
Proof.
  split; [reflexivity|].
  apply (point_field_enables_postgis (C := development)
           (fun _ _ _ => OutOfFuel) pages integer_id location "location"
           (geometryColumn "location") noFlags fresh); reflexivity.
Defined.

(** Multi-valued [labels]: the state is returned as it was and the flag is
    raised. *)
Lemma hasMany_scalar_writes_no_column_witness :
  exists r',
    traverseField (C := development) (fun _ _ _ => OutOfFuel) pages integer_id
      labels (noFlags, fresh) = Ok (r', fresh)
    /\ hasManyTextField r' = yes.
Proof.
  destruct (hasMany_scalar_writes_no_column (C := development)
              (fun _ _ _ => OutOfFuel) pages integer_id labels "labels"
              noFlags fresh eq_refl eq_refl eq_refl eq_refl eq_refl eq_refl)
    as (r' & Hrun & _ & _ & Hflags).
  exists r'. split; [exact Hrun|]. exact (proj1 Hflags).
Defined.

(** Multi-valued, unique [coAuthors]: the slug enters both sets and no
    column is written. *)
Lemma many_relationship_is_registered_witness :
  exists r' st',
    traverseField (C := development) (fun _ _ _ => OutOfFuel) pages integer_id
      coAuthors (noFlags, withAuthors) = Ok (r', st')
    /\ "authors" ∈ relationships st'
    /\ "authors" ∈ uniqueRelationships st'
    /\ columns st' = columns withAuthors.
Proof.
  destruct (many_relationship_is_registered (C := development)
              (fun _ _ _ => OutOfFuel) pages integer_id coAuthors "coAuthors"
              ["authors"] noFlags withAuthors eq_refl eq_refl eq_refl)
    as (r' & st' & Hrun & Hrel & Huniq & _ & Hcols & _);
    [by apply list_elem_of_In; left|reflexivity|reflexivity|].
  exists r', st'. split; [exact Hrun|].
  assert (Huniq' : uniqueRelationships st'
                   = list_to_set ["authors"] ∪ uniqueRelationships withAuthors)
    by exact Huniq.
  rewrite Hrel, Huniq'. split; [set_solver|]. split; [set_solver|exact Hcols].
Defined.

(** [status]: the enum has the option values and the column is of the
    enum's type. *)
Lemma select_field_registers_enum_witness :
  exists r' st',
    traverseField (C := development) (fun _ _ _ => OutOfFuel) pages integer_id
      status (noFlags, fresh) = Ok (r', st')
    /\ enums (adapter st') !! "enum_pages_status" = Some ["draft"; "published"]
    /\ columns st' !! "status"
       = Some (column (PgEnum "enum_pages_status") "status").
Proof.
  destruct (select_field_registers_enum (C := development)
              (fun _ _ _ => OutOfFuel) pages integer_id status "status"
              "enum_pages_status" noFlags fresh eq_refl eq_refl eq_refl)
    as (r' & st' & Hrun & Henum & Hcol & _);
    [by apply list_elem_of_In; right; left|reflexivity|reflexivity|].
  exists r', st'. split; [exact Hrun|]. split; [|exact Hcol].
  rewrite Henum. apply lookup_insert_eq.
Defined.

(** The name of [longArray]'s table is too long. *)
Lemma naming_errors_abort_witness :
  exists e,
    traverseField (C := development) (fun _ _ _ => OutOfFuel) pages integer_id
      longArray (noFlags, fresh) = Throw (Raised e).
Proof.
  eexists.
  apply (proj1 (naming_errors_abort (C := development))
           (fun _ _ _ => OutOfFuel) pages integer_id longArray
           "abcdefghijklmnopqrstuvwxyzabcdefghijklmnopqrstuvwxyzabcdefghijkl"
           noFlags fresh); reflexivity.
Defined.

(** [author] where no collection [authors] is configured. *)
Lemma relationship_to_missing_collection_throws_witness :
  exists message,
    traverseField (C := development) (fun _ _ _ => OutOfFuel) pages integer_id
      author (noFlags, fresh) = Throw (TypeError message).
Proof.
  apply (relationship_to_missing_collection_throws (C := development)
           (fun _ _ _ => OutOfFuel) pages integer_id author "author" "authors"
           noFlags fresh); try reflexivity.
  split; [by apply list_elem_of_In; left|]. by split.
Defined.

(** [items] inside a localized block, without the locales enum. *)
Lemma localized_array_needs_locales_enum_witness :
  exists message,
    traverseField (C := development) (traverseFields 1) withinLocalized
      integer_id items (noFlags, fresh) = Throw (TypeError message).
Proof.
  apply (localized_array_needs_locales_enum (C := development)
           (traverseFields 1) withinLocalized integer_id items "items"
           "pages_items" noFlags fresh); reflexivity.
Defined.

(** [coAuthors] compiled from a state that already knows [media]. *)
Lemma relationship_sets_grow_witness :
  "media" ∈ relationships (snd afterCoAuthors)
  /\ uniqueRelationships (snd afterCoAuthors)
     ⊆ relationships (snd afterCoAuthors).
Proof.
  assert (H : traverseFields (C := development) 1 pages [coAuthors] withMedia
              = Ok (fst afterCoAuthors, snd afterCoAuthors))
    by (vm_compute; reflexivity).
  destruct (relationship_sets_grow (C := development) 1 pages [coAuthors]
              withMedia _ _ H) as (Hr & _ & Hs).
  split; [apply Hr; set_solver|apply Hs; set_solver].
Defined.

(** A versions pass over a unique [email] and a unique [coAuthors]. *)
Lemma disableUnique_adds_nothing_unique_witness :
  uniqueRelationships (snd afterVersions) = ∅
  /\ fieldConstraints (adapter (snd afterVersions)) = ∅
  /\ forall k i,
       indexes (snd afterVersions) !! k = Some i -> idx_unique i = false.
Proof.
  assert (H : traverseFields (C := development) 1 (with_versions pages)
                [uniqueEmail; coAuthors] withAuthors
              = Ok (fst afterVersions, snd afterVersions))
    by (vm_compute; reflexivity).
  destruct (disableUnique_adds_nothing_unique (C := development) 1
              (with_versions pages) [uniqueEmail; coAuthors] withAuthors _ _
              eq_refl H) as (Hu & Hf & Hi & _).
  split; [exact Hu|]. split; [exact Hf|]. intros k i Hk.
  destruct (Hi k i Hk) as [Hold|Hnew]; [|exact Hnew].
  assert (Hnone : (∅ : gmap string IndexSpec) !! k = Some i) by exact Hold.
  by rewrite lookup_empty in Hnone.
Defined.

(** A pass from a state with postgis on and the locales enum. *)
Lemma postgis_and_enums_persist_witness :
  postgis (adapter (snd afterPostgis)) = true
  /\ is_Some (enums (adapter (snd afterPostgis)) !! "enum__locales").
Proof.
  assert (H : traverseFields (C := development) 1 pages [title] withPostgis
              = Ok (fst afterPostgis, snd afterPostgis))
    by (vm_compute; reflexivity).
  destruct (postgis_and_enums_persist (C := development) 1 pages [title]
              withPostgis _ _ H) as (Hp & He).
  split; [by apply Hp|]. apply He. by eexists.
Defined.

(** A required [title] in a row with a display condition is nullable. *)
Lemma row_children_stay_in_place_witness :
  exists r' st',
    traverseField (C := development) (traverseFields 1) pages integer_id
      guardedRow (noFlags, fresh) = Ok (r', st')
    /\ columns st' !! "title" = Some (varchar "title").
Proof.
  destruct (row_children_stay_in_place (C := development) 0 pages integer_id
              guardedRow noFlags fresh)
    as (r' & st' & Hrun & _ & Hcols).
  - by apply list_elem_of_In; left.
  - reflexivity.
  - reflexivity.
  - reflexivity.
  - by repeat constructor.
  - by apply (bool_decide_unpack _).
  - exists r', st'. split; [exact Hrun|].
    apply (Hcols requiredTitle "title" (varchar "title"));
      [by left|reflexivity..].
Defined.

(** The same [title] in an unnamed group with a display condition is not. *)
Lemma unnamed_group_children_stay_in_place_witness :
  exists r' st',
    traverseField (C := development) (traverseFields 1) pages integer_id
      guardedGroup (noFlags, fresh) = Ok (r', st')
    /\ columns st' !! "title" = Some (notNull (varchar "title")).
Proof.
  destruct (unnamed_group_children_stay_in_place (C := development) 0 pages
              integer_id guardedGroup noFlags fresh)
    as (r' & st' & Hrun & _ & Hcols).
  - by apply list_elem_of_In; left.
  - reflexivity.
  - reflexivity.
  - reflexivity.
  - reflexivity.
  - by repeat constructor.
  - by apply (bool_decide_unpack _).
  - exists r', st'. split; [exact Hrun|].
    apply (Hcols requiredTitle "title" (varchar "title"));
      [by left|reflexivity..].
Defined.

(** The flag [labels] raised is still raised after [title]. *)
Lemma flags_only_accumulate_witness :
  truthy (hasManyTextField (fst afterLabelsTitle)) = true.
Proof.
  assert (H1 : traverseFields (C := development) 1 pages [labels] fresh
               = Ok (fst afterLabels, snd afterLabels))
    by (vm_compute; reflexivity).
  assert (H2 : traverseFields (C := development) 1 pages ([labels] ++ [title])
                 fresh
               = Ok (fst afterLabelsTitle, snd afterLabelsTitle))
    by (vm_compute; reflexivity).
  destruct (flags_only_accumulate (C := development) 0 pages [labels] [title]
              fresh _ _ _ _ H1 H2) as (_ & _ & _ & _ & _ & Ht).
  apply Ht. reflexivity.
Defined.

(** A row around an indexed, multi-valued [labels]. *)
Lemma containers_report_hasMany_without_index_witness :
  exists a' fs' st0 flags st1,
    traverseFields (C := development) 1 a' fs' st0 = Ok (flags, st1)
    /\ hasManyTextField (fst afterLabelsRow)
       = (if truthy (hasManyTextField flags) then yes else no)
    /\ hasManyNumberField (fst afterLabelsRow)
       = (if truthy (hasManyNumberField flags) then yes else no).
Proof.
  assert (H : traverseField (C := development) (traverseFields 1) pages
                integer_id labelsRow (noFlags, fresh)
              = Ok (fst afterLabelsRow, snd afterLabelsRow))
    by (vm_compute; reflexivity).
  apply (containers_report_hasMany_without_index (C := development)
           (traverseFields 1) pages integer_id labelsRow noFlags fresh
           (fst afterLabelsRow) (snd afterLabelsRow));
    [by apply list_elem_of_In; left|reflexivity|exact H].
Defined.

(** [items]: a [many] relation to the table [pages_items]. *)
Lemma array_field_records_many_relation_witness :
  relationsToBuild (snd afterItems) !! Some "items"
  = Some {| rel_type := many; rel_localized := false;
            rel_target := Some "pages_items" |}
  /\ exists rd,
       relations (adapter (snd afterItems)) !! "relations_pages_items"
       = Some rd
       /\ rd_table rd = "pages_items"
       /\ rd_parent rd = ("_parentID", "pages", "items")
       /\ rd_locales rd = None.
Proof.
  assert (H : traverseField (C := development) (traverseFields 1) pages
                integer_id items (noFlags, withAuthors)
              = Ok (fst afterItems, snd afterItems))
    by (vm_compute; reflexivity).
  apply (array_field_records_many_relation (C := development)
           (traverseFields 1) pages integer_id items "items" "pages_items"
           noFlags withAuthors _ _ eq_refl eq_refl eq_refl eq_refl eq_refl H).
Defined.

(** [age] directly below a localized group goes to the locales table; below
    the group [bio] in between it goes to the main table. *)
Lemma nested_group_drops_forced_localization_witness :
  routesToLocales forced age freshLocalized = true
  /\ exists r' st',
       traverseField (C := development) (traverseFields 1) forced integer_id
         bio (noFlags, freshLocalized) = Ok (r', st')
       /\ columns st' !! "bio_age" = Some (numeric "bio_age").
Proof.
  split; [reflexivity|].
  destruct (nested_group_drops_forced_localization (C := development) 0
              forced integer_id bio noFlags freshLocalized "bio")
    as (r' & st' & Hrun & Hcols).
  - by apply list_elem_of_In; left.
  - reflexivity.
  - reflexivity.
  - reflexivity.
  - reflexivity.
  - by repeat constructor.
  - by apply (bool_decide_unpack _).
  - exists r', st'. split; [exact Hrun|].
    apply (Hcols age "age" (numeric "bio_age")); [by left|reflexivity..].
Defined.

(** A unique [coAuthors] in a row, in a pass that disables unique on the
    relationships table. *)
Lemma containers_forget_disableRelsTableUnique_witness :
  disableRelsTableUnique noRelsUnique = true
  /\ "authors" ∈ uniqueRelationships (snd afterCoAuthorsRow).
Proof.
  split; [reflexivity|].
  assert (H : traverseField (C := development) (traverseFields 1) noRelsUnique
                integer_id coAuthorsRow (noFlags, withAuthors)
              = Ok (fst afterCoAuthorsRow, snd afterCoAuthorsRow))
    by (vm_compute; reflexivity).
  apply (containers_forget_disableRelsTableUnique (C := development) 1
           noRelsUnique integer_id coAuthorsRow coAuthors "coAuthors"
           ["authors"] noFlags withAuthors (fst afterCoAuthorsRow)
           (snd afterCoAuthorsRow));
    [by apply list_elem_of_In; left|reflexivity|by left|reflexivity
    |reflexivity|reflexivity|by apply list_elem_of_In; left|reflexivity
    |reflexivity|reflexivity|exact H|set_solver].
Defined.

(** [title] then [age], in one pass and in two. *)
Lemma pass_splits_witness :
  exists r',
    traverseFields (C := development) 1 pages ([title] ++ [age]) fresh
    = Ok (r', snd afterAge).
Proof.
  assert (H1 : traverseFields (C := development) 1 pages [title] fresh
               = Ok (fst afterTitle, snd afterTitle))
    by (vm_compute; reflexivity).
  assert (H2 : traverseFields (C := development) 1 pages [age] (snd afterTitle)
               = Ok (fst afterAge, snd afterAge))
    by (vm_compute; reflexivity).
  destruct (pass_splits (C := development) 0 pages [title] [age] fresh _ _ H1
              eq_refl) as [Hok _].
  exact (Hok _ _ H2).
Defined.

(** Multi-valued [statuses]: a [many] relation to the table
    [pages_statuses]. *)
Lemma hasMany_select_records_many_relation_witness :
  relationsToBuild (snd afterStatuses) !! Some "statuses"
  = Some {| rel_type := many; rel_localized := false;
            rel_target := Some "pages_statuses" |}
  /\ relations (adapter (snd afterStatuses)) !! "relations_pages_statuses"
     = Some {| rd_table := "pages_statuses";
               rd_parent := ("parent", "pages", "statuses");
               rd_locales := None; rd_sub := ∅ |}
  /\ fst afterStatuses = noFlags.
Proof.
  assert (H : traverseField (C := development) (traverseFields 1) pages
                integer_id statuses (noFlags, fresh)
              = Ok (fst afterStatuses, snd afterStatuses))
    by (vm_compute; reflexivity).
  apply (hasMany_select_records_many_relation (C := development)
           (traverseFields 1) pages integer_id statuses "statuses"
           "enum_pages_statuses" "pages_statuses" noFlags fresh _ _
           eq_refl eq_refl eq_refl eq_refl eq_refl eq_refl eq_refl H).
Defined.
(** [author]: a [one] relation to the table [authors], and no flag. *)
Lemma single_relationship_records_one_relation_witness :
  exists r' st',
    traverseField (C := development) (fun _ _ _ => OutOfFuel) pages integer_id
      author (noFlags, withAuthors) = Ok (r', st')
    /\ relationsToBuild st' !! Some "author"
       = Some {| rel_type := one; rel_localized := false;
                 rel_target := Some "authors" |}
    /\ hasLocalizedRelationshipField r' = false
    /\ rootRelationsToBuild st' !! Some "author"
       = Some {| rel_type := one; rel_localized := false;
                 rel_target := Some "authors" |}.
Proof.
  destruct (single_relationship_records_one_relation (C := development)
              (fun _ _ _ => OutOfFuel) pages integer_id author "author"
              "authors" [leaf FT_text "id"; leaf FT_text "name"] noFlags
              withAuthors eq_refl eq_refl eq_refl)
    as (r' & st' & Hrun & Hrel & Hflag & _ & _ & Hroot & _).
  - split; [by apply list_elem_of_In; left|]. by split.
  - reflexivity.
  - exists r', st'. split; [exact Hrun|]. split; [exact Hrel|].
    split; [exact Hflag|]. rewrite Hroot. reflexivity.
Defined.

End Runs.
